(** * skill-news: the matching and scoring core of the news skill

    A shallow embedding of [NewsSkill.clean_phrase], [NewsSkill.match_lang]
    and [NewsSkill.search_news] (src/__init__.py), with the class-level
    catalog [lang2news] as an explicit store that [search_news] updates in
    place, and the four stream extractors as calls into an external world. *)

From Stdlib Require Import Ascii String ZArith SpecFloat Lia.
From stdpp Require Import base option list strings gmap pretty.

Local Open Scope string_scope.
Local Open Scope list_scope.

(** ** Python values used by the skill *)

(** [MediaType] and [PlaybackType] of ovos_workshop, restricted to the
    members the skill mentions. *)
Module MediaType.
Inductive t := GENERIC | VIDEO | TV | RADIO | NEWS.
#[global] Instance eq_dec : EqDecision t.
Proof. solve_decision. Defined.
End MediaType.

Module PlaybackType.
Inductive t := AUDIO | VIDEO.
End PlaybackType.

(** The module-level stream extractors [tsf], [gpb], [abc] and [npr]. *)
Inductive Resolver := tsf | gpb | abc | npr.

#[global] Instance Resolver_eq_dec : EqDecision Resolver.
Proof. solve_decision. Defined.

(** What the key ["uri"] of a descriptor may hold: a string, one of the
    extractor functions, or [None] once an extractor has returned it. *)
Inductive UriVal :=
| UStr (s : string)
| UCallable (r : Resolver)
| UNone.

(** Python truthiness of a string and of a ["uri"] value. *)
Definition str_truthy (s : string) : bool :=
  match s with
  | EmptyString => false
  | String _ _ => true
  end.

Definition uri_truthy (u : UriVal) : bool :=
  match u with
  | UStr s => str_truthy s
  | UCallable _ => true
  | UNone => false
  end.

Definition callable (u : UriVal) : bool :=
  match u with
  | UCallable _ => true
  | _ => false
  end.

(** [str.split(sep)[0]]: the part of [s] before the first [sep]. *)
Fixpoint split_head (sep : ascii) (s : string) : string :=
  match s with
  | EmptyString => EmptyString
  | String c s' =>
      if Ascii.eqb c sep then EmptyString else String c (split_head sep s')
  end.

Definition base_tag (l : string) : string := split_head "-"%char l.

(** [str.strip()] on the ASCII range: tab, line feed, vertical tab, form
    feed, carriage return, the four separators 0x1c-0x1f and space. *)
Definition is_space (c : ascii) : bool :=
  let n := nat_of_ascii c in
  ((9 <=? n)%nat && (n <=? 13)%nat) || ((28 <=? n)%nat && (n <=? 32)%nat).

Fixpoint lstrip (s : string) : string :=
  match s with
  | EmptyString => EmptyString
  | String c s' => if is_space c then lstrip s' else s
  end.

Fixpoint rstrip (s : string) : string :=
  match s with
  | EmptyString => EmptyString
  | String c s' =>
      match rstrip s' with
      | EmptyString => if is_space c then EmptyString else String c EmptyString
      | r => String c r
      end
  end.

Definition strip (s : string) : string := rstrip (lstrip s).

(** ** Python numbers *)

(** A Python float is an IEEE 754 binary64: 53 bits of precision, exponents
    below 1024, operations rounded to the nearest float with ties to even.
    These are the operations of [SpecFloat] at that format. *)
Definition fprec : Z := 53.
Definition femax : Z := 1024.

(** The numbers the scoring handles: an int, of any size, or a float. *)
Inductive PyNum :=
| PyInt (z : Z)
| PyFloat (f : spec_float).

(** [float(z)], rounded like every other operation. An int below 2^53 in
    size is converted exactly. Python raises OverflowError for an int of
    2^1024 or more, where this gives an infinity; the ints [search_news]
    mixes with a float are the base score, 50 or -20, and the literals 60,
    20, 10 and 30. *)
Definition float_of_int (z : Z) : spec_float :=
  binary_normalize fprec femax z 0 false.

Definition to_float (x : PyNum) : spec_float :=
  match x with
  | PyInt z => float_of_int z
  | PyFloat f => f
  end.

(** [x + y], [x - y] and [x * y]: on two ints the operation of the
    integers, otherwise the operation of the floats after the conversion of
    the int operand. *)
Definition py_add (x y : PyNum) : PyNum :=
  match x, y with
  | PyInt a, PyInt b => PyInt (a + b)
  | _, _ => PyFloat (SFadd fprec femax (to_float x) (to_float y))
  end.

Definition py_sub (x y : PyNum) : PyNum :=
  match x, y with
  | PyInt a, PyInt b => PyInt (a - b)
  | _, _ => PyFloat (SFsub fprec femax (to_float x) (to_float y))
  end.

Definition py_mul (x y : PyNum) : PyNum :=
  match x, y with
  | PyInt a, PyInt b => PyInt (a * b)
  | _, _ => PyFloat (SFmul fprec femax (to_float x) (to_float y))
  end.

(** A float against an int: Python compares the two exact values and
    converts neither. There is no answer for a NaN. *)
Definition float_compare_int (f : spec_float) (z : Z) : option comparison :=
  match f with
  | S754_nan => None
  | S754_infinity s => Some (if s then Lt else Gt)
  | S754_zero _ => Some (0 ?= z)%Z
  | S754_finite s m e =>
      let n := cond_Zopp s (Zpos m) in
      Some (match e with
            | Zneg p => (n ?= z * 2 ^ Zpos p)%Z
            | _ => (n * 2 ^ e ?= z)%Z
            end)
  end.

Definition py_compare (x y : PyNum) : option comparison :=
  match x, y with
  | PyInt a, PyInt b => Some (a ?= b)%Z
  | PyFloat f, PyInt b => float_compare_int f b
  | PyInt a, PyFloat g => CompOpp <$> float_compare_int g a
  | PyFloat f, PyFloat g => SFcompare f g
  end.

(** [x < y] and [x >= y]; both are false when one side is a NaN. *)
Definition py_lt (x y : PyNum) : bool :=
  match py_compare x y with
  | Some Lt => true
  | _ => false
  end.

Definition py_ge (x y : PyNum) : bool :=
  match py_compare x y with
  | Some (Gt | Eq) => true
  | _ => false
  end.

(** [min([x, y])]: [y] when [y < x], otherwise [x], the first of the two. *)
Definition py_min2 (x y : PyNum) : PyNum := if py_lt y x then y else x.

(** A float that is a number between the ints [L] and [U], with an
    exponent of at most 0; and the same for a number of either kind. *)
Definition float_between (L U : Z) (f : spec_float) : Prop :=
  match f with
  | S754_zero _ => (L <= 0 <= U)%Z
  | S754_finite s m e =>
      (e <= 0)%Z ∧
      (L * 2 ^ (- e) <= cond_Zopp s (Zpos m) <= U * 2 ^ (- e))%Z
  | _ => False
  end.

Definition num_between (L U : Z) (x : PyNum) : Prop :=
  match x with
  | PyInt z => (L <= z <= U)%Z
  | PyFloat f => float_between L U f
  end.

(** A shift to the right that has shifted out nothing but zeros. *)
Definition no_remainder (mrs : shr_record) : Prop :=
  shr_r mrs = false ∧ shr_s mrs = false.

(** ** The source descriptor and the catalog *)

(** One value of [lang2news[l]]: a dict with the keys of the literal and the
    keys [search_news] adds to it. A key that may be missing is an option. *)
Record Descriptor := mkDescriptor {
  aliases : list string;
  uri : UriVal;
  media_type : MediaType.t;
  match_types : list MediaType.t;
  playback : PlaybackType.t;
  secondary_langs : option (list string);
  image : string;
  match_confidence : option PyNum;
  title : option string;
  bg_image : option string;
  skill_logo : option string
}.

Definition set_match_confidence (c : option PyNum) (v : Descriptor) :
  Descriptor :=
  mkDescriptor (aliases v) (uri v) (media_type v) (match_types v) (playback v)
    (secondary_langs v) (image v) c (title v) (bg_image v) (skill_logo v).

Definition set_uri (u : UriVal) (v : Descriptor) : Descriptor :=
  mkDescriptor (aliases v) u (media_type v) (match_types v) (playback v)
    (secondary_langs v) (image v) (match_confidence v) (title v) (bg_image v)
    (skill_logo v).

Definition set_title (t : string) (v : Descriptor) : Descriptor :=
  mkDescriptor (aliases v) (uri v) (media_type v) (match_types v) (playback v)
    (secondary_langs v) (image v) (match_confidence v) (Some t) (bg_image v)
    (skill_logo v).

Definition set_bg_image (b : string) (v : Descriptor) : Descriptor :=
  mkDescriptor (aliases v) (uri v) (media_type v) (match_types v) (playback v)
    (secondary_langs v) (image v) (match_confidence v) (title v) (Some b)
    (skill_logo v).

Definition set_skill_logo (i : string) (v : Descriptor) : Descriptor :=
  mkDescriptor (aliases v) (uri v) (media_type v) (match_types v) (playback v)
    (secondary_langs v) (image v) (match_confidence v) (title v) (bg_image v)
    (Some i).

(** [v["match_confidence"] += d] and [v["match_confidence"] -= d] *)
Definition add_match_confidence (d : PyNum) (v : Descriptor) : Descriptor :=
  set_match_confidence ((fun c => py_add c d) <$> match_confidence v) v.

Definition sub_match_confidence (d : PyNum) (v : Descriptor) : Descriptor :=
  set_match_confidence ((fun c => py_sub c d) <$> match_confidence v) v.

(** A dict keeps its keys in insertion order, and [search_news] walks the
    catalog in that order: both levels are association lists. *)
Definition Bucket := list (string * Descriptor).
Definition Catalog := list (string * Bucket).

(** [lang2news[l][k]] *)
Fixpoint assoc {A} (k : string) (d : list (string * A)) : option A :=
  match d with
  | [] => None
  | (k', a) :: d' => if decide (k = k') then Some a else assoc k d'
  end.

Definition lookup_source (cat : Catalog) (l k : string) : option Descriptor :=
  b ← assoc l cat; assoc k b.

(** The keys of a dict are distinct. *)
Definition keys {A} (d : list (string * A)) : list string := d.*1.

Definition wf_catalog (cat : Catalog) : Prop :=
  NoDup (keys cat) ∧ Forall (fun lb => NoDup (keys lb.2)) cat.

#[global] Instance wf_catalog_dec (cat : Catalog) : Decision (wf_catalog cat).
Proof. unfold wf_catalog, keys. apply _. Defined.

(** ** The skill object and its host *)

(** [self]: the attributes [search_news] reads, the vocabulary methods the
    skill inherits from the host framework, [match_one] of ovos_utils at
    [MatchStrategy.TOKEN_SORT_RATIO], whose score is a float, and
    [MatchConfidence.AVERAGE], a member of an IntEnum. *)
Record NewsSkill := mkNewsSkill {
  lang : string;
  settings : gmap string string;
  skill_icon : string;
  default_bg : string;
  voc_match : string -> string -> bool;
  remove_voc : string -> string -> string;
  match_one : string -> list string -> string * spec_float;
  AVERAGE : Z
}.

(** [NewsSkill.langdefaults] *)
Definition langdefaults : gmap string string :=
  list_to_map
    [("pt-pt", "TSF"); ("ca", "CCMA"); ("es", "RNE"); ("en-gb", "BBC");
     ("en-us", "NPR"); ("en-au", "ABC"); ("fr", "France24");
     ("de", "Deutsche Welle")].

(** ** clean_phrase *)

Definition clean_phrase (self : NewsSkill) (phrase : string) : string :=
  let phrase := remove_voc self phrase "news" in
  let phrase :=
    if negb (voc_match self phrase "fr24") && negb (voc_match self phrase "rt")
    then
      let phrase := remove_voc self phrase "pt-pt" in
      let phrase := remove_voc self phrase "en-au" in
      let phrase := remove_voc self phrase "en-us" in
      let phrase := remove_voc self phrase "en-ca" in
      let phrase := remove_voc self phrase "en-gb" in
      let phrase := remove_voc self phrase "es" in
      let phrase := remove_voc self phrase "it" in
      let phrase := remove_voc self phrase "fi" in
      let phrase := remove_voc self phrase "de" in
      let phrase := remove_voc self phrase "sv" in
      let phrase := remove_voc self phrase "nl" in
      let phrase := remove_voc self phrase "en" in
      let phrase := remove_voc self phrase "ca" in
      phrase
    else phrase in
  strip phrase.

(** ** match_lang *)

(** [if self.voc_match(phrase, tag): langs.append(tag)] *)
Definition append_if (b : bool) (tag : string) (langs : list string) :
  list string :=
  if b then langs ++ [tag] else langs.

Definition match_lang (self : NewsSkill) (phrase : string) : list string :=
  let langs := [] in
  let langs := append_if (voc_match self phrase "pt-pt") "pt-pt" langs in
  let langs := append_if (voc_match self phrase "en-au") "en-au" langs in
  let langs := append_if (voc_match self phrase "en-us") "en-us" langs in
  let langs := append_if (voc_match self phrase "en-gb") "en-gb" langs in
  let langs := append_if (voc_match self phrase "en-ca") "en-ca" langs in
  let langs := append_if (voc_match self phrase "en") "en" langs in
  let langs := append_if (voc_match self phrase "es") "es" langs in
  let langs := append_if (voc_match self phrase "ca") "ca" langs in
  let langs := append_if (voc_match self phrase "de") "de" langs in
  let langs := append_if (voc_match self phrase "nl") "nl" langs in
  let langs := append_if (voc_match self phrase "fi") "fi" langs in
  let langs := append_if (voc_match self phrase "sv") "sv" langs in
  let langs := append_if (voc_match self phrase "it") "it" langs in
  let langs :=
    append_if (voc_match self phrase "fr" && negb (voc_match self phrase "fr24"))
      "fr" langs in
  let langs :=
    append_if (voc_match self phrase "ru" && negb (voc_match self phrase "rt"))
      "ru" langs in
  langs ++ (base_tag <$> langs).

(** ** The world of the stream extractors *)

(** A call of an extractor raises, or returns a string or [None]. What it
    does depends on the network at the time of the call: the world holds
    the number of calls made so far and the outcome of every call. *)
Inductive Outcome :=
| Raised
| Returned (u : option string).

Record World := mkWorld {
  clock : nat;
  net : nat -> Resolver -> Outcome
}.

(** The world after one more call. *)
Definition tick (w : World) : World := mkWorld (S (clock w)) (net w).

Definition call (r : Resolver) (w : World) : Outcome * World :=
  (net w (clock w) r, tick w).

Definition uri_of_return (u : option string) : UriVal :=
  match u with
  | Some s => UStr s
  | None => UNone
  end.

(** ** search_news *)

(** A result is the descriptor object itself, not a copy: the list holds
    references [(l, k)] to [lang2news[l][k]]. *)
Definition Ref := (string * string)%type.

(** What the loop of [search_news] changes besides the catalog: the list
    [results], the lines written by [LOG.error] and the world. *)
Record LoopState := mkLoopState {
  results : list Ref;
  log : list string;
  world : World
}.

(** [v.get("secondary_langs", [])] *)
Definition get_secondary_langs (v : Descriptor) : list string :=
  default [] (secondary_langs v).

(** [v["match_confidence"] >= MatchConfidence.AVERAGE] *)
Definition confidence_ge (v : Descriptor) (t : Z) : bool :=
  match match_confidence v with
  | Some c => py_ge c (PyInt t)
  | None => false
  end.

(** [v.get(key) or d]: the value under the key, or [d] when the key is
    missing or holds the empty string. *)
Definition get_or (x : option string) (d : string) : string :=
  match x with
  | Some t => if str_truthy t then t else d
  | None => d
  end.

(** Lines 701-703: the display defaults. *)
Definition fill_defaults (self : NewsSkill) (k : string) (v : Descriptor) :
  Descriptor :=
  let v :=
    set_title (match title v with
               | Some t => if str_truthy t then t else k
               | None => k
               end) v in
  let v :=
    set_bg_image (match bg_image v with
                  | Some b => if str_truthy b then b else default_bg self
                  | None => default_bg self
                  end) v in
  set_skill_logo (skill_icon self) v.

(** Lines 700-704: [if v["uri"]: ...; results.append(v)] *)
Definition append_result (self : NewsSkill) (l k : string) (v : Descriptor)
  (st : LoopState) : Descriptor * LoopState :=
  if uri_truthy (uri v) then
    (fill_defaults self k v,
     mkLoopState (results st ++ [(l, k)]) (log st) (world st))
  else (v, st).

(** Lines 694-704: the extractor is called inside [try], and [except:]
    logs and goes on to the next source. *)
Definition resolve_and_append (self : NewsSkill) (l k : string)
  (v : Descriptor) (st : LoopState) : Descriptor * LoopState :=
  match uri v with
  | UCallable r =>
      match call r (world st) with
      | (Raised, w) =>
          (v, mkLoopState (results st)
                (log st ++ ["stream extraction failed for " +:+ k]) w)
      | (Returned u, w) =>
          append_result self l k (set_uri (uri_of_return u) v)
            (mkLoopState (results st) (log st) w)
      end
  | _ => append_result self l k v st
  end.

(** Lines 670-689: the confidence written into [v]. *)
Definition score_confidence (self : NewsSkill) (score : Z) (phrase : string)
  (langs default_feeds : list string) (l k : string) (v : Descriptor) :
  Descriptor :=
  let alias_score := (match_one self phrase (aliases v)).2 in
  let v :=
    set_match_confidence
      (Some (py_add (PyInt score) (py_mul (PyFloat alias_score) (PyInt 60))))
      v in
  let v :=
    if bool_decide (l ∈ langs) then add_match_confidence (PyInt 20) v
    else if existsb (fun lang => bool_decide (lang ∈ get_secondary_langs v))
              langs
         then add_match_confidence (PyInt 10) v
         else sub_match_confidence (PyInt 20) v in
  let v :=
    if bool_decide (k ∈ default_feeds) then add_match_confidence (PyInt 30) v
    else v in
  set_match_confidence
    ((fun c => py_min2 c (PyInt 100)) <$> match_confidence v) v.

(** The body of the inner loop, lines 669-704. *)
Definition score_source (self : NewsSkill) (media : MediaType.t) (score : Z)
  (phrase : string) (langs default_feeds : list string) (l k : string)
  (v : Descriptor) (st : LoopState) : Descriptor * LoopState :=
  let v := score_confidence self score phrase langs default_feeds l k v in
  if confidence_ge v (AVERAGE self) || bool_decide (media = MediaType.NEWS)
  then resolve_and_append self l k v st
  else (v, st).

Section Loops.
Variable body : string -> string -> Descriptor -> LoopState ->
                Descriptor * LoopState.

(** [for k, v in self.lang2news[l].items()] *)
Fixpoint loop_items (l : string) (b : Bucket) (st : LoopState) :
  Bucket * LoopState :=
  match b with
  | [] => ([], st)
  | (k, v) :: b' =>
      let '(v', st1) := body l k v st in
      let '(b'', st2) := loop_items l b' st1 in
      ((k, v') :: b'', st2)
  end.

(** [for l in self.lang2news] *)
Fixpoint loop_langs (cat : Catalog) (st : LoopState) : Catalog * LoopState :=
  match cat with
  | [] => ([], st)
  | (l, b) :: cat' =>
      let '(b', st1) := loop_items l b st in
      let '(cat'', st2) := loop_langs cat' st1 in
      ((l, b') :: cat'', st2)
  end.
End Loops.

(** Lines 635-642: the base score. *)
Definition base_score (media : MediaType.t) : Z :=
  let score := 0%Z in
  if bool_decide (media = MediaType.NEWS) then 50%Z else (score - 20)%Z.

(** Lines 647-662: the feeds that get the bonus. [phrase] is the cleaned
    phrase and [langs] the result of [match_lang]. *)
Definition default_feeds_of (self : NewsSkill) (phrase : string)
  (langs : list string) : list string :=
  let default_feeds := [] in
  if negb (str_truthy phrase) then
    let default_feeds :=
      foldl (fun acc lang =>
               match langdefaults !! lang with
               | Some feed => if str_truthy feed then acc ++ [feed] else acc
               | None => acc
               end) default_feeds langs in
    match langs with
    | [] =>
        match settings self !! "default_feed" with
        | Some feed =>
            if str_truthy feed then default_feeds ++ [feed] else default_feeds
        | None => default_feeds
        end
    | _ => default_feeds
    end
  else default_feeds.

(** [langs or [self.lang, self.lang.split("-")[0]]] *)
Definition effective_langs (self : NewsSkill) (langs : list string) :
  list string :=
  match langs with
  | [] => [lang self; base_tag (lang self)]
  | _ => langs
  end.

(** [search_news], on the catalog [cat] found in [self.lang2news] and the
    world [w]: the catalog it leaves behind, and the returned references,
    the log and the world in the final loop state. *)
Definition search_news (self : NewsSkill) (phrase : string)
  (media : MediaType.t) (cat : Catalog) (w : World) : Catalog * LoopState :=
  let langs := match_lang self phrase in
  let score := base_score media in
  let phrase := clean_phrase self phrase in
  let default_feeds := default_feeds_of self phrase langs in
  let langs := effective_langs self langs in
  loop_langs (score_source self media score phrase langs default_feeds) cat
    (mkLoopState [] [] w).

(** The list [search_news] returns, read at the time of the return: every
    reference followed into the catalog the call left behind. *)
Definition returned (out : Catalog * LoopState) : list (option Descriptor) :=
  (fun r : Ref => lookup_source out.1 r.1 r.2) <$> results out.2.

(** ** The catalog at skill load *)

(** A descriptor as the class body writes it: none of the keys
    [search_news] adds is there yet. *)
Definition source (al : list string) (u : UriVal) (mt : MediaType.t)
  (mts : list MediaType.t) (pb : PlaybackType.t) (sec : option (list string))
  (img : string) : Descriptor :=
  mkDescriptor al u mt mts pb sec img None None None None.

Section CatalogLiteral.
(** [dirname(__file__)] *)
Variable dirname : string.

Let img (name : string) : string := dirname +:+ "/ui/images/" +:+ name.
Let tv := [MediaType.VIDEO; MediaType.TV; MediaType.NEWS].
Let radio := [MediaType.NEWS; MediaType.RADIO].
Let euro := ["euro"; "euronews"; "Euro News"; "european"; "european news"].
Let yt (s : string) : UriVal := UStr ("youtube.channel.live//" +:+ s).

(** [NewsSkill.lang2news] *)
Definition lang2news : Catalog :=
  [ ("en",
     [ ("France24 EN",
        source ["france 24"]
          (yt "https://www.youtube.com/channel/UCQfwfsi5VrQ8yKZ-UWmAEFg")
          MediaType.NEWS tv PlaybackType.VIDEO (Some ["fr"])
          (img "FR24_EN.jpg"));
       ("Deutsche Welle EN",
        source ["DW"; "Deutsche Welle"]
          (yt "https://www.youtube.com/channel/UCknLrEdhRCp1aegoMqRaCZg")
          MediaType.NEWS tv PlaybackType.VIDEO None (img "DW.jpg"));
       ("Russia Today",
        source ["RT"; "Russia Today"]
          (yt "https://www.youtube.com/user/RussiaToday")
          MediaType.NEWS tv PlaybackType.VIDEO (Some ["ru"])
          (img "RT.jpg")) ]);
    ("en-us",
     [ ("SkyStream",
        source ["skyuri"; "sky uri"; "sky news"; "skynews"]
          (UStr "https://skynews2-plutolive-vo.akamaized.net/cdhlsskynewsamericas/1013/latest.m3u8?serverSideAds=true")
          MediaType.NEWS tv PlaybackType.VIDEO (Some ["en"])
          (img "skystream.png"));
       ("GPB",
        source ["Georgia Public Broadcasting"; "GPB"; "Georgia Public Radio"]
          (UCallable gpb)
          MediaType.NEWS radio PlaybackType.AUDIO (Some ["en"])
          (img "gpb.png"));
       ("AP",
        source ["AP Hourly Radio News"; "Associated Press";
                "Associated Press News"; "Associated Press Radio News";
                "Associated Press Hourly Radio News"]
          (UStr "rss//https://www.spreaker.com/show/1401466/episodes/feed")
          MediaType.NEWS radio PlaybackType.AUDIO (Some ["en"])
          (img "AP.png"));
       ("FOX",
        source ["FOX News"; "FOX"; "Fox News Channel"]
          (UStr "rss//http://feeds.foxnewsradio.com/FoxNewsRadio")
          MediaType.NEWS radio PlaybackType.AUDIO (Some ["en"])
          (img "FOX.png"));
       ("NPR",
        source ["NPR News"; "NPR"; "National Public Radio";
                "National Public Radio News"; "NPR News Now"]
          (UCallable npr)
          MediaType.NEWS radio PlaybackType.AUDIO (Some ["en"])
          (img "NPR.png"));
       ("PBS",
        source ["PBS News"; "PBS"; "PBS NewsHour"; "PBS News Hour";
                "National Public Broadcasting Service";
                "Public Broadcasting Service News"]
          (UStr "rss//https://www.pbs.org/newshour/feeds/rss/podcasts/show")
          MediaType.NEWS radio PlaybackType.AUDIO (Some ["en"])
          (img "PBS.png"));
       ("Russia Today America",
        source ["RT"; "Russia Today"; "RT America"; "Russia Today America"]
          (yt "https://www.youtube.com/channel/UCczrL-2b-gYK3l4yDld4XlQ")
          MediaType.NEWS tv PlaybackType.VIDEO (Some ["en"; "ru"])
          (img "RT_US.jpg")) ]);
    ("en-gb",
     [ ("BBC",
        source ["British Broadcasting Corporation"; "BBC"; "BBC News"]
          (UStr "rss//https://podcasts.files.bbci.co.uk/p02nq0gn.rss")
          MediaType.NEWS radio PlaybackType.AUDIO (Some ["en"])
          (img "BBC.png"));
       ("EuroNews",
        source euro (yt "https://www.youtube.com/user/Euronews")
          MediaType.NEWS tv PlaybackType.VIDEO (Some ["en"])
          (img "euronews.png"));
       ("Russia Today UK",
        source ["RT"; "Russia Today"; "RT UK"; "Russia Today UK"]
          (yt "https://www.youtube.com/channel/UC_ab7FFA2ACk2yTHgNan8lQ")
          MediaType.NEWS tv PlaybackType.VIDEO (Some ["en"; "ru"])
          (img "RT_UK.jpg")) ]);
    ("en-au",
     [ ("ABC",
        source ["ABC News Australia"; "ABC News"; "ABC"] (UCallable abc)
          MediaType.NEWS radio PlaybackType.AUDIO (Some ["en"])
          (img "ABC.png")) ]);
    ("en-ca",
     [ ("CBC",
        source ["Canadian Broadcasting Corporation"; "CBC"; "CBC News"]
          (UStr "rss//https://www.cbc.ca/podcasting/includes/hourlynews.xml")
          MediaType.NEWS radio PlaybackType.AUDIO (Some ["en"])
          (img "CBC.png")) ]);
    ("pt-pt",
     [ ("TSF",
        source ["TSF"; "TSF Rádio Notícias"; "TSF Notícias"] (UCallable tsf)
          MediaType.NEWS radio PlaybackType.AUDIO (Some ["pt"])
          (img "tsf.png"));
       ("RDP-AFRICA",
        source ["RDP"; "RDP Africa"; "Noticiários RDP África"]
          (UStr "http://www.rtp.pt//play/itunes/5442")
          MediaType.NEWS radio PlaybackType.AUDIO (Some ["pt"])
          (img "rdp_africa.png"));
       ("EuroNews PT",
        source euro (yt "https://www.youtube.com/user/euronewspt")
          MediaType.NEWS tv PlaybackType.VIDEO (Some ["pt"])
          (img "euronews.png")) ]);
    ("de",
     [ ("Deutsche Welle",
        source ["DW"; "Deutsche Welle"]
          (yt "https://www.youtube.com/c/dwdeutsch")
          MediaType.NEWS tv PlaybackType.VIDEO None (img "DW.jpg"));
       ("OE3",
        source ["OE3"; "Ö3 Nachrichten"]
          (UStr "https://oe3meta.orf.at/oe3mdata/StaticAudio/Nachrichten.mp3")
          MediaType.NEWS radio PlaybackType.AUDIO None (img "oe3.jpeg"));
       ("DLF",
        source ["DLF"; "deutschlandfunk"]
          (UStr "rss//https://www.deutschlandfunk.de/podcast-nachrichten.1257.de.podcast.xml")
          MediaType.NEWS radio PlaybackType.AUDIO None (img "DLF.png"));
       ("WDR",
        source ["WDR"]
          (UStr "https://www1.wdr.de/mediathek/audio/wdr-aktuell-news/wdr-aktuell-152.podcast")
          MediaType.NEWS radio PlaybackType.AUDIO None (img "WDR.png"));
       ("EuroNews DE",
        source euro (yt "https://www.youtube.com/user/euronewsde")
          MediaType.NEWS tv PlaybackType.VIDEO None (img "euronews.png")) ]);
    ("nl",
     [ ("VRT",
        source ["VRT Nieuws"; "VRT"]
          (UStr "https://progressive-audio.lwc.vrtcdn.be/content/fixed/11_11niws-snip_hi.mp3")
          MediaType.NEWS radio PlaybackType.AUDIO None (img "vrt.png")) ]);
    ("sv",
     [ ("Ekot",
        source ["Ekot"] (UStr "rss//https://api.sr.se/api/rss/pod/3795")
          MediaType.NEWS radio PlaybackType.AUDIO None (img "Ekot.png")) ]);
    ("es",
     [ ("RNE",
        source ["RNE"; "National Spanish Radio"; "Radio Nacional de España"]
          (UStr "rss//http://api.rtve.es/api/programas/36019/audios.rs")
          MediaType.NEWS radio PlaybackType.AUDIO None (img "rne.png"));
       ("France24 ES",
        source ["france 24"]
          (yt "https://www.youtube.com/channel/UCUdOoVWuWmgo1wByzcsyKDQ")
          MediaType.NEWS tv PlaybackType.VIDEO (Some ["fr"])
          (img "FR24_ES.jpg"));
       ("EuroNews ES",
        source euro (yt "https://www.youtube.com/user/euronewses")
          MediaType.NEWS tv PlaybackType.VIDEO None (img "euronews.png"));
       ("Deutsche Welle ES",
        source ["DW"; "Deutsche Welle"]
          (yt "https://www.youtube.com/channel/UCT4Jg8h03dD0iN3Pb5L0PMA")
          MediaType.NEWS tv PlaybackType.VIDEO None (img "DW.jpg")) ]);
    ("ca",
     [ ("CCMA",
        source ["CCMA"; "Catalunya Informació"]
          (UStr "https://de1.api.radio-browser.info/pls/url/69bc7084-523c-11ea-be63-52543be04c81")
          MediaType.NEWS radio PlaybackType.AUDIO (Some ["es"])
          (img "CCMA.png")) ]);
    ("fi",
     [ ("YLE",
        source ["YLE"; "YLE News Radio"]
          (UStr "rss//https://feeds.yle.fi/areena/v1/series/1-1440981.rss")
          MediaType.NEWS radio PlaybackType.AUDIO None (img "Yle.png")) ]);
    ("ru",
     [ ("EuroNews RU",
        source euro (yt "https://www.youtube.com/user/euronewsru")
          MediaType.NEWS tv PlaybackType.VIDEO None (img "euronews.png")) ]);
    ("it",
     [ ("EuroNews IT",
        source euro (yt "https://www.youtube.com/user/euronewsit")
          MediaType.NEWS tv PlaybackType.VIDEO None (img "euronews.png")) ]);
    ("fr",
     [ ("France24",
        source ["france 24"]
          (yt "https://www.youtube.com/channel/UCCCPCZNChQdGa9EkATeye4g")
          MediaType.NEWS tv PlaybackType.VIDEO None (img "FR24.jpg"));
       ("EuroNews FR",
        source euro (yt "https://www.youtube.com/user/euronewsfr")
          MediaType.NEWS tv PlaybackType.VIDEO None (img "euronews.png"));
       ("Russia Today France",
        source ["RT"; "Russia Today"]
          (yt "https://www.youtube.com/channel/UCqEVwTnDzlzKOGYNFemqnYA")
          MediaType.NEWS tv PlaybackType.VIDEO (Some ["ru"])
          (img "RT_FR.jpg")) ]) ].
End CatalogLiteral.

(** ** A host to run the skill on *)

Module ModelHost.
(** Modelled from the spec: the vocabulary files and the host's
    [voc_match], [remove_voc] and [match_one] are not part of the source.
    The spec gives the host "vocMatch(phrase, vocabId) -> bool",
    "removeVoc(phrase, vocabId) -> string" and "fuzzyMatch(phrase,
    candidates, strategy) -> (bestCandidate, score 0..1)", a trigger
    vocabulary per language tag and for the word "news", and the channel
    names "fr24" and "rt" that contain the triggers of "fr" and "ru".
    Here a vocabulary is a list of phrases, a phrase matches when its words
    occur in a row in the utterance, removing deletes those words, and the
    score of an alias is 1 when it is the phrase and 0 otherwise. *)
Definition vocabulary (voc : string) : list string :=
  if decide (voc = "news") then ["news"]
  else if decide (voc = "fr24") then ["france 24"; "fr24"]
  else if decide (voc = "rt") then ["russia today"; "rt"]
  else if decide (voc = "fr") then ["french"; "france"]
  else if decide (voc = "ru") then ["russian"; "russia"]
  else if decide (voc = "de") then ["german"]
  else if decide (voc = "en") then ["english"]
  else if decide (voc = "en-us") then ["american"]
  else if decide (voc = "en-gb") then ["british"]
  else if decide (voc = "en-au") then ["australian"]
  else if decide (voc = "en-ca") then ["canadian"]
  else if decide (voc = "pt-pt") then ["portuguese"]
  else if decide (voc = "es") then ["spanish"]
  else if decide (voc = "ca") then ["catalan"]
  else if decide (voc = "nl") then ["dutch"]
  else if decide (voc = "fi") then ["finnish"]
  else if decide (voc = "sv") then ["swedish"]
  else if decide (voc = "it") then ["italian"]
  else [].

(** The words of an utterance, and an utterance from its words. *)
Fixpoint words_aux (cur : string) (s : string) : list string :=
  match s with
  | EmptyString => [cur]
  | String c s' =>
      if Ascii.eqb c " "%char then cur :: words_aux EmptyString s'
      else words_aux (cur +:+ String c EmptyString) s'
  end.

Definition words (s : string) : list string :=
  filter (fun w => w ≠ EmptyString) (words_aux EmptyString s).

Fixpoint unwords (ws : list string) : string :=
  match ws with
  | [] => EmptyString
  | [w] => w
  | w :: ws' => w +:+ " " +:+ unwords ws'
  end.

Fixpoint starts_with (p ws : list string) : bool :=
  match p, ws with
  | [], _ => true
  | _ :: _, [] => false
  | x :: p', y :: ws' => bool_decide (x = y) && starts_with p' ws'
  end.

Fixpoint occurs (p ws : list string) : bool :=
  match ws with
  | [] => starts_with p []
  | _ :: ws' => starts_with p ws || occurs p ws'
  end.

(** Delete every occurrence of the words [p]; [skip] words of an
    occurrence are still to be dropped. *)
Fixpoint delete_words (p : list string) (skip : nat) (ws : list string) :
  list string :=
  match ws with
  | [] => []
  | x :: ws' =>
      match skip with
      | S n => delete_words p n ws'
      | O =>
          if starts_with p ws then delete_words p (pred (length p)) ws'
          else x :: delete_words p 0 ws'
      end
  end.

(** Modelled from the spec: "vocMatch(phrase, vocabId) -> bool", true when
    a phrase of the vocabulary occurs in the utterance. *)
Definition voc_match (utt voc : string) : bool :=
  existsb (fun p => occurs (words p) (words utt)) (vocabulary voc).

(** Modelled from the spec: "removeVoc(phrase, vocabId) -> string", the
    utterance without the phrases of the vocabulary. *)
Definition remove_voc (utt voc : string) : string :=
  unwords
    (foldl (fun ws p => delete_words (words p) 0 ws) (words utt)
       (vocabulary voc)).

(** Modelled from the spec: a "score 0..1" of one candidate, the float
    1.0 or 0.0. *)
Definition fuzzy_match (x against : string) : spec_float :=
  if decide (x = against) then float_of_int 1 else float_of_int 0.

(** Modelled from the spec: "fuzzyMatch(phrase, candidates, strategy) ->
    (bestCandidate, score 0..1)", the first of the best candidates. *)
Definition match_one (query : string) (choices : list string) :
  string * spec_float :=
  foldl (fun best c =>
           if SFltb best.2 (fuzzy_match query c)
           then (c, fuzzy_match query c) else best)
    (EmptyString, float_of_int (-1)) choices.

(** A skill loaded from the directory [/skill], on a system whose
    language is en-us and whose user chose no default feed;
    [MatchConfidence.AVERAGE] is 50. *)
Definition skill : NewsSkill :=
  mkNewsSkill "en-us" ∅ "/skill/ui/news.png" "/skill/ui/bg.jpg"
    voc_match remove_voc match_one 50.

(** Modelled from the spec: the same host with a matcher that finds the
    "score 0..1" [a] for the first alias, whatever the phrase, and with the
    user's "default_feed" setting [feed]. *)
Definition skill_scoring (a : spec_float) (feed : string) : NewsSkill :=
  mkNewsSkill "en-us" {[ "default_feed" := feed ]} "/skill/ui/news.png"
    "/skill/ui/bg.jpg" voc_match remove_voc
    (fun _ choices => (default EmptyString (head choices), a)) 50.

(** The float 0.3333333333333333, which [SequenceMatcher.ratio] gives
    for one matching character out of three on either side. *)
Definition one_third : spec_float := S754_finite false 6004799503160661 (-54).

Definition catalog : Catalog := lang2news "/skill".

(** A network on which every extractor returns [u], and one on which
    every extractor raises. *)
Definition net_returning (u : option string) : nat -> Resolver -> Outcome :=
  fun _ _ => Returned u.

Definition net_raising : nat -> Resolver -> Outcome := fun _ _ => Raised.

(** A network on which the extractor [bad] raises and the others return
    [u]. *)
Definition net_failing (bad : Resolver) (u : string) :
  nat -> Resolver -> Outcome :=
  fun _ r => if decide (r = bad) then Raised else Returned (Some u).
End ModelHost.

(** ** The helpers in the words of the spec *)

(** The language tags [clean_phrase] removes, in the order of lines
    555-567. *)
Definition stripped_langs : list string :=
  ["pt-pt"; "en-au"; "en-us"; "en-ca"; "en-gb"; "es"; "it"; "fi"; "de"; "sv";
   "nl"; "en"; "ca"].

(** The normalizer of the spec, for a given list of language tags: remove
    the vocabulary of "news"; on a match of "fr24" or "rt" stop there,
    otherwise remove the vocabulary of every tag in turn; trim. *)
Definition spec_clean_phrase (tags : list string) (self : NewsSkill)
  (phrase : string) : string :=
  let p := remove_voc self phrase "news" in
  strip (if voc_match self p "fr24" || voc_match self p "rt" then p
         else foldl (remove_voc self) p tags).

(** The tags [match_lang] has collected before line 610 adds the base
    tags. *)
Definition detected (self : NewsSkill) (phrase : string) : list string :=
  let m := voc_match self phrase in
  append_if (m "ru" && negb (m "rt")) "ru"
    (append_if (m "fr" && negb (m "fr24")) "fr"
       (append_if (m "it") "it"
          (append_if (m "sv") "sv"
             (append_if (m "fi") "fi"
                (append_if (m "nl") "nl"
                   (append_if (m "de") "de"
                      (append_if (m "ca") "ca"
                         (append_if (m "es") "es"
                            (append_if (m "en") "en"
                               (append_if (m "en-ca") "en-ca"
                                  (append_if (m "en-gb") "en-gb"
                                     (append_if (m "en-us") "en-us"
                                        (append_if (m "en-au") "en-au"
                                           (append_if (m "pt-pt") "pt-pt"
                                              [])))))))))))))).

(** Modelled from the spec: "the effective language set intersects the
    source's secondaryLangs", read from the key of the descriptor; a
    source without the key has no secondary language. *)
Definition meets_secondary (eff : list string) (v : Descriptor) : Prop :=
  exists lang sl, lang ∈ eff ∧ secondary_langs v = Some sl ∧ lang ∈ sl.

#[global] Instance meets_secondary_dec eff v : Decision (meets_secondary eff v).
Proof.
  unfold meets_secondary. destruct (secondary_langs v) as [sl|].
  - destruct (decide (Exists (fun lang => lang ∈ sl) eff)) as [H|H].
    + left. apply Exists_exists in H. destruct H as (lang & H1 & H2).
      by exists lang, sl.
    + right. intros (lang & sl' & H1 & [= <-] & H2).
      apply H, Exists_exists. eauto.
  - right. intros (? & ? & ? & [=] & ?).
Defined.

(** Modelled from the spec: the confidence [x] with the language bonus of
    step 6b, for the effective language set [eff], the bucket language [l]
    and the descriptor [v]: "add 20", else "add 10", else "subtract 20". *)
Definition with_lang_bonus (eff : list string) (l : string) (v : Descriptor)
  (x : PyNum) : PyNum :=
  if bool_decide (l ∈ eff) then py_add x (PyInt 20)
  else if bool_decide (meets_secondary eff v) then py_add x (PyInt 10)
       else py_sub x (PyInt 20).

(** Modelled from the spec: the confidence with the default-feed bonus
    of step 6c, "if the source's name is in defaultFeeds, add 30". *)
Definition with_feed_bonus (default_feeds : list string) (k : string)
  (x : PyNum) : PyNum :=
  if bool_decide (k ∈ default_feeds) then py_add x (PyInt 30) else x.

(** Modelled from the spec: the confidence before the adjustments, steps
    2 and 6a, for the alias score [a]: "baseScore" plus "aliasScore * 60". *)
Definition spec_before (media : MediaType.t) (a : spec_float) : PyNum :=
  py_add (PyInt (if bool_decide (media = MediaType.NEWS) then 50 else -20))
    (py_mul (PyFloat a) (PyInt 60)).

(** Modelled from the spec: the confidence after steps 2 and 6a-6d. *)
Definition spec_confidence (media : MediaType.t) (a : spec_float)
  (eff : list string) (default_feeds : list string) (l k : string)
  (v : Descriptor) : PyNum :=
  py_min2
    (with_feed_bonus default_feeds k
       (with_lang_bonus eff l v (spec_before media a)))
    (PyInt 100).

(** ** Views of the loop used in the statements *)

(** The body of the loop for one request. *)
Definition news_body (self : NewsSkill) (phrase : string) (media : MediaType.t) :
  string -> string -> Descriptor -> LoopState -> Descriptor * LoopState :=
  score_source self media (base_score media) (clean_phrase self phrase)
    (effective_langs self (match_lang self phrase))
    (default_feeds_of self (clean_phrase self phrase) (match_lang self phrase)).

(** The descriptor after lines 670-689 of one request. *)
Definition scored (self : NewsSkill) (phrase : string) (media : MediaType.t)
  (l k : string) (v : Descriptor) : Descriptor :=
  score_confidence self (base_score media) (clean_phrase self phrase)
    (effective_langs self (match_lang self phrase))
    (default_feeds_of self (clean_phrase self phrase) (match_lang self phrase))
    l k v.

(** The test of lines 691-693. *)
Definition passes_filter (self : NewsSkill) (media : MediaType.t)
  (v : Descriptor) : bool :=
  confidence_ge v (AVERAGE self) || bool_decide (media = MediaType.NEWS).

(** The sources in the order the two loops visit them. *)
Definition Entry := (Ref * Descriptor)%type.

Definition tag_bucket (l : string) (b : Bucket) : list Entry :=
  (fun kv : string * Descriptor => ((l, kv.1), kv.2)) <$> b.

Fixpoint flatten (cat : Catalog) : list Entry :=
  match cat with
  | [] => []
  | (l, b) :: cat' => tag_bucket l b ++ flatten cat'
  end.

Section Views.
Variable body : string -> string -> Descriptor -> LoopState ->
                Descriptor * LoopState.

(** The two loops as one loop over the flattened catalog. *)
Fixpoint loop_flat (es : list Entry) (st : LoopState) :
  list Entry * LoopState :=
  match es with
  | [] => ([], st)
  | (r, v) :: es' =>
      let '(v', st1) := body r.1 r.2 v st in
      let '(es'', st2) := loop_flat es' st1 in
      ((r, v') :: es'', st2)
  end.

(** The loop state in which the loops reach [lang2news[l][k]]. *)
Fixpoint before_items (l k : string) (b : Bucket) (st : LoopState) :
  option LoopState :=
  match b with
  | [] => None
  | (k', v) :: b' =>
      if decide (k = k') then Some st
      else before_items l k b' (body l k' v st).2
  end.

Fixpoint before_langs (l k : string) (cat : Catalog) (st : LoopState) :
  option LoopState :=
  match cat with
  | [] => None
  | (l', b) :: cat' =>
      if decide (l = l') then before_items l k b st
      else before_langs l k cat' (loop_items body l' b st).2
  end.
End Views.

Definition state_before (self : NewsSkill) (phrase : string)
  (media : MediaType.t) (cat : Catalog) (w : World) (l k : string) :
  option LoopState :=
  before_langs (news_body self phrase media) l k cat (mkLoopState [] [] w).

(** The network [n] with the outcome of call number [t] replaced by [o]. *)
Definition net_with (n : nat -> Resolver -> Outcome) (t : nat) (o : Outcome) :
  nat -> Resolver -> Outcome :=
  fun t' r => if decide (t' = t) then o else n t' r.

(** An outcome after which line 700 finds no uri. *)
Definition empty_return (u : option string) : bool :=
  negb (uri_truthy (uri_of_return u)).

(** What lines 694-704 do to a source that passed the test, case by
    case: the extractor raises; it returns nothing; it returns a uri; the
    uri is a literal; the literal is empty. *)
Inductive Resolution (self : NewsSkill) (l k : string) (v : Descriptor)
  (st : LoopState) : Descriptor * LoopState -> Prop :=
| resolution_raised r :
    uri v = UCallable r ->
    net (world st) (clock (world st)) r = Raised ->
    Resolution self l k v st
      (v, mkLoopState (results st)
            (log st ++ ["stream extraction failed for " +:+ k])
            (tick (world st)))
| resolution_empty r u :
    uri v = UCallable r ->
    net (world st) (clock (world st)) r = Returned u ->
    empty_return u = true ->
    Resolution self l k v st
      (set_uri (uri_of_return u) v,
       mkLoopState (results st) (log st) (tick (world st)))
| resolution_found r s :
    uri v = UCallable r ->
    net (world st) (clock (world st)) r = Returned (Some s) ->
    str_truthy s = true ->
    Resolution self l k v st
      (fill_defaults self k (set_uri (UStr s) v),
       mkLoopState (results st ++ [(l, k)]) (log st) (tick (world st)))
| resolution_literal :
    callable (uri v) = false ->
    uri_truthy (uri v) = true ->
    Resolution self l k v st
      (fill_defaults self k v,
       mkLoopState (results st ++ [(l, k)]) (log st) (world st))
| resolution_no_uri :
    callable (uri v) = false ->
    uri_truthy (uri v) = false ->
    Resolution self l k v st (v, st).

(** The keys a descriptor has at skill load and keeps. *)
Definition same_static (v v' : Descriptor) : Prop :=
  aliases v' = aliases v ∧ media_type v' = media_type v ∧
  match_types v' = match_types v ∧ playback v' = playback v ∧
  secondary_langs v' = secondary_langs v ∧ image v' = image v.

(** Two catalogs with the same languages and the same source names, in the
    same order. *)
Definition same_shape (cat cat' : Catalog) : Prop :=
  Forall2 (fun lb lb' : string * Bucket =>
             lb.1 = lb'.1 ∧ keys lb.2 = keys lb'.2) cat cat'.

(** A turn adds at most its own reference to [results], only adds to the
    log, and only moves the clock forward. *)
Definition grows (body : string -> string -> Descriptor -> LoopState ->
                         Descriptor * LoopState) : Prop :=
  forall l k v st,
    exists dr dl,
      results (body l k v st).2 = results st ++ dr ∧
      (dr = [] ∨ dr = [(l, k)]) ∧
      log (body l k v st).2 = log st ++ dl ∧
      net (world (body l k v st).2) = net (world st) ∧
      (clock (world st) <= clock (world (body l k v st).2))%nat.

(** A reference is appended only for a descriptor that holds a non-empty
    string under "uri" and the three display keys. *)
Definition playable (self : NewsSkill) (v : Descriptor) : Prop :=
  (exists s, uri v = UStr s ∧ s ≠ "") ∧
  is_Some (title v) ∧ is_Some (bg_image v) ∧
  skill_logo v = Some (skill_icon self).

(** ** The stream extractors *)

(** A call into a library: it returns a value or raises. *)
Inductive Exc (A : Type) :=
| Ok (a : A)
| Err.
Arguments Ok {A} a.
Arguments Err {A}.

(** The fields of a [datetime] that [tsf] reads. *)
Record DateTime := mkDateTime {
  year : nat;
  month : nat;
  day : nat;
  hour : nat
}.

Definition is_leap (y : nat) : bool :=
  (y mod 4 =? 0)%nat && (negb (y mod 100 =? 0)%nat || (y mod 400 =? 0)%nat).

Definition days_in_month (y m : nat) : nat :=
  match m with
  | 2 => if is_leap y then 29 else 28
  | 4 | 6 | 9 | 11 => 30
  | _ => 31
  end%nat.

(** [date - timedelta(hours=1)], on the wall clock; [datetime] raises
    OverflowError below year 1. *)
Definition minus_hour (d : DateTime) : Exc DateTime :=
  match hour d with
  | S h => Ok (mkDateTime (year d) (month d) (day d) h)
  | O =>
      match day d with
      | S (S d') => Ok (mkDateTime (year d) (month d) (S d') 23)
      | _ =>
          match month d with
          | S (S m') =>
              Ok (mkDateTime (year d) (S m') (days_in_month (year d) (S m')) 23)
          | _ =>
              match year d with
              | S (S y') => Ok (mkDateTime (S y') 12 31 23)
              | _ => Err
              end
          end
      end
  end.

(** One entry of a parsed feed: ["title"], and the ["href"] of each of
    its ["links"]; a missing key is [None]. *)
Record FeedEntry := mkFeedEntry {
  entry_title : option string;
  entry_links : option (list (option string))
}.

(** What the extractors reach outside the process: the clock read by
    [now_local(timezone('Portugal'))]; [requests.get], with the status code
    and the content of the response; [feedparser.parse(url)['entries']];
    [get_rss_first_stream]; [bytes.decode('utf-8')]. The argument of
    [requests.get] is a string or [None]. *)
Record Web := mkWeb {
  now_local : DateTime;
  requests_get : option string -> Exc (nat * string);
  feedparser_parse : string -> Exc (list FeedEntry);
  get_rss_first_stream : string -> Exc (option string);
  decode_utf8 : string -> Exc string
}.

(** [{:02d}] for a number that is not negative. *)
Definition pad2 (n : nat) : string :=
  if (n <? 10)%nat then "0" +:+ pretty n else pretty n.

(** [sub in s] for two strings. *)
Fixpoint contains (sub s : string) : bool :=
  String.prefix sub s ||
  match s with
  | EmptyString => false
  | String _ s' => contains sub s'
  end.

(** [s] without the prefix [p], when it starts with [p]. *)
Fixpoint strip_prefix (p s : string) : option string :=
  match p, s with
  | EmptyString, _ => Some s
  | String _ _, EmptyString => None
  | String a p', String b s' =>
      if Ascii.eqb a b then strip_prefix p' s' else None
  end.

Definition newline : ascii := "010"%char.
Definition dquote : ascii := "034"%char.
Definition href_open : string := "href=" +:+ String dquote EmptyString.
Definition mp3_close : string := ".mp3" +:+ String dquote EmptyString.

(** The greedy [.+] of the pattern, backing off: the longest [x], possibly
    empty, such that [line] goes on with [x] and then [mp3_close]. *)
Fixpoint mp3_backtrack (line : string) : option string :=
  match line with
  | EmptyString => None
  | String c line' =>
      match mp3_backtrack line' with
      | Some x => Some (String c x)
      | None => if String.prefix mp3_close line then Some EmptyString else None
      end
  end.

(** The group [(?P<mp3>.+\.mp3)] of a match that starts right before
    [rest]: [.] is any byte but the newline, and [.+] takes at least
    one. *)
Definition mp3_group (rest : string) : option string :=
  match split_head newline rest with
  | EmptyString => None
  | String c line' =>
      (fun x => String c x +:+ ".mp3") <$> mp3_backtrack line'
  end.

(** [re.search] of line 56 on [content], and [.group('mp3')] of the
    match: the pattern is [href_open], the group [(?P<mp3>.+\.mp3)] and a
    closing quote, and the match is the leftmost one. *)
Fixpoint re_search_mp3 (content : string) : option string :=
  match content with
  | EmptyString => None
  | String _ content' =>
      match strip_prefix href_open content ≫= mp3_group with
      | Some g => Some g
      | None => re_search_mp3 content'
      end
  end.

Module Fetch.
(** The uri [tsf] builds with [feed.format(...)]. *)
Definition tsf_feed (date : DateTime) : string :=
  "https://www.tsf.pt/stream/audio/" +:+ pretty (year date) +:+ "/" +:+
  pad2 (month date) +:+ "/noticias/" +:+ pad2 (day date) +:+ "/not" +:+
  pad2 (hour date) +:+ ".mp3".

(** The loop of [tsf], lines 31-36, with [n] the turns left ([6 - i]) and
    [sent] the uris requested so far. *)
Fixpoint tsf_while (web : Web) (n : nat) (status : nat) (date : DateTime)
  (uri : option string) (sent : list string) :
  Exc (nat * option string) * list string :=
  match n with
  | O => (Ok (status, uri), sent)
  | S n' =>
      if decide (status = 200%nat) then (Ok (status, uri), sent)
      else
        let u := tsf_feed date in
        match requests_get web (Some u) with
        | Err => (Err, sent ++ [u])
        | Ok (status', _) =>
            match minus_hour date with
            | Err => (Err, sent ++ [u])
            | Ok date' => tsf_while web n' status' date' (Some u) (sent ++ [u])
            end
        end
  end.

(** [tsf], lines 23-39: what it returns or that it raises, and the uris
    it requested. *)
Definition tsf (web : Web) : Outcome * list string :=
  match tsf_while web 6 404 (now_local web) None [] with
  | (Err, sent) => (Raised, sent)
  | (Ok (status, uri), sent) =>
      (if decide (status = 200%nat) then Returned uri else Returned None, sent)
  end.

Definition gpb_feed : string :=
  "http://feeds.feedburner.com/gpbnews/GeorgiaRSS?format=xml".

(** Lines 46-51: [next_link] after the loop over the entries. *)
Fixpoint gpb_next_link (entries : list FeedEntry) : Exc (option string) :=
  match entries with
  | [] => Ok None
  | entry :: entries' =>
      match entry_title entry with
      | None => Err
      | Some t =>
          if contains "GPB" t && contains "Headlines" t then
            match entry_links entry with
            | Some (Some href :: _) => Ok (Some href)
            | _ => Err
            end
          else gpb_next_link entries'
      end
  end.

(** [gpb], lines 42-60. *)
Definition gpb (web : Web) : Outcome :=
  match feedparser_parse web gpb_feed with
  | Err => Raised
  | Ok entries =>
      match gpb_next_link entries with
      | Err => Raised
      | Ok next_link =>
          match requests_get web next_link with
          | Err => Raised
          | Ok (_, content) =>
              match re_search_mp3 content with
              | None => Returned None
              | Some g =>
                  match decode_utf8 web g with
                  | Err => Raised
                  | Ok url => Returned (Some url)
                  end
              end
          end
      end
  end.

Definition npr_url : string := "https://www.npr.org/rss/podcast.php?id=500005".

(** [npr], lines 78-82; without a feed the function ends and returns
    [None]. *)
Definition npr (web : Web) : Outcome :=
  match get_rss_first_stream web npr_url with
  | Err => Raised
  | Ok feed =>
      match feed with
      | Some f =>
          if str_truthy f then Returned (Some (split_head "?"%char f))
          else Returned None
      | None => Returned None
      end
  end.
End Fetch.

(** The hours [tsf] asks for in [n] turns that find nothing: [date] and
    the hours before it, as long as the calendar has them. *)
Fixpoint probe_dates (n : nat) (date : DateTime) : list DateTime :=
  match n with
  | O => []
  | S n' =>
      date ::
      match minus_hour date with
      | Ok date' => probe_dates n' date'
      | Err => []
      end
  end.

(** The status code the site answers for the file of [date], and a uri
    the site answers with another code than 200. *)
Definition status_of (web : Web) (date : DateTime) : nat :=
  match requests_get web (Some (Fetch.tsf_feed date)) with
  | Ok (status, _) => status
  | Err => 0
  end.

Definition refused (web : Web) (u : string) : Prop :=
  exists status content,
    requests_get web (Some u) = Ok (status, content) ∧ status ≠ 200%nat.

(** What the loop keeps: [status] is the answer to the last request, and
    every request before it was refused. *)
Definition tsf_inv (web : Web) (status : nat) (uri : option string)
  (sent : list string) : Prop :=
  match uri with
  | None => sent = [] ∧ status ≠ 200%nat
  | Some u =>
      exists pre content,
        sent = pre ++ [u] ∧
        requests_get web (Some u) = Ok (status, content) ∧
        Forall (refused web) pre
  end.

(** A source for which a request calls an extractor: it passes the test
    of lines 691-693 and holds an extractor under "uri". *)
Definition calls_extractor (self : NewsSkill) (phrase : string)
  (media : MediaType.t) (e : Entry) : bool :=
  passes_filter self media (scored self phrase media e.1.1 e.1.2 e.2) &&
  callable (uri e.2).

(** [v["uri"]()] on a web: the extractor the descriptor holds is run. The
    outcome of [abc] is given. *)
Definition run_extractor (web : Web) (abc_outcome : Outcome) (r : Resolver) :
  Outcome :=
  match r with
  | tsf => (Fetch.tsf web).1
  | gpb => Fetch.gpb web
  | abc => abc_outcome
  | npr => Fetch.npr web
  end.

(** The world of a request during which the web does not change. *)
Definition web_world (web : Web) (abc_outcome : Outcome) : World :=
  mkWorld 0 (fun _ r => run_extractor web abc_outcome r).

(** The tags [match_lang] collects on a match of their vocabulary alone,
    lines 573-598. *)
Definition plain_tags : list string :=
  ["pt-pt"; "en-au"; "en-us"; "en-gb"; "en-ca"; "en"; "es"; "ca"; "de"; "nl";
   "fi"; "sv"; "it"].

(** [s] holds the character [c]. *)
Definition holds_char (c : ascii) (s : string) : Prop :=
  exists a b, s = a +:+ String c b.

(** An entry whose title holds both words [gpb] looks for; an entry that
    has a title without holding both. *)
Definition is_headline (e : FeedEntry) : bool :=
  match entry_title e with
  | Some t => contains "GPB" t && contains "Headlines" t
  | None => false
  end.

Definition other_entry (e : FeedEntry) : Prop :=
  is_Some (entry_title e) ∧ is_headline e = false.

(** A web to run the extractors on. *)
Module ModelWeb.
Definition quoted (s : string) : string :=
  String dquote EmptyString +:+ s +:+ String dquote EmptyString.

(** A page with two links on one line. *)
Definition page : string :=
  "<a href=" +:+ quoted "a.mp3" +:+ ">1</a><a href=" +:+ quoted "b.mp3" +:+ ">".

Definition entries : list FeedEntry :=
  [mkFeedEntry (Some "Political Rewind") (Some [Some "http://gpb/rewind"]);
   mkFeedEntry (Some "GPB Evening Headlines") (Some [Some "http://gpb/evening"]);
   mkFeedEntry (Some "GPB Morning Headlines") (Some [Some "http://gpb/morning"])].

(** At 02:30 on the first of January 2024; the TSF file of 23h is there,
    the later ones are not; [requests.get(None)] raises. *)
Definition web : Web :=
  mkWeb (mkDateTime 2024 1 1 2)
    (fun url =>
       match url with
       | None => Err
       | Some u =>
           if decide (u = "http://gpb/evening") then Ok (200%nat, page)
           else if decide (u = "https://www.tsf.pt/stream/audio/2023/12/noticias/31/not23.mp3")
                then Ok (200%nat, EmptyString)
                else Ok (404%nat, EmptyString)
       end)
    (fun _ => Ok entries)
    (fun _ => Ok (Some "https://npr/newscast.mp3?orgId=1&d=300"))
    (fun b => Ok b).

(** The same web with a feed that has no headlines entry. *)
Definition web_without_headline : Web :=
  mkWeb (now_local web) (requests_get web)
    (fun _ => Ok [mkFeedEntry (Some "Political Rewind")
                    (Some [Some "http://gpb/rewind"])])
    (get_rss_first_stream web) (decode_utf8 web).
End ModelWeb.

(** * Properties *)

(** ** Strings *)

Lemma split_head_idem sep s : split_head sep (split_head sep s) = split_head sep s.
Proof.
  induction s as [|c s IH]; simpl; [done|].
  destruct (Ascii.eqb c sep) eqn:E; simpl; [done|].
  by rewrite E, IH.
Qed.

Lemma base_tag_idem l : base_tag (base_tag l) = base_tag l.
Proof. apply split_head_idem. Qed.

(** ** match_lang *)

Lemma elem_of_append_if x b t (langs : list string) :
  x ∈ append_if b t langs <-> x ∈ langs ∨ (b = true ∧ x = t).
Proof.
  unfold append_if. destruct b.
  - rewrite elem_of_app, list_elem_of_singleton. tauto.
  - split; [tauto|]. intros [H|[H _]]; [exact H | discriminate H].
Qed.

Lemma match_lang_detected self phrase :
  match_lang self phrase = detected self phrase ++ (base_tag <$> detected self phrase).
Proof. reflexivity. Qed.

(** A tag is collected exactly when its own test succeeds. *)
Lemma elem_of_detected self phrase x :
  x ∈ detected self phrase <->
  let m := voc_match self phrase in
  (m "pt-pt" = true ∧ x = "pt-pt") ∨ (m "en-au" = true ∧ x = "en-au") ∨
  (m "en-us" = true ∧ x = "en-us") ∨ (m "en-gb" = true ∧ x = "en-gb") ∨
  (m "en-ca" = true ∧ x = "en-ca") ∨ (m "en" = true ∧ x = "en") ∨
  (m "es" = true ∧ x = "es") ∨ (m "ca" = true ∧ x = "ca") ∨
  (m "de" = true ∧ x = "de") ∨ (m "nl" = true ∧ x = "nl") ∨
  (m "fi" = true ∧ x = "fi") ∨ (m "sv" = true ∧ x = "sv") ∨
  (m "it" = true ∧ x = "it") ∨
  ((m "fr" = true ∧ m "fr24" = false) ∧ x = "fr") ∨
  ((m "ru" = true ∧ m "rt" = false) ∧ x = "ru").
Proof.
  unfold detected. cbv zeta.
  rewrite !elem_of_append_if, elem_of_nil.
  rewrite !andb_true_iff, !negb_true_iff. tauto.
Qed.

Lemma base_tag_detected self phrase x :
  x ∈ detected self phrase ->
  base_tag x = "fr" ∨ base_tag x = "ru" -> base_tag x = x.
Proof.
  rewrite elem_of_detected. cbv zeta.
  intros H Hb.
  repeat (destruct H as [[_ ->]|H];
          [destruct Hb as [Hb|Hb]; (reflexivity || discriminate Hb)|]).
  destruct H as [_ ->]. reflexivity.
Qed.

(** C7. [match_lang] returns "fr" exactly when the phrase matches the
    vocabulary "fr" and not the vocabulary "fr24", and "ru" exactly when it
    matches "ru" and not "rt"; so on a host where "play france 24" matches
    the channel vocabulary "fr24", "fr" is not in the result. *)
Theorem match_lang_collision_rule (self : NewsSkill) (phrase : string) :
  ("fr" ∈ match_lang self phrase <->
     voc_match self phrase "fr" = true ∧ voc_match self phrase "fr24" = false) ∧
  ("ru" ∈ match_lang self phrase <->
     voc_match self phrase "ru" = true ∧ voc_match self phrase "rt" = false) ∧
  (voc_match self "play france 24" "fr24" = true ->
     "fr" ∉ match_lang self "play france 24").
Proof.
  assert (Hfr : forall p, "fr" ∈ match_lang self p <->
            voc_match self p "fr" = true ∧ voc_match self p "fr24" = false).
  { intros p. rewrite match_lang_detected, elem_of_app, list_elem_of_fmap. split.
    - intros [H|(y & Hy & H)].
      + apply elem_of_detected in H. cbv zeta in H.
        repeat (destruct H as [[_ H']|H]; [discriminate H'|]).
        destruct H as [[H _]|[_ H']]; [exact H | discriminate H'].
      + pose proof (base_tag_detected self p y H (or_introl (eq_sym Hy))) as E.
        rewrite E in Hy. subst y.
        apply elem_of_detected in H. cbv zeta in H.
        repeat (destruct H as [[_ H']|H]; [discriminate H'|]).
        destruct H as [[H _]|[_ H']]; [exact H | discriminate H'].
    - intros H. left. apply elem_of_detected. cbv zeta.
      do 13 right. left. done. }
  assert (Hru : forall p, "ru" ∈ match_lang self p <->
            voc_match self p "ru" = true ∧ voc_match self p "rt" = false).
  { intros p. rewrite match_lang_detected, elem_of_app, list_elem_of_fmap. split.
    - intros [H|(y & Hy & H)].
      + apply elem_of_detected in H. cbv zeta in H.
        repeat (destruct H as [[_ H']|H]; [discriminate H'|]).
        destruct H as [H _]. exact H.
      + pose proof (base_tag_detected self p y H (or_intror (eq_sym Hy))) as E.
        rewrite E in Hy. subst y.
        apply elem_of_detected in H. cbv zeta in H.
        repeat (destruct H as [[_ H']|H]; [discriminate H'|]).
        destruct H as [H _]. exact H.
    - intros H. left. apply elem_of_detected. cbv zeta.
      do 14 right. done. }
  split; [apply Hfr|]. split; [apply Hru|].
  intros H24 Hin. apply Hfr in Hin. destruct Hin as [_ Hin]. congruence.
Qed.

Lemma match_lang_collision_rule_witness :
  ModelHost.voc_match "play france 24" "fr" = true ∧
  "fr" ∉ match_lang ModelHost.skill "play france 24".
Proof.
  split; [reflexivity|].
  apply (match_lang_collision_rule ModelHost.skill "play france 24").
  reflexivity.
Defined.

(** C8. Whatever tag [match_lang] returns, it returns the base tag of
    that tag as well: each of the regional tags pt-pt, en-au, en-us, en-gb
    and en-ca comes with pt or en. *)
Theorem match_lang_base_tag (self : NewsSkill) (phrase tag : string) :
  tag ∈ match_lang self phrase ->
  base_tag tag ∈ match_lang self phrase.
Proof.
  rewrite match_lang_detected, !elem_of_app, !list_elem_of_fmap.
  intros [H|(y & -> & H)]; right.
  - by exists tag.
  - exists y. by rewrite base_tag_idem.
Qed.

Lemma match_lang_base_tag_witness :
  "en-us" ∈ match_lang ModelHost.skill "american news" ∧
  "en" ∈ match_lang ModelHost.skill "american news".
Proof.
  assert (H : "en-us" ∈ match_lang ModelHost.skill "american news").
  { vm_compute. left. }
  split; [exact H|].
  exact (match_lang_base_tag ModelHost.skill "american news" "en-us" H).
Defined.

(** ** clean_phrase *)

(** C6, as the code has it. [clean_phrase] removes the vocabulary of
    "news"; when what is left matches the vocabulary "fr24" or "rt" no
    language vocabulary is removed; otherwise the vocabularies of the
    thirteen tags pt-pt, en-au, en-us, en-ca, en-gb, es, it, fi, de, sv, nl,
    en, ca are removed in this order; the result is trimmed, and it can be
    the empty string. *)
Theorem clean_phrase_strips_thirteen (self : NewsSkill) (phrase : string) :
  clean_phrase self phrase = spec_clean_phrase stripped_langs self phrase ∧
  length stripped_langs = 13%nat ∧
  (voc_match self (remove_voc self phrase "news") "fr24" = true ∨
   voc_match self (remove_voc self phrase "news") "rt" = true ->
   clean_phrase self phrase = strip (remove_voc self phrase "news")) ∧
  clean_phrase ModelHost.skill "news" = "".
Proof.
  split; [|split; [reflexivity|split; [|reflexivity]]].
  - unfold clean_phrase, spec_clean_phrase. cbv zeta.
    destruct (voc_match self (remove_voc self phrase "news") "fr24"),
      (voc_match self (remove_voc self phrase "news") "rt"); reflexivity.
  - unfold clean_phrase. cbv zeta.
    intros [-> | ->]; [reflexivity|].
    by rewrite andb_false_r.
Qed.

Lemma clean_phrase_strips_thirteen_witness :
  clean_phrase ModelHost.skill "play rt news" = "play rt".
Proof.
  destruct (clean_phrase_strips_thirteen ModelHost.skill "play rt news")
    as (_ & _ & H & _).
  rewrite H; [reflexivity|]. right. reflexivity.
Defined.

(** C6 as the spec has it fails: "fr" is a language tag of the catalog and
    of [match_lang], "french" is its trigger, and [clean_phrase] leaves
    "french" in place; and it removes thirteen vocabularies, not twelve. *)
Lemma clean_phrase_keeps_french :
  "fr" ∈ keys ModelHost.catalog ∧
  ModelHost.voc_match "french news" "fr" = true ∧
  match_lang ModelHost.skill "french news" = ["fr"; "fr"] ∧
  clean_phrase ModelHost.skill "french news" = "french" ∧
  spec_clean_phrase (keys ModelHost.catalog) ModelHost.skill "french news" = "" ∧
  clean_phrase ModelHost.skill "french news" ≠
    spec_clean_phrase (keys ModelHost.catalog) ModelHost.skill "french news" ∧
  length (keys ModelHost.catalog) = 15%nat ∧
  length stripped_langs ≠ 12%nat.
Proof.
  split; [vm_compute; do 14 right; left|].
  repeat split; try reflexivity; vm_compute; discriminate.
Qed.

(** ** Floats: rounding keeps a result within bounds that are ints *)

(** The operations of [SpecFloat] do not come with lemmas. What the
    scoring needs is that an exact result between two ints, both below
    2^53 in size, is rounded to a float between the same two ints: such a
    float has an exponent of at most 0, every int is a multiple of its unit
    in the last place, and rounding moves to one of the two neighbouring
    multiples. *)
Section FloatBounds.
Local Open Scope Z_scope.

Lemma digits2_pos_lower m : 2 ^ (Zpos (digits2_pos m) - 1) <= Zpos m.
Proof.
  induction m as [m IH|m IH|]; cbn [digits2_pos].
  - rewrite Pos2Z.inj_succ, (Pos2Z.inj_xI m).
    replace (Z.succ (Zpos (digits2_pos m)) - 1)
      with (Z.succ (Zpos (digits2_pos m) - 1)) by lia.
    rewrite Z.pow_succ_r by lia. lia.
  - rewrite Pos2Z.inj_succ, (Pos2Z.inj_xO m).
    replace (Z.succ (Zpos (digits2_pos m)) - 1)
      with (Z.succ (Zpos (digits2_pos m) - 1)) by lia.
    rewrite Z.pow_succ_r by lia. lia.
  - reflexivity.
Qed.

Lemma Zdigits2_le m k : 0 <= m -> 0 <= k -> m < 2 ^ k -> Zdigits2 m <= k.
Proof.
  intros Hm Hk H. destruct m as [|p|p]; simpl; [exact Hk| |lia].
  destruct (Z_le_gt_dec (Zpos (digits2_pos p)) k) as [Hle|Hgt]; [exact Hle|].
  pose proof (digits2_pos_lower p) as Hl.
  assert (2 ^ k <= 2 ^ (Zpos (digits2_pos p) - 1))
    by (apply Z.pow_le_mono_r; lia).
  lia.
Qed.

Lemma shr_1_spec mrs :
  0 <= shr_m mrs ->
  shr_m (shr_1 mrs) = shr_m mrs / 2 ∧
  (no_remainder mrs -> shr_m mrs mod 2 = 0 -> no_remainder (shr_1 mrs)).
Proof.
  unfold no_remainder.
  destruct mrs as [[|[p|p|]|p] r s]; cbn [shr_m shr_r shr_s shr_1]; intros H.
  - split; [reflexivity|]. intros [-> ->] _. done.
  - split; [rewrite (Pos2Z.inj_xI p); Z.div_mod_to_equations; lia|].
    intros _ Hmod. rewrite (Pos2Z.inj_xI p) in Hmod. Z.div_mod_to_equations. lia.
  - split; [rewrite (Pos2Z.inj_xO p); Z.div_mod_to_equations; lia|].
    intros [-> ->] _. done.
  - split; [reflexivity|]. intros _ Hmod. discriminate Hmod.
  - lia.
Qed.

Lemma mod_mul_zero m a b :
  0 < a -> 0 < b -> m mod (a * b) = 0 -> m mod a = 0 ∧ (m / a) mod b = 0.
Proof.
  intros Ha Hb H. rewrite Z.rem_mul_r in H by lia.
  pose proof (Z.mod_pos_bound m a Ha). pose proof (Z.mod_pos_bound (m / a) b Hb).
  nia.
Qed.

Lemma iter_shr_1_spec p :
  forall mrs,
    0 <= shr_m mrs ->
    shr_m (SpecFloat.iter_pos shr_1 p mrs) = shr_m mrs / 2 ^ Zpos p ∧
    (no_remainder mrs -> shr_m mrs mod 2 ^ Zpos p = 0 ->
     no_remainder (SpecFloat.iter_pos shr_1 p mrs)).
Proof.
  induction p as [p IH|p IH|]; intros mrs Hm; cbn [SpecFloat.iter_pos].
  - destruct (shr_1_spec mrs Hm) as [E1 C1].
    assert (H1 : 0 <= shr_m (shr_1 mrs)) by (rewrite E1; apply Z.div_pos; lia).
    destruct (IH _ H1) as [E2 C2].
    assert (H2 : 0 <= shr_m (SpecFloat.iter_pos shr_1 p (shr_1 mrs))).
    { rewrite E2. apply Z.div_pos; [lia|]. apply Z.pow_pos_nonneg; lia. }
    destruct (IH _ H2) as [E3 C3].
    assert (Hp : 0 < 2 ^ Zpos p) by (apply Z.pow_pos_nonneg; lia).
    assert (Epow : 2 ^ Zpos p~1 = 2 * (2 ^ Zpos p * 2 ^ Zpos p)).
    { rewrite (Pos2Z.inj_xI p).
      replace (2 * Zpos p + 1) with (Z.succ (Zpos p + Zpos p)) by lia.
      rewrite Z.pow_succ_r, Z.pow_add_r by lia. reflexivity. }
    split.
    + rewrite E3, E2, E1, Epow, !Z.div_div by lia. reflexivity.
    + intros Hc Hmod. rewrite Epow in Hmod.
      apply mod_mul_zero in Hmod; [|lia|lia]. destruct Hmod as [M1 M2].
      apply mod_mul_zero in M2; [|lia|lia]. destruct M2 as [M2 M3].
      apply C3.
      * apply C2; [by apply C1|]. by rewrite E1.
      * by rewrite E2, E1.
  - destruct (IH _ Hm) as [E2 C2].
    assert (Hp : 0 < 2 ^ Zpos p) by (apply Z.pow_pos_nonneg; lia).
    assert (H2 : 0 <= shr_m (SpecFloat.iter_pos shr_1 p mrs)).
    { rewrite E2. apply Z.div_pos; lia. }
    destruct (IH _ H2) as [E3 C3].
    assert (Epow : 2 ^ Zpos p~0 = 2 ^ Zpos p * 2 ^ Zpos p).
    { rewrite (Pos2Z.inj_xO p).
      replace (2 * Zpos p) with (Zpos p + Zpos p) by lia.
      rewrite Z.pow_add_r by lia. reflexivity. }
    split.
    + rewrite E3, E2, Epow, !Z.div_div by lia. reflexivity.
    + intros Hc Hmod. rewrite Epow in Hmod.
      apply mod_mul_zero in Hmod; [|lia|lia]. destruct Hmod as [M1 M2].
      apply C3; [by apply C2|by rewrite E2].
  - apply shr_1_spec. exact Hm.
Qed.

Lemma shr_record_of_loc_m m l : shr_m (shr_record_of_loc m l) = m.
Proof. by destruct l as [|[| |]]. Qed.

Lemma loc_of_shr_record_of_loc m l :
  loc_of_shr_record (shr_record_of_loc m l) = l.
Proof. by destruct l as [|[| |]]. Qed.

Lemma loc_of_no_remainder mrs : no_remainder mrs -> loc_of_shr_record mrs = loc_Exact.
Proof. destruct mrs as [m r s]. unfold no_remainder. simpl. by intros [-> ->]. Qed.

Lemma shr_fexp_between m e l A B :
  0 <= m -> e <= 0 -> B < 2 ^ 53 ->
  A * 2 ^ (- e) <= m <= B * 2 ^ (- e) ->
  exists mrs e',
    shr_fexp fprec femax m e l = (mrs, e') ∧
    e <= e' <= 0 ∧ 0 <= shr_m mrs ∧
    A * 2 ^ (- e') <= shr_m mrs <= B * 2 ^ (- e') ∧
    (l = loc_Exact -> loc_of_shr_record mrs ≠ loc_Exact ->
     shr_m mrs + 1 <= B * 2 ^ (- e')).
Proof.
  intros Hm He HB Hb. unfold shr_fexp, shr.
  destruct (fexp fprec femax (Zdigits2 m + e) - e) as [|p|p] eqn:En.
  - do 2 eexists. split; [reflexivity|]. rewrite shr_record_of_loc_m.
    split; [lia|]. split; [exact Hm|]. split; [exact Hb|].
    intros -> H. by rewrite loc_of_shr_record_of_loc in H.
  - do 2 eexists. split; [reflexivity|].
    assert (Hd : Zdigits2 m + e <= 53).
    { assert (Zdigits2 m <= 53 - e); [|lia].
      apply Zdigits2_le; [exact Hm|lia|].
      replace (53 - e) with (53 + - e) by lia. rewrite Z.pow_add_r by lia.
      assert (0 < 2 ^ (- e)) by (apply Z.pow_pos_nonneg; lia). nia. }
    assert (He' : e + Zpos p <= 0).
    { unfold fexp, emin, fprec, femax in En. lia. }
    set (X := 2 ^ (- (e + Zpos p))).
    set (P := 2 ^ Zpos p).
    assert (HX : 0 < X) by (apply Z.pow_pos_nonneg; lia).
    assert (HP : 0 < P) by (apply Z.pow_pos_nonneg; lia).
    assert (E : 2 ^ (- e) = X * P).
    { unfold X, P. rewrite <- Z.pow_add_r by lia. f_equal. lia. }
    rewrite E in Hb.
    destruct (iter_shr_1_spec p (shr_record_of_loc m l)) as [Em Hc];
      [by rewrite shr_record_of_loc_m|].
    rewrite shr_record_of_loc_m in Em, Hc. fold P in Em, Hc. rewrite Em.
    split; [lia|].
    split; [apply Z.div_pos; lia|].
    split; [split|].
    + apply Z.div_le_lower_bound; [exact HP|]. lia.
    + apply Z.div_le_upper_bound; [exact HP|]. lia.
    + intros -> Hloc.
      assert (Hmod : m mod P ≠ 0).
      { intros H0. apply Hloc, loc_of_no_remainder, Hc; [done|exact H0]. }
      assert (m / P < B * X); [|lia].
      apply Z.div_lt_upper_bound; [exact HP|].
      destruct (Z.eq_dec m (P * (B * X))) as [->|Hne]; [|lia].
      exfalso. apply Hmod. rewrite Z.mul_comm. apply Z.mod_mul. lia.
  - do 2 eexists. split; [reflexivity|]. rewrite shr_record_of_loc_m.
    split; [lia|]. split; [exact Hm|]. split; [exact Hb|].
    intros -> H. by rewrite loc_of_shr_record_of_loc in H.
Qed.

Lemma binary_round_aux_between (s : bool) m e A B :
  0 <= m -> e <= 0 -> 0 <= A -> B < 2 ^ 53 ->
  A * 2 ^ (- e) <= m <= B * 2 ^ (- e) ->
  float_between (if s then - B else A) (if s then - A else B)
    (binary_round_aux fprec femax s m e loc_Exact).
Proof.
  intros Hm He HA HB Hb. unfold binary_round_aux.
  destruct (shr_fexp_between m e loc_Exact A B Hm He HB Hb)
    as (mrs & e' & E & He' & Hm' & Hb' & Hin).
  rewrite E.
  set (m1 := round_nearest_even (shr_m mrs) (loc_of_shr_record mrs)).
  assert (H1 : 0 <= m1 ∧ A * 2 ^ (- e') <= m1 <= B * 2 ^ (- e')).
  { unfold m1, round_nearest_even.
    destruct (loc_of_shr_record mrs) as [|[| |]] eqn:El; [lia|..].
    - specialize (Hin eq_refl ltac:(discriminate)).
      destruct (Z.even (shr_m mrs)); lia.
    - lia.
    - specialize (Hin eq_refl ltac:(discriminate)). lia. }
  destruct H1 as [Hm1 Hb1].
  destruct (shr_fexp_between m1 e' loc_Exact A B Hm1 ltac:(lia) HB Hb1)
    as (mrs2 & e2 & E2 & He2 & Hm2 & Hb2 & _).
  rewrite E2.
  assert (HX : 0 < 2 ^ (- e2)) by (apply Z.pow_pos_nonneg; lia).
  destruct (shr_m mrs2) as [|q|q] eqn:Eq.
  - simpl. destruct s; nia.
  - assert (Hle : (e2 <=? femax - fprec) = true)
      by (apply Z.leb_le; unfold femax, fprec; lia).
    rewrite Hle. simpl. split; [lia|]. destruct s; simpl; lia.
  - lia.
Qed.

Lemma pos_iter_xO mx d : Zpos (Pos.iter xO mx d) = Zpos mx * 2 ^ Zpos d.
Proof.
  induction d as [|d IH] using Pos.peano_ind.
  - simpl. rewrite (Pos2Z.inj_xO mx). lia.
  - rewrite Pos.iter_succ, (Pos2Z.inj_xO (Pos.iter xO mx d)), IH,
      Pos2Z.inj_succ, Z.pow_succ_r by lia. lia.
Qed.

Lemma shl_align_spec mx ex ex' :
  (shl_align mx ex ex').2 <= ex ∧
  ((shl_align mx ex ex').2 = ex' ∨ ex <= ex') ∧
  Zpos (shl_align mx ex ex').1 = Zpos mx * 2 ^ (ex - (shl_align mx ex ex').2).
Proof.
  unfold shl_align. destruct (ex' - ex) as [|d|d] eqn:E; cbn [fst snd].
  - rewrite Z.sub_diag. simpl. lia.
  - rewrite Z.sub_diag. simpl. lia.
  - split; [lia|]. split; [by left|].
    rewrite pos_iter_xO. f_equal. f_equal. lia.
Qed.

Lemma float_between_weaken L U L' U' f :
  L' <= L -> U <= U' -> float_between L U f -> float_between L' U' f.
Proof.
  intros HL HU. destruct f as [s|s| |s m e]; simpl; try done; [lia|].
  intros [He Hb]. split; [exact He|].
  assert (0 < 2 ^ (- e)) by (apply Z.pow_pos_nonneg; lia). nia.
Qed.

Lemma binary_round_between (s : bool) mx ex A B :
  ex <= 0 -> 0 <= A -> B < 2 ^ 53 ->
  A * 2 ^ (- ex) <= Zpos mx <= B * 2 ^ (- ex) ->
  float_between (if s then - B else A) (if s then - A else B)
    (binary_round fprec femax s mx ex).
Proof.
  intros He HA HB Hb. unfold binary_round.
  destruct (shl_align_spec mx ex
              (fexp fprec femax (Zpos (digits2_pos mx) + ex))) as (H1 & _ & H2).
  destruct (shl_align mx ex _) as [mz ez]. cbn [fst snd] in *.
  apply binary_round_aux_between; [lia|lia|exact HA|exact HB|].
  rewrite H2.
  assert (E : 2 ^ (- ez) = 2 ^ (- ex) * 2 ^ (ex - ez)).
  { rewrite <- Z.pow_add_r by lia. f_equal. lia. }
  rewrite E.
  assert (0 < 2 ^ (ex - ez)) by (apply Z.pow_pos_nonneg; lia). nia.
Qed.

Lemma binary_normalize_between m e L U :
  e <= 0 -> - 2 ^ 53 < L -> U < 2 ^ 53 ->
  L * 2 ^ (- e) <= m <= U * 2 ^ (- e) ->
  float_between L U (binary_normalize fprec femax m e false).
Proof.
  intros He HL HU Hb.
  assert (HX : 0 < 2 ^ (- e)) by (apply Z.pow_pos_nonneg; lia).
  destruct m as [|p|p]; cbn [binary_normalize].
  - simpl. nia.
  - apply (float_between_weaken (Z.max L 0) U); [lia|lia|].
    apply (binary_round_between false); [exact He|lia|exact HU|]. nia.
  - apply (float_between_weaken (- - L) (- Z.max (- U) 0)); [lia|lia|].
    apply (binary_round_between true p e (Z.max (- U) 0) (- L));
      [exact He|lia|lia|]. nia.
Qed.

Lemma float_of_int_between z :
  - 2 ^ 53 < z < 2 ^ 53 ->
  float_between z z (binary_normalize fprec femax z 0 false).
Proof. intros Hz. apply binary_normalize_between; simpl; lia. Qed.

Lemma cond_Zopp_mul s a c : cond_Zopp s (a * c) = cond_Zopp s a * c.
Proof. destruct s; simpl; lia. Qed.

Lemma shl_align_fst mx ex ez :
  ez <= ex -> Zpos (shl_align mx ex ez).1 = Zpos mx * 2 ^ (ex - ez).
Proof.
  intros H. destruct (shl_align_spec mx ex ez) as (H1 & [H2|H2] & H3).
  - by rewrite H3, H2.
  - assert (ez = ex) as -> by lia. clear.
    unfold shl_align. rewrite Z.sub_diag. cbn [fst]. rewrite Z.pow_0_r. lia.
Qed.

Lemma SFadd_between x y L1 U1 L2 U2 :
  float_between L1 U1 x -> float_between L2 U2 y ->
  - 2 ^ 53 < L1 + L2 -> U1 + U2 < 2 ^ 53 ->
  float_between (L1 + L2) (U1 + U2) (SFadd fprec femax x y).
Proof.
  intros Hx Hy HL HU.
  destruct x as [sx|sx| |sx mx ex], y as [sy|sy| |sy my ey];
    cbn [float_between] in Hx, Hy; try contradiction; cbn [SFadd].
  - destruct sx, sy; simpl; lia.
  - apply (float_between_weaken L2 U2); [lia|lia|exact Hy].
  - apply (float_between_weaken L1 U1); [lia|lia|exact Hx].
  - destruct Hx as [Hex Hbx], Hy as [Hey Hby].
    set (ez := Z.min ex ey).
    apply binary_normalize_between; [lia|exact HL|exact HU|].
    rewrite (shl_align_fst mx ex ez), (shl_align_fst my ey ez) by lia.
    rewrite !cond_Zopp_mul.
    assert (Ex : 2 ^ (- ez) = 2 ^ (- ex) * 2 ^ (ex - ez)).
    { rewrite <- Z.pow_add_r by lia. f_equal. lia. }
    assert (Ey : 2 ^ (- ez) = 2 ^ (- ey) * 2 ^ (ey - ez)).
    { rewrite <- Z.pow_add_r by lia. f_equal. lia. }
    assert (0 < 2 ^ (ex - ez)) by (apply Z.pow_pos_nonneg; lia).
    assert (0 < 2 ^ (ey - ez)) by (apply Z.pow_pos_nonneg; lia).
    split.
    + rewrite Z.mul_add_distr_r. rewrite Ex at 1. rewrite Ey. nia.
    + rewrite Z.mul_add_distr_r. rewrite Ex at 1. rewrite Ey. nia.
Qed.

Lemma SFsub_SFadd x y :
  SFsub fprec femax x y = SFadd fprec femax x (SFopp y).
Proof.
  destruct x as [sx|sx| |sx mx ex], y as [sy|sy| |sy my ey];
    try reflexivity; by destruct sx, sy.
Qed.

Lemma SFopp_between L U y : float_between L U y -> float_between (- U) (- L) (SFopp y).
Proof.
  destruct y as [s|s| |s m e]; simpl; try done; [lia|].
  intros [He Hb]. split; [exact He|]. destruct s; simpl in *; lia.
Qed.

Lemma SFsub_between x y L1 U1 L2 U2 :
  float_between L1 U1 x -> float_between L2 U2 y ->
  - 2 ^ 53 < L1 - U2 -> U1 - L2 < 2 ^ 53 ->
  float_between (L1 - U2) (U1 - L2) (SFsub fprec femax x y).
Proof.
  intros Hx Hy HL HU. rewrite SFsub_SFadd.
  apply (SFadd_between x (SFopp y) L1 U1 (- U2) (- L2));
    [exact Hx|by apply SFopp_between|lia|lia].
Qed.

Lemma SFmul_between x y U1 U2 :
  float_between 0 U1 x -> float_between 0 U2 y -> U1 * U2 < 2 ^ 53 ->
  float_between 0 (U1 * U2) (SFmul fprec femax x y).
Proof.
  intros Hx Hy HU.
  destruct x as [sx|sx| |sx mx ex], y as [sy|sy| |sy my ey];
    cbn [float_between] in Hx, Hy; try contradiction; cbn [SFmul].
  - simpl. nia.
  - destruct Hy as [Hey Hby].
    assert (0 < 2 ^ (- ey)) by (apply Z.pow_pos_nonneg; lia). simpl. nia.
  - destruct Hx as [Hex Hbx].
    assert (0 < 2 ^ (- ex)) by (apply Z.pow_pos_nonneg; lia). simpl. nia.
  - destruct Hx as [Hex Hbx], Hy as [Hey Hby].
    assert (0 < 2 ^ (- ex)) by (apply Z.pow_pos_nonneg; lia).
    assert (0 < 2 ^ (- ey)) by (apply Z.pow_pos_nonneg; lia).
    destruct sx; [simpl in Hbx; lia|]. destruct sy; [simpl in Hby; lia|].
    simpl in Hbx, Hby. cbn [xorb].
    apply (binary_round_aux_between false (Zpos (mx * my)) (ex + ey) 0
             (U1 * U2)); [lia|lia|lia|exact HU|].
    rewrite Pos2Z.inj_mul.
    replace (- (ex + ey)) with (- ex + - ey) by lia.
    rewrite Z.pow_add_r by lia. nia.
Qed.

Lemma float_of_int_bounds z :
  - 2 ^ 53 < z < 2 ^ 53 -> float_between z z (float_of_int z).
Proof. apply float_of_int_between. Qed.
End FloatBounds.

(** ** The confidence *)

(** An operation of the floats on a number gives a number: a NaN comes
    from a NaN, or from an infinity. *)
Lemma shr_1_nonneg mrs : (0 <= shr_m mrs)%Z -> (0 <= shr_m (shr_1 mrs))%Z.
Proof. destruct mrs as [[|[p|p|]|[p|p|]] r s]; simpl; lia. Qed.

Lemma iter_pos_shr_1_nonneg p mrs :
  (0 <= shr_m mrs)%Z -> (0 <= shr_m (SpecFloat.iter_pos shr_1 p mrs))%Z.
Proof.
  revert mrs. induction p as [p IH|p IH|]; intros mrs H; simpl.
  - apply IH, IH. by apply shr_1_nonneg.
  - by apply IH, IH.
  - by apply shr_1_nonneg.
Qed.

Lemma shr_fexp_nonneg m e l :
  (0 <= m)%Z -> (0 <= shr_m (shr_fexp fprec femax m e l).1)%Z.
Proof.
  intros Hm. unfold shr_fexp, shr.
  assert (H0 : (0 <= shr_m (shr_record_of_loc m l))%Z)
    by (destruct l as [|[| |]]; exact Hm).
  destruct (_ - e)%Z; simpl; [exact H0| |exact H0].
  by apply iter_pos_shr_1_nonneg.
Qed.

Lemma binary_round_aux_not_nan s m e l :
  (0 <= m)%Z -> binary_round_aux fprec femax s m e l ≠ S754_nan.
Proof.
  intros Hm. unfold binary_round_aux.
  pose proof (shr_fexp_nonneg m e l Hm) as H1.
  destruct (shr_fexp fprec femax m e l) as [mrs' e']. simpl in H1.
  set (m1 := round_nearest_even (shr_m mrs') (loc_of_shr_record mrs')).
  assert (Hm1 : (0 <= m1)%Z).
  { unfold m1, round_nearest_even.
    destruct (loc_of_shr_record mrs') as [|[| |]]; try exact H1.
    - destruct (Z.even (shr_m mrs')); lia.
    - lia. }
  pose proof (shr_fexp_nonneg m1 e' loc_Exact Hm1) as H2.
  destruct (shr_fexp fprec femax m1 e' loc_Exact) as [mrs'' e'']. simpl in H2.
  destruct (shr_m mrs'') as [|p|p]; [discriminate| |lia].
  destruct (e'' <=? femax - fprec)%Z; discriminate.
Qed.

Lemma binary_normalize_not_nan m e sz :
  binary_normalize fprec femax m e sz ≠ S754_nan.
Proof.
  destruct m as [|p|p]; simpl; [discriminate| |];
    unfold binary_round; destruct (shl_align _ _ _) as [mz ez];
    by apply binary_round_aux_not_nan.
Qed.

Lemma SFadd_not_nan x s m e :
  x ≠ S754_nan -> SFadd fprec femax x (S754_finite s m e) ≠ S754_nan.
Proof.
  destruct x as [sx|sx| |sx mx ex]; simpl; try done.
  intros _. apply binary_normalize_not_nan.
Qed.

Lemma SFsub_not_nan x s m e :
  x ≠ S754_nan -> SFsub fprec femax x (S754_finite s m e) ≠ S754_nan.
Proof.
  destruct x as [sx|sx| |sx mx ex]; simpl; try done.
  intros _. apply binary_normalize_not_nan.
Qed.

Lemma SFmul_not_nan x s m e :
  x ≠ S754_nan -> SFmul fprec femax x (S754_finite s m e) ≠ S754_nan.
Proof.
  destruct x as [sx|sx| |sx mx ex]; simpl; try done.
  intros _. by apply binary_round_aux_not_nan.
Qed.

Lemma py_compare_int_None z x :
  py_compare (PyInt z) x = None -> x = PyFloat S754_nan.
Proof.
  destruct x as [b|[s|s| |s m e]]; simpl; try discriminate. reflexivity.
Qed.

(** [min([x, 100])] is never above 100; it is 100 or [x]; and when [x] is
    a number, 100 is at least as large. *)
Lemma py_min2_cap x :
  let c := py_min2 x (PyInt 100) in
  py_lt (PyInt 100) c = false ∧
  (py_lt (PyInt 100) x = false -> c = x) ∧
  (py_lt (PyInt 100) x = true -> c = PyInt 100) ∧
  (x ≠ PyFloat S754_nan -> py_ge (PyInt 100) c = true).
Proof.
  unfold py_min2. destruct (py_lt (PyInt 100) x) eqn:E; cbv zeta.
  - split; [reflexivity|]. split; [discriminate|]. split; reflexivity.
  - split; [exact E|]. split; [reflexivity|]. split; [discriminate|].
    intros Hn. unfold py_lt in E. unfold py_ge.
    destruct (py_compare (PyInt 100) x) as [[| |]|] eqn:Ec;
      try reflexivity; try discriminate E.
    by apply py_compare_int_None in Ec.
Qed.

Lemma SFadd_not_nan_l s m e y :
  y ≠ S754_nan -> SFadd fprec femax (S754_finite s m e) y ≠ S754_nan.
Proof.
  destruct y as [sy|sy| |sy my ey]; simpl; try done.
  intros _. apply binary_normalize_not_nan.
Qed.

(** The steps of lines 672-686 keep a float that is a number a number. *)
Lemma spec_before_not_nan media a :
  a ≠ S754_nan ->
  exists f, spec_before media a = PyFloat f ∧ f ≠ S754_nan.
Proof.
  intros Ha. unfold spec_before. eexists. split; [reflexivity|].
  cbn [py_mul to_float].
  destruct (bool_decide (media = MediaType.NEWS));
    apply SFadd_not_nan_l; by apply SFmul_not_nan.
Qed.

Lemma with_bonus_not_nan eff dfs l k v f :
  f ≠ S754_nan ->
  with_feed_bonus dfs k (with_lang_bonus eff l v (PyFloat f))
    ≠ PyFloat S754_nan.
Proof.
  intros Hf. unfold with_feed_bonus, with_lang_bonus.
  assert (H20 : SFadd fprec femax f (float_of_int 20) ≠ S754_nan)
    by (by apply SFadd_not_nan).
  assert (H10 : SFadd fprec femax f (float_of_int 10) ≠ S754_nan)
    by (by apply SFadd_not_nan).
  assert (Hm20 : SFsub fprec femax f (float_of_int 20) ≠ S754_nan)
    by (by apply SFsub_not_nan).
  assert (H30 : forall g, g ≠ S754_nan ->
                  PyFloat (SFadd fprec femax g (float_of_int 30))
                    ≠ PyFloat S754_nan).
  { intros g Hg [= H]. revert H. by apply SFadd_not_nan. }
  destruct (bool_decide (l ∈ eff));
    [|destruct (bool_decide (meets_secondary eff v))];
    destruct (bool_decide (k ∈ dfs)); cbn [py_add py_sub to_float];
    try (by apply H30); congruence.
Qed.

(** The same bounds for the operators of Python, and what they say in
    Python's own comparisons. *)
Section NumBounds.
Local Open Scope Z_scope.

Lemma num_between_weaken L U L' U' x :
  L' <= L -> U <= U' -> num_between L U x -> num_between L' U' x.
Proof.
  intros HL HU. destruct x as [z|f]; simpl; [lia|].
  by apply float_between_weaken.
Qed.

Lemma to_float_between L U x :
  - 2 ^ 53 < L -> U < 2 ^ 53 -> num_between L U x ->
  float_between L U (to_float x).
Proof.
  intros HL HU. destruct x as [z|f]; simpl; [|done]. intros Hz.
  apply (float_between_weaken z z); [lia|lia|].
  apply float_of_int_bounds. lia.
Qed.

Lemma py_add_between x y L1 U1 L2 U2 :
  num_between L1 U1 x -> num_between L2 U2 y ->
  - 2 ^ 52 < L1 -> U1 < 2 ^ 52 -> - 2 ^ 52 < L2 -> U2 < 2 ^ 52 ->
  num_between (L1 + L2) (U1 + U2) (py_add x y).
Proof.
  intros Hx Hy HL1 HU1 HL2 HU2.
  assert (E : 2 ^ 53 = 2 * 2 ^ 52) by reflexivity.
  assert (Hf : float_between (L1 + L2) (U1 + U2)
                 (SFadd fprec femax (to_float x) (to_float y))).
  { apply SFadd_between; [apply to_float_between; [lia|lia|exact Hx]|
                          apply to_float_between; [lia|lia|exact Hy]|lia|lia]. }
  destruct x as [a|f], y as [b|g]; try exact Hf. simpl in *. lia.
Qed.

Lemma py_sub_between x y L1 U1 L2 U2 :
  num_between L1 U1 x -> num_between L2 U2 y ->
  - 2 ^ 52 < L1 -> U1 < 2 ^ 52 -> - 2 ^ 52 < L2 -> U2 < 2 ^ 52 ->
  num_between (L1 - U2) (U1 - L2) (py_sub x y).
Proof.
  intros Hx Hy HL1 HU1 HL2 HU2.
  assert (E : 2 ^ 53 = 2 * 2 ^ 52) by reflexivity.
  assert (Hf : float_between (L1 - U2) (U1 - L2)
                 (SFsub fprec femax (to_float x) (to_float y))).
  { apply SFsub_between; [apply to_float_between; [lia|lia|exact Hx]|
                          apply to_float_between; [lia|lia|exact Hy]|lia|lia]. }
  destruct x as [a|f], y as [b|g]; try exact Hf. simpl in *. lia.
Qed.

Lemma py_mul_between x y U1 U2 :
  num_between 0 U1 x -> num_between 0 U2 y ->
  U1 < 2 ^ 26 -> U2 < 2 ^ 26 ->
  num_between 0 (U1 * U2) (py_mul x y).
Proof.
  intros Hx Hy HU1 HU2.
  assert (E : 2 ^ 53 = 2 * (2 ^ 26 * 2 ^ 26)) by reflexivity.
  assert (E52 : 2 ^ 26 < 2 ^ 53) by reflexivity.
  assert (H1 : 0 <= U1) by (destruct x as [?|[| | |]]; simpl in Hx;
    try lia; destruct Hx as [He Hb];
    assert (0 < 2 ^ (- e)) by (apply Z.pow_pos_nonneg; lia); nia).
  assert (H2 : 0 <= U2) by (destruct y as [?|[| | |]]; simpl in Hy;
    try lia; destruct Hy as [He Hb];
    assert (0 < 2 ^ (- e)) by (apply Z.pow_pos_nonneg; lia); nia).
  assert (Hf : float_between 0 (U1 * U2)
                 (SFmul fprec femax (to_float x) (to_float y))).
  { apply SFmul_between; [apply to_float_between; [lia|lia|exact Hx]|
                          apply to_float_between; [lia|lia|exact Hy]|nia]. }
  destruct x as [a|f], y as [b|g]; try exact Hf. simpl in *. nia.
Qed.

Ltac compare_cases :=
  rewrite ?Pos2Z.opp_neg, ?Z.opp_0, ?Z.pow_0_r, ?Z.mul_1_r in *;
  repeat match goal with
         | |- context [(?a ?= ?b)%Z] => destruct (Z.compare_spec a b)
         end;
  simpl; try done; try lia.

(** A number between [L] and [U] is [>= L], and [U] is [>=] it. *)
Lemma num_between_ge L U x :
  num_between L U x ->
  py_ge x (PyInt L) = true ∧ py_ge (PyInt U) x = true.
Proof.
  unfold py_ge, py_compare, float_compare_int, num_between, float_between.
  destruct x as [z|[s|s| |s m [|p|p]]]; cbv beta iota; try done;
    intros H; compare_cases.
Qed.

(** A float that Python finds between 0 and 1 has an exponent of at most
    0, however it is written. *)
Lemma float_between_unit a :
  py_ge (PyFloat a) (PyInt 0) = true -> py_ge (PyInt 1) (PyFloat a) = true ->
  float_between 0 1 a.
Proof.
  unfold py_ge, py_compare, float_compare_int, float_between.
  destruct a as [s|s| |s m [|p|p]]; cbv beta iota; try done.
  - by destruct s.
  - compare_cases.
  - assert (2 <= 2 ^ Z.pos p).
    { change 2 with (2 ^ 1) at 1. apply Z.pow_le_mono_r; lia. }
    compare_cases; intros _ _; destruct s; simpl in *; nia.
  - compare_cases.
Qed.

(** What [z < x] says of a number [x] between [L] and [U]. *)
Lemma num_between_lt z L U x :
  num_between L U x ->
  if py_lt (PyInt z) x then z < U else num_between L (Z.min U z) x.
Proof.
  unfold py_lt, py_compare, float_compare_int, num_between, float_between.
  destruct x as [b|[s|s| |s m [|p|p]]]; cbv beta iota; try done;
    intros H;
    try (assert (0 < 2 ^ Z.pos p) by (apply Z.pow_pos_nonneg; lia));
    compare_cases; try nia;
    (split; [lia|]); (split; [lia|]); destruct (Z.min_spec U z); nia.
Qed.

Lemma num_between_below L U T x :
  num_between L U x -> U < T -> py_ge x (PyInt T) = false.
Proof.
  unfold py_ge, py_compare, float_compare_int, num_between, float_between.
  destruct x as [b|[s|s| |s m [|p|p]]]; cbv beta iota; try done;
    intros H HT;
    try (assert (0 < 2 ^ Z.pos p) by (apply Z.pow_pos_nonneg; lia));
    compare_cases; nia.
Qed.

Lemma py_min2_between L U x :
  num_between L U x -> L <= 100 ->
  num_between L (Z.min U 100) (py_min2 x (PyInt 100)).
Proof.
  intros Hx HL. unfold py_min2.
  pose proof (num_between_lt 100 L U x Hx) as H.
  destruct (py_lt (PyInt 100) x); [simpl; lia|exact H].
Qed.

(** The bounds of the scoring, step by step. *)
Lemma spec_before_between media a :
  float_between 0 1 a ->
  let base := if bool_decide (media = MediaType.NEWS) then 50 else -20 in
  num_between base (base + 60) (spec_before media a).
Proof.
  intros Ha base. unfold spec_before. fold base.
  assert (Hm : num_between 0 (1 * 60) (py_mul (PyFloat a) (PyInt 60))).
  { apply py_mul_between; [exact Ha|simpl; lia|reflexivity|reflexivity]. }
  replace base with (base + 0) at 1 by lia.
  apply py_add_between; [simpl; lia|exact Hm| | | |];
    unfold base; destruct (bool_decide _); reflexivity.
Qed.

Lemma with_lang_bonus_between eff l v L U x :
  num_between L U x -> - 2 ^ 52 < L -> U < 2 ^ 52 ->
  num_between (L - 20) (U + 20) (with_lang_bonus eff l v x).
Proof.
  intros Hx HL HU. unfold with_lang_bonus.
  destruct (bool_decide (l ∈ eff));
    [|destruct (bool_decide (meets_secondary eff v))].
  - apply (num_between_weaken (L + 20) (U + 20)); [lia|lia|].
    apply py_add_between; [exact Hx|simpl; lia|lia|lia|reflexivity|reflexivity].
  - apply (num_between_weaken (L + 10) (U + 10)); [lia|lia|].
    apply py_add_between; [exact Hx|simpl; lia|lia|lia|reflexivity|reflexivity].
  - apply (num_between_weaken (L - 20) (U - 20)); [lia|lia|].
    apply py_sub_between; [exact Hx|simpl; lia|lia|lia|reflexivity|reflexivity].
Qed.

Lemma with_feed_bonus_between dfs k L U x :
  num_between L U x -> - 2 ^ 52 < L -> U < 2 ^ 52 ->
  num_between L (U + 30) (with_feed_bonus dfs k x).
Proof.
  intros Hx HL HU. unfold with_feed_bonus.
  destruct (bool_decide (k ∈ dfs)).
  - apply (num_between_weaken (L + 30) (U + 30)); [lia|lia|].
    apply py_add_between; [exact Hx|simpl; lia|lia|lia|reflexivity|reflexivity].
  - apply (num_between_weaken L U); [lia|lia|exact Hx].
Qed.

Lemma spec_confidence_range media a eff dfs l k v :
  float_between 0 1 a ->
  num_between (if bool_decide (media = MediaType.NEWS) then 30 else -40)
    (if bool_decide (media = MediaType.NEWS) then 100 else 90)
    (spec_confidence media a eff dfs l k v).
Proof.
  intros Ha. unfold spec_confidence.
  pose proof (spec_before_between media a Ha) as Hb. cbv zeta in Hb.
  destruct (bool_decide (media = MediaType.NEWS)).
  - apply (with_lang_bonus_between eff l v) in Hb; [|reflexivity..].
    apply (with_feed_bonus_between dfs k) in Hb; [|reflexivity..].
    apply py_min2_between in Hb; [exact Hb|lia].
  - apply (with_lang_bonus_between eff l v) in Hb; [|reflexivity..].
    apply (with_feed_bonus_between dfs k) in Hb; [|reflexivity..].
    apply py_min2_between in Hb; [exact Hb|lia].
Qed.
End NumBounds.

Lemma existsb_secondary (eff : list string) (v : Descriptor) :
  existsb (fun lang => bool_decide (lang ∈ get_secondary_langs v)) eff =
  bool_decide (meets_secondary eff v).
Proof.
  destruct (existsb _ eff) eqn:E; symmetry.
  - apply bool_decide_eq_true_2. apply existsb_exists in E.
    destruct E as (lang & Hin & Hs). apply bool_decide_eq_true_1 in Hs.
    unfold get_secondary_langs in Hs.
    destruct (secondary_langs v) as [sl|] eqn:Es; simpl in Hs.
    + exists lang, sl. split; [by apply list_elem_of_In|done].
    + by apply elem_of_nil in Hs.
  - apply bool_decide_eq_false_2. intros (lang & sl & Hin & Hs & Hl).
    assert (Ht : existsb (fun lang => bool_decide (lang ∈ get_secondary_langs v))
                   eff = true); [|congruence].
    apply existsb_exists. exists lang. split; [by apply list_elem_of_In|].
    apply bool_decide_eq_true_2. unfold get_secondary_langs. by rewrite Hs.
Qed.

(** Lines 670-689 write the confidence and nothing else. *)
Lemma score_confidence_frame self score phrase langs dfs l k v :
  let v' := score_confidence self score phrase langs dfs l k v in
  same_static v v' ∧ uri v' = uri v ∧ title v' = title v ∧
  bg_image v' = bg_image v ∧ skill_logo v' = skill_logo v.
Proof.
  unfold score_confidence, same_static. cbv zeta.
  destruct (bool_decide (l ∈ langs)); [|destruct (existsb _ langs)];
    destruct (bool_decide (k ∈ dfs)); simpl; done.
Qed.

Lemma score_confidence_value self score phrase langs dfs l k v :
  match_confidence (score_confidence self score phrase langs dfs l k v) =
  Some (py_min2
          (with_feed_bonus dfs k
             (with_lang_bonus langs l v
                (py_add (PyInt score)
                   (py_mul (PyFloat (match_one self phrase (aliases v)).2)
                      (PyInt 60)))))
          (PyInt 100)).
Proof.
  unfold score_confidence, with_feed_bonus, with_lang_bonus. cbv zeta.
  assert (Hs : forall c, get_secondary_langs (set_match_confidence c v) =
                         get_secondary_langs v) by done.
  rewrite Hs, existsb_secondary.
  destruct (bool_decide (l ∈ langs));
    [|destruct (bool_decide (meets_secondary langs v))];
    destruct (bool_decide (k ∈ dfs)); reflexivity.
Qed.

(** Lines 691-704 leave the confidence and the keys of the literal alone. *)
Lemma append_result_frame self l k v st :
  let v' := (append_result self l k v st).1 in
  same_static v v' ∧ match_confidence v' = match_confidence v ∧ uri v' = uri v.
Proof.
  unfold append_result, same_static.
  destruct (uri_truthy (uri v)); simpl; done.
Qed.

Lemma resolve_and_append_frame self l k v st :
  let v' := (resolve_and_append self l k v st).1 in
  same_static v v' ∧ match_confidence v' = match_confidence v.
Proof.
  unfold resolve_and_append.
  destruct (uri v) as [s|r|] eqn:Eu.
  - pose proof (append_result_frame self l k v st). simpl in *. tauto.
  - destruct (call r (world st)) as [[|u] w'] eqn:Ec; [done|].
    pose proof (append_result_frame self l k (set_uri (uri_of_return u) v)
                  (mkLoopState (results st) (log st) w')) as H.
    simpl in *. unfold same_static in *. simpl in *. tauto.
  - pose proof (append_result_frame self l k v st). simpl in *. tauto.
Qed.

Lemma score_source_confidence self media score phrase langs dfs l k v st :
  let v' := (score_source self media score phrase langs dfs l k v st).1 in
  same_static v v' ∧
  match_confidence v' =
    match_confidence (score_confidence self score phrase langs dfs l k v).
Proof.
  unfold score_source. cbv zeta.
  pose proof (score_confidence_frame self score phrase langs dfs l k v) as Hf.
  cbv zeta in Hf. destruct Hf as (Hs & _).
  destruct (_ || _).
  - pose proof (resolve_and_append_frame self l k
                  (score_confidence self score phrase langs dfs l k v) st) as H.
    cbv zeta in H. unfold same_static in *. intuition congruence.
  - simpl. done.
Qed.

(** ** The loops keep the keys, and visit every source *)

Section LoopFacts.
Variable body : string -> string -> Descriptor -> LoopState ->
                Descriptor * LoopState.

Lemma loop_items_keys l b st : keys (loop_items body l b st).1 = keys b.
Proof.
  revert st. induction b as [|[k v] b IH]; intros st; simpl; [done|].
  destruct (body l k v st) as [v' st1].
  specialize (IH st1). destruct (loop_items body l b st1) as [b' st2].
  simpl in *. unfold keys in *. simpl. by rewrite IH.
Qed.

Lemma loop_langs_shape cat st : same_shape cat (loop_langs body cat st).1.
Proof.
  revert st. induction cat as [|[l b] cat IH]; intros st; simpl.
  - constructor.
  - pose proof (loop_items_keys l b st) as Hk.
    destruct (loop_items body l b st) as [b' st1].
    specialize (IH st1). destruct (loop_langs body cat st1) as [cat' st2].
    simpl in *. constructor; [by split|exact IH].
Qed.

(** What holds of the descriptor the body returns holds of the
    descriptor found under the same keys after the loops. *)
Variable P : string -> string -> Descriptor -> Descriptor -> Prop.
Hypothesis body_P : forall l k v st, P l k v (body l k v st).1.

Lemma loop_items_assoc l k b st v :
  assoc k b = Some v ->
  exists v', assoc k (loop_items body l b st).1 = Some v' ∧ P l k v v'.
Proof.
  revert st. induction b as [|[k0 v0] b IH]; intros st; simpl; [done|].
  pose proof (body_P l k0 v0 st) as HP.
  destruct (body l k0 v0 st) as [v' st1].
  specialize (IH st1). destruct (loop_items body l b st1) as [b' st2].
  simpl in *. destruct (decide (k = k0)) as [->|Hne].
  - intros [= ->]. eauto.
  - exact IH.
Qed.

Lemma loop_langs_lookup cat st l k v :
  lookup_source cat l k = Some v ->
  exists v', lookup_source (loop_langs body cat st).1 l k = Some v' ∧ P l k v v'.
Proof.
  unfold lookup_source.
  revert st. induction cat as [|[l0 b] cat IH]; intros st; simpl; [done|].
  pose proof (fun v => loop_items_assoc l0 k b st v) as Hb.
  destruct (loop_items body l0 b st) as [b' st1].
  specialize (IH st1). destruct (loop_langs body cat st1) as [cat' st2].
  simpl in *. destruct (decide (l = l0)) as [->|Hne]; simpl.
  - intros Hv. by apply Hb.
  - exact IH.
Qed.
End LoopFacts.

(** ** search_news: the confidence of every source *)

Lemma base_score_value media :
  base_score media =
  if bool_decide (media = MediaType.NEWS) then 50%Z else (-20)%Z.
Proof. unfold base_score. by destruct (bool_decide _). Qed.

Lemma scored_value self phrase media l k v :
  match_confidence (scored self phrase media l k v) =
  Some (spec_confidence media
          (match_one self (clean_phrase self phrase) (aliases v)).2
          (effective_langs self (match_lang self phrase))
          (default_feeds_of self (clean_phrase self phrase)
             (match_lang self phrase)) l k v).
Proof.
  unfold scored, spec_confidence, spec_before.
  by rewrite score_confidence_value, base_score_value.
Qed.

Lemma search_news_confidence self phrase media cat w l k v :
  lookup_source cat l k = Some v ->
  exists v',
    lookup_source (search_news self phrase media cat w).1 l k = Some v' ∧
    same_static v v' ∧
    match_confidence v' =
      Some (spec_confidence media
              (match_one self (clean_phrase self phrase) (aliases v)).2
              (effective_langs self (match_lang self phrase))
              (default_feeds_of self (clean_phrase self phrase)
                 (match_lang self phrase)) l k v).
Proof.
  intros Hv.
  set (P := fun (l k : string) (v v' : Descriptor) =>
         same_static v v' ∧
         match_confidence v' =
           Some (spec_confidence media
                   (match_one self (clean_phrase self phrase) (aliases v)).2
                   (effective_langs self (match_lang self phrase))
                   (default_feeds_of self (clean_phrase self phrase)
                      (match_lang self phrase)) l k v)).
  assert (HP : forall l k v st, P l k v (news_body self phrase media l k v st).1).
  { clear. intros l k v st. unfold news_body.
    pose proof (score_source_confidence self media (base_score media)
      (clean_phrase self phrase) (effective_langs self (match_lang self phrase))
      (default_feeds_of self (clean_phrase self phrase) (match_lang self phrase))
      l k v st) as H.
    cbv zeta in H. destruct H as [Hs Hc]. split; [exact Hs|].
    rewrite Hc. apply scored_value. }
  destruct (loop_langs_lookup _ P HP cat (mkLoopState [] [] w) l k v Hv)
    as (v' & Hl & Hs & Hc).
  by exists v'.
Qed.

(** C1. For every source of the catalog [search_news] writes the
    confidence [min([base + aliasScore * 60 + adjustments, 100])], computed
    as Python computes it, in floats and in this order: [base] is the int 50
    for a NEWS request and -20 otherwise, [aliasScore] is the float
    [match_one] gives the cleaned phrase against the aliases, the product
    and the sum before the adjustments are floats, and the adjustments are
    the language and default-feed bonuses, added one after the other. The
    confidence is never above 100: it is the int 100 when the sum is above
    it and the sum itself otherwise, however low; and 100 is at least as
    large whenever the alias score is a number. For an alias score between
    0 and 1 the float before the adjustments lies between [base] and
    [base + 60]. *)
Theorem search_news_confidence_formula (self : NewsSkill) (phrase : string)
  (media : MediaType.t) (cat : Catalog) (w : World) (l k : string)
  (v : Descriptor) :
  lookup_source cat l k = Some v ->
  let a := (match_one self (clean_phrase self phrase) (aliases v)).2 in
  let base := if bool_decide (media = MediaType.NEWS) then 50%Z else (-20)%Z in
  let before := py_add (PyInt base) (py_mul (PyFloat a) (PyInt 60)) in
  let total :=
    with_feed_bonus
      (default_feeds_of self (clean_phrase self phrase) (match_lang self phrase))
      k
      (with_lang_bonus (effective_langs self (match_lang self phrase)) l v
         before) in
  exists v' c,
    lookup_source (search_news self phrase media cat w).1 l k = Some v' ∧
    match_confidence v' = Some c ∧
    before = PyFloat (SFadd fprec femax (float_of_int base)
                        (SFmul fprec femax a (float_of_int 60))) ∧
    c = py_min2 total (PyInt 100) ∧
    py_lt (PyInt 100) c = false ∧
    (py_lt (PyInt 100) total = false -> c = total) ∧
    (py_lt (PyInt 100) total = true -> c = PyInt 100) ∧
    (a ≠ S754_nan -> py_ge (PyInt 100) c = true) ∧
    (py_ge (PyFloat a) (PyInt 0) = true ->
     py_ge (PyInt 1) (PyFloat a) = true ->
     py_ge before (PyInt base) = true ∧
     py_ge (PyInt (base + 60)) before = true).
Proof.
  intros Hv a base before total.
  destruct (search_news_confidence self phrase media cat w l k v Hv)
    as (v' & Hl & _ & Hc).
  unfold spec_confidence, spec_before in Hc. fold a base before total in Hc.
  exists v', (py_min2 total (PyInt 100)).
  split; [exact Hl|]. split; [exact Hc|]. split; [reflexivity|].
  split; [reflexivity|].
  destruct (py_min2_cap total) as (H1 & H2 & H3 & H4).
  split; [exact H1|]. split; [exact H2|]. split; [exact H3|]. split.
  - intros Ha. apply H4.
    destruct (spec_before_not_nan media a Ha) as (f & Hf & Hn).
    unfold total. change before with (spec_before media a). rewrite Hf.
    by apply with_bonus_not_nan.
  - intros Hge0 Hle1.
    apply (num_between_ge base (base + 60) before).
    exact (spec_before_between media a (float_between_unit a Hge0 Hle1)).
Qed.

(** A vague request to a host whose matcher scores 0.3333333333333333,
    with NPR as the user's default feed: NPR is left at
    ((-20 + 0.3333333333333333 * 60) + 20) + 30, which is the float 50.0
    although the exact product is below 20, and reaches the threshold. The
    Russian EuroNews is left at (-20 + 20.0) - 20 = -20.0, below zero. *)
Lemma search_news_confidence_formula_witness :
  let self := ModelHost.skill_scoring ModelHost.one_third "NPR" in
  let out :=
    search_news self "news" MediaType.GENERIC ModelHost.catalog
      (mkWorld 0 ModelHost.net_raising) in
  (exists v',
     lookup_source out.1 "en-us" "NPR" = Some v' ∧
     match_confidence v' = Some (PyFloat (float_of_int 50)) ∧
     passes_filter self MediaType.GENERIC v' = true) ∧
  (exists v',
     lookup_source out.1 "ru" "EuroNews RU" = Some v' ∧
     match_confidence v' = Some (PyFloat (float_of_int (-20))) ∧
     py_lt (PyFloat (float_of_int (-20))) (PyInt 0) = true).
Proof.
  intros self out. split.
  - destruct (search_news_confidence_formula self "news"
                MediaType.GENERIC ModelHost.catalog
                (mkWorld 0 ModelHost.net_raising) "en-us" "NPR"
                (source ["NPR News"; "NPR"; "National Public Radio";
                         "National Public Radio News"; "NPR News Now"]
                   (UCallable npr) MediaType.NEWS
                   [MediaType.NEWS; MediaType.RADIO] PlaybackType.AUDIO
                   (Some ["en"]) "/skill/ui/images/NPR.png")
                eq_refl)
      as (v' & c & Hl & Hc & _ & Hq & _).
    exists v'. split; [exact Hl|].
    assert (Hv : match_confidence v' = Some (PyFloat (float_of_int 50))).
    { rewrite Hc, Hq. vm_compute. reflexivity. }
    split; [exact Hv|].
    unfold passes_filter, confidence_ge. rewrite Hv. vm_compute. reflexivity.
  - destruct (search_news_confidence_formula self "news"
                MediaType.GENERIC ModelHost.catalog
                (mkWorld 0 ModelHost.net_raising) "ru" "EuroNews RU"
                (source ["euro"; "euronews"; "Euro News"; "european";
                         "european news"]
                   (UStr "youtube.channel.live//https://www.youtube.com/user/euronewsru")
                   MediaType.NEWS [MediaType.VIDEO; MediaType.TV; MediaType.NEWS]
                   PlaybackType.VIDEO None "/skill/ui/images/euronews.png")
                eq_refl)
      as (v' & c & Hl & Hc & _ & Hq & _).
    exists v'. split; [exact Hl|]. split; [|vm_compute; reflexivity].
    rewrite Hc, Hq. vm_compute. reflexivity.
Defined.

(** C2. The languages the bonus is computed against are the detected ones
    when there are any, and otherwise the system language and its base tag.
    Every source gets exactly one of three adjustments of the confidence of
    line 672: 20 is added when its bucket language is among them; 10 is
    added when it is not, but one of them is in the list under the key
    [secondary_langs] of the source; 20 is subtracted when neither holds,
    which includes every source without that key. *)
Theorem search_news_language_bonus (self : NewsSkill) (phrase : string)
  (media : MediaType.t) (cat : Catalog) (w : World) (l k : string)
  (v : Descriptor) :
  lookup_source cat l k = Some v ->
  let langs := match_lang self phrase in
  let eff := effective_langs self langs in
  let a := (match_one self (clean_phrase self phrase) (aliases v)).2 in
  let base := if bool_decide (media = MediaType.NEWS) then 50%Z else (-20)%Z in
  let before := py_add (PyInt base) (py_mul (PyFloat a) (PyInt 60)) in
  let dfs := default_feeds_of self (clean_phrase self phrase) langs in
  (langs ≠ [] -> eff = langs) ∧
  (langs = [] -> eff = [lang self; base_tag (lang self)]) ∧
  exists v' c after,
    lookup_source (search_news self phrase media cat w).1 l k = Some v' ∧
    match_confidence v' = Some c ∧
    c = py_min2 (with_feed_bonus dfs k after) (PyInt 100) ∧
    ((l ∈ eff ∧ after = py_add before (PyInt 20)) ∨
     ((l ∉ eff) ∧
      (exists lang sl,
         lang ∈ eff ∧ secondary_langs v = Some sl ∧ lang ∈ sl) ∧
      after = py_add before (PyInt 10)) ∨
     ((l ∉ eff) ∧
      (forall lang sl,
         lang ∈ eff -> secondary_langs v = Some sl -> lang ∉ sl) ∧
      after = py_sub before (PyInt 20))).
Proof.
  intros Hv langs eff a base before dfs.
  split; [|split].
  - unfold eff, effective_langs. by destruct langs.
  - unfold eff, effective_langs. by intros ->.
  - destruct (search_news_confidence self phrase media cat w l k v Hv)
      as (v' & Hl & _ & Hc).
    unfold spec_confidence, spec_before in Hc.
    fold langs a base before eff dfs in Hc.
    exists v', (py_min2 (with_feed_bonus dfs k (with_lang_bonus eff l v before))
                  (PyInt 100)), (with_lang_bonus eff l v before).
    split; [exact Hl|]. split; [exact Hc|]. split; [reflexivity|].
    unfold with_lang_bonus.
    destruct (bool_decide (l ∈ eff)) eqn:E1.
    + left. split; [by apply bool_decide_eq_true_1 in E1|reflexivity].
    + apply bool_decide_eq_false_1 in E1. right.
      destruct (bool_decide (meets_secondary eff v)) eqn:E2.
      * left. apply bool_decide_eq_true_1 in E2. done.
      * right. apply bool_decide_eq_false_1 in E2.
        split; [exact E1|]. split; [|reflexivity].
        intros lang sl Hin Hs Hsec. apply E2. by exists lang, sl.
Qed.

(** A vague request for "spanish news" detects es. The Catalan CCMA is
    filed under ca and lists es under [secondary_langs]: it gets 10, and is
    left at (-20 + 0.0 * 60) + 10 = -10.0. RNE, filed under es, gets 20 and
    the default-feed bonus; the Dutch VRT, which has no secondary language,
    loses 20. *)
Lemma search_news_language_bonus_witness :
  let out :=
    search_news ModelHost.skill "spanish news" MediaType.GENERIC
      ModelHost.catalog (mkWorld 0 ModelHost.net_raising) in
  effective_langs ModelHost.skill (match_lang ModelHost.skill "spanish news")
    = ["es"; "es"] ∧
  (exists v',
     lookup_source out.1 "ca" "CCMA" = Some v' ∧
     secondary_langs v' = Some ["es"] ∧
     match_confidence v' = Some (PyFloat (float_of_int (-10)))) ∧
  (match_confidence <$> lookup_source out.1 "es" "RNE")
    = Some (Some (PyFloat (float_of_int 30))) ∧
  (match_confidence <$> lookup_source out.1 "nl" "VRT")
    = Some (Some (PyFloat (float_of_int (-40)))).
Proof.
  intros out.
  destruct (search_news_language_bonus ModelHost.skill "spanish news"
              MediaType.GENERIC ModelHost.catalog
              (mkWorld 0 ModelHost.net_raising) "ca" "CCMA"
              (source ["CCMA"; "Catalunya Informació"]
                 (UStr "https://de1.api.radio-browser.info/pls/url/69bc7084-523c-11ea-be63-52543be04c81")
                 MediaType.NEWS [MediaType.NEWS; MediaType.RADIO]
                 PlaybackType.AUDIO (Some ["es"]) "/skill/ui/images/CCMA.png")
              eq_refl)
    as (Heff & _ & v' & c & after & Hl & Hc & Hq & Hb).
  split; [apply Heff; vm_compute; discriminate|].
  split; [|split; vm_compute; reflexivity].
  exists v'. split; [exact Hl|].
  split; [fold out in Hl; vm_compute in Hl; by injection Hl as <-|].
  rewrite Hc, Hq.
  destruct Hb as [[Hin _]|[(_ & _ & ->)|(_ & Hn & _)]].
  - exfalso. vm_compute in Hin.
    repeat (apply elem_of_cons in Hin; destruct Hin as [Hin|Hin];
            [discriminate Hin|]).
    by apply elem_of_nil in Hin.
  - vm_compute. reflexivity.
  - exfalso. apply (Hn "es" ["es"]); [vm_compute; left|reflexivity|left].
Defined.

(** ** The default feeds *)

Lemma langdefaults_truthy lang feed :
  langdefaults !! lang = Some feed -> str_truthy feed = true.
Proof.
  unfold langdefaults. intros H. apply elem_of_list_to_map_2 in H.
  repeat (apply elem_of_cons in H; destruct H as [[= _ ->]|H]; [reflexivity|]).
  by apply elem_of_nil in H.
Qed.

Lemma default_feeds_fold (langs acc : list string) :
  foldl (fun acc lang =>
           match langdefaults !! lang with
           | Some feed => if str_truthy feed then acc ++ [feed] else acc
           | None => acc
           end) acc langs
  = acc ++ omap (fun lang => langdefaults !! lang) langs.
Proof.
  revert acc. induction langs as [|x langs IH]; intros acc; simpl.
  - by rewrite app_nil_r.
  - rewrite IH. destruct (langdefaults !! x) as [feed|] eqn:E; [|done].
    rewrite (langdefaults_truthy x feed E). by rewrite <- app_assoc.
Qed.

(** C3. The list of default feeds is: for an empty cleaned phrase and
    detected languages, the default source of each detected language that
    has one; for an empty cleaned phrase and no detected language, the
    user's [default_feed] setting when it is set; for a non-empty cleaned
    phrase, nothing. A source has 30 added to the confidence it has after
    the language bonus exactly when its name is in that list, and nothing
    is added otherwise. *)
Theorem search_news_default_feed_bonus (self : NewsSkill) (phrase : string)
  (media : MediaType.t) (cat : Catalog) (w : World) :
  let cleaned := clean_phrase self phrase in
  let langs := match_lang self phrase in
  let default_feeds := default_feeds_of self cleaned langs in
  (cleaned = "" -> langs ≠ [] ->
   default_feeds = omap (fun lang => langdefaults !! lang) langs) ∧
  (cleaned = "" -> langs = [] ->
   default_feeds =
     match settings self !! "default_feed" with
     | Some feed => if decide (feed = "") then [] else [feed]
     | None => []
     end) ∧
  (cleaned ≠ "" -> default_feeds = []) ∧
  forall l k v,
    lookup_source cat l k = Some v ->
    let a := (match_one self cleaned (aliases v)).2 in
    let base := if bool_decide (media = MediaType.NEWS) then 50%Z else (-20)%Z in
    let after_lang :=
      with_lang_bonus (effective_langs self langs) l v
        (py_add (PyInt base) (py_mul (PyFloat a) (PyInt 60))) in
    exists v' c total,
      lookup_source (search_news self phrase media cat w).1 l k = Some v' ∧
      match_confidence v' = Some c ∧
      c = py_min2 total (PyInt 100) ∧
      ((k ∈ default_feeds ∧ total = py_add after_lang (PyInt 30)) ∨
       ((k ∉ default_feeds) ∧ total = after_lang)).
Proof.
  intros cleaned langs default_feeds.
  split; [|split; [|split]].
  - intros Hc Hl. unfold default_feeds, default_feeds_of. rewrite Hc. simpl.
    rewrite default_feeds_fold. simpl. by destruct langs.
  - intros Hc Hl. unfold default_feeds, default_feeds_of. rewrite Hc, Hl. simpl.
    destruct (settings self !! "default_feed") as [feed|]; [|done].
    destruct feed; simpl; done.
  - intros Hc. unfold default_feeds, default_feeds_of.
    destruct cleaned; [done|reflexivity].
  - intros l k v Hv a base after_lang.
    destruct (search_news_confidence self phrase media cat w l k v Hv)
      as (v' & Hl & _ & Hc).
    unfold spec_confidence, spec_before in Hc.
    fold cleaned langs default_feeds a base after_lang in Hc.
    exists v', (py_min2 (with_feed_bonus default_feeds k after_lang) (PyInt 100)),
      (with_feed_bonus default_feeds k after_lang).
    split; [exact Hl|]. split; [exact Hc|]. split; [reflexivity|].
    unfold with_feed_bonus. destruct (bool_decide (k ∈ default_feeds)) eqn:E.
    + left. split; [by apply bool_decide_eq_true_1 in E|reflexivity].
    + right. split; [by apply bool_decide_eq_false_1 in E|reflexivity].
Qed.

(** "german news" cleans to the empty phrase and detects de, whose default
    feed is Deutsche Welle: that source gets the bonus and is left at
    ((-20 + 0.0 * 60) + 20) + 30 = 30.0, and WDR, in the same bucket, at
    (-20 + 0.0 * 60) + 20 = 0.0. *)
Lemma search_news_default_feed_bonus_witness :
  let out :=
    search_news ModelHost.skill "german news" MediaType.GENERIC
      ModelHost.catalog (mkWorld 0 ModelHost.net_raising) in
  default_feeds_of ModelHost.skill (clean_phrase ModelHost.skill "german news")
    (match_lang ModelHost.skill "german news")
  = ["Deutsche Welle"; "Deutsche Welle"] ∧
  (exists v',
     lookup_source out.1 "de" "Deutsche Welle" = Some v' ∧
     match_confidence v' = Some (PyFloat (float_of_int 30))) ∧
  (match_confidence <$> lookup_source out.1 "de" "WDR")
    = Some (Some (PyFloat (float_of_int 0))).
Proof.
  intros out.
  destruct (search_news_default_feed_bonus ModelHost.skill "german news"
              MediaType.GENERIC ModelHost.catalog
              (mkWorld 0 ModelHost.net_raising))
    as (Hdf & _ & _ & H).
  split; [rewrite Hdf; [reflexivity|reflexivity|discriminate]|].
  split; [|vm_compute; reflexivity].
  destruct (H "de" "Deutsche Welle"
              (source ["DW"; "Deutsche Welle"]
                 (UStr "youtube.channel.live//https://www.youtube.com/c/dwdeutsch")
                 MediaType.NEWS [MediaType.VIDEO; MediaType.TV; MediaType.NEWS]
                 PlaybackType.VIDEO None "/skill/ui/images/DW.jpg")
              eq_refl)
    as (v' & c & total & Hl & Hc & Hq & Hb).
  exists v'. split; [exact Hl|].
  rewrite Hc, Hq.
  destruct Hb as [[_ ->]|[Hn _]].
  - vm_compute. reflexivity.
  - exfalso. apply Hn. vm_compute. left.
Defined.

(** ** The two loops as one loop *)

Lemma tag_bucket_refs l b r : r ∈ (tag_bucket l b).*1 -> r.1 = l ∧ r.2 ∈ keys b.
Proof.
  unfold tag_bucket, keys. rewrite <- list_fmap_compose.
  intros H. apply list_elem_of_fmap in H. destruct H as ([k v] & -> & H).
  simpl. split; [done|]. apply list_elem_of_fmap. by exists (k, v).
Qed.

Lemma flatten_refs cat r : r ∈ (flatten cat).*1 -> r.1 ∈ keys cat.
Proof.
  induction cat as [|[l b] cat IH]; simpl.
  - intros H. by apply elem_of_nil in H.
  - rewrite fmap_app, elem_of_app. unfold keys in *. simpl.
    rewrite elem_of_cons. intros [H|H].
    + left. apply tag_bucket_refs in H. tauto.
    + right. by apply IH.
Qed.

Section FlatLoop.
Variable body : string -> string -> Descriptor -> LoopState ->
                Descriptor * LoopState.

Lemma loop_flat_app es1 es2 st :
  loop_flat body (es1 ++ es2) st =
  ((loop_flat body es1 st).1 ++
     (loop_flat body es2 (loop_flat body es1 st).2).1,
   (loop_flat body es2 (loop_flat body es1 st).2).2).
Proof.
  revert st. induction es1 as [|[r v] es1 IH]; intros st; simpl.
  - by destruct (loop_flat body es2 st).
  - destruct (body r.1 r.2 v st) as [v' st1]. rewrite IH.
    destruct (loop_flat body es1 st1) as [es1' st2]. simpl.
    by destruct (loop_flat body es2 st2).
Qed.

Lemma loop_flat_cons r v es st :
  loop_flat body ((r, v) :: es) st =
  ((r, (body r.1 r.2 v st).1) ::
     (loop_flat body es (body r.1 r.2 v st).2).1,
   (loop_flat body es (body r.1 r.2 v st).2).2).
Proof.
  simpl. destruct (body r.1 r.2 v st) as [v' st1]. simpl.
  by destruct (loop_flat body es st1).
Qed.

Lemma loop_items_flat l b st :
  tag_bucket l (loop_items body l b st).1 =
    (loop_flat body (tag_bucket l b) st).1 ∧
  (loop_items body l b st).2 = (loop_flat body (tag_bucket l b) st).2.
Proof.
  revert st. induction b as [|[k v] b IH]; intros st; [done|].
  change (tag_bucket l ((k, v) :: b)) with (((l, k), v) :: tag_bucket l b).
  rewrite loop_flat_cons. simpl.
  destruct (body l k v st) as [v' st1]. specialize (IH st1).
  destruct (loop_items body l b st1) as [b' st2]. simpl in *.
  destruct IH as [IH1 IH2]. split; [|exact IH2].
  unfold tag_bucket in *. simpl. by rewrite IH1.
Qed.

Lemma loop_langs_flat cat st :
  flatten (loop_langs body cat st).1 = (loop_flat body (flatten cat) st).1 ∧
  (loop_langs body cat st).2 = (loop_flat body (flatten cat) st).2.
Proof.
  revert st. induction cat as [|[l b] cat IH]; intros st; [done|].
  simpl. rewrite loop_flat_app. simpl.
  destruct (loop_items_flat l b st) as [Hb1 Hb2].
  destruct (loop_items body l b st) as [b' st1]. simpl in *.
  specialize (IH st1). destruct (loop_langs body cat st1) as [cat' st2].
  simpl in *. destruct IH as [IH1 IH2].
  rewrite <- Hb2, <- Hb1, <- IH1, <- IH2. done.
Qed.

(** Where the loops stand when they reach a source. *)
Lemma before_items_split l k b st v :
  assoc k b = Some v ->
  exists bpre bpost,
    b = bpre ++ (k, v) :: bpost ∧ (k ∉ keys bpre) ∧
    before_items body l k b st =
      Some (loop_flat body (tag_bucket l bpre) st).2.
Proof.
  revert st. induction b as [|[k0 v0] b IH]; intros st; simpl; [done|].
  destruct (decide (k = k0)) as [->|Hne].
  - intros [= ->]. exists [], b. split; [done|]. split; [|done].
    apply not_elem_of_nil.
  - intros Hv.
    destruct (IH (body l k0 v0 st).2 Hv) as (bpre & bpost & -> & Hk & Hb).
    exists ((k0, v0) :: bpre), bpost. split; [done|]. split.
    + unfold keys in *. simpl. rewrite not_elem_of_cons. done.
    + rewrite Hb.
      change (tag_bucket l ((k0, v0) :: bpre))
        with (((l, k0), v0) :: tag_bucket l bpre).
      by rewrite loop_flat_cons.
Qed.

Lemma before_langs_split l k cat st v :
  lookup_source cat l k = Some v ->
  exists pre post,
    flatten cat = pre ++ ((l, k), v) :: post ∧ ((l, k) ∉ pre.*1) ∧
    before_langs body l k cat st = Some (loop_flat body pre st).2.
Proof.
  unfold lookup_source.
  revert st. induction cat as [|[l0 b] cat IH]; intros st; simpl; [done|].
  destruct (decide (l = l0)) as [->|Hne]; simpl.
  - intros Hv.
    destruct (before_items_split l0 k b st v Hv)
      as (bpre & bpost & -> & Hk & Hb).
    exists (tag_bucket l0 bpre), (tag_bucket l0 bpost ++ flatten cat).
    split; [|split; [|done]].
    + unfold tag_bucket. rewrite fmap_app. simpl. by rewrite <- app_assoc.
    + intros H. apply tag_bucket_refs in H. simpl in H. tauto.
  - intros Hv.
    destruct (IH (loop_items body l0 b st).2 Hv)
      as (pre & post & Hf & Hk & Hb).
    exists (tag_bucket l0 b ++ pre), post. split; [|split].
    + rewrite Hf. by rewrite <- app_assoc.
    + rewrite fmap_app, elem_of_app. intros [H|H]; [|done].
      apply tag_bucket_refs in H. simpl in H. tauto.
    + rewrite Hb. rewrite loop_flat_app. simpl.
      by destruct (loop_items_flat l0 b st) as [_ ->].
Qed.
End FlatLoop.

(** ** Distinct keys *)

Lemma tag_bucket_NoDup l b : NoDup (keys b) -> NoDup (tag_bucket l b).*1.
Proof.
  unfold tag_bucket, keys. rewrite <- list_fmap_compose.
  induction b as [|[k v] b IH]; simpl; [constructor|].
  rewrite !NoDup_cons. intros [Hk Hb]. split; [|by apply IH].
  intros H. apply Hk. apply list_elem_of_fmap in H.
  destruct H as ([k' v'] & [= ->] & H). apply list_elem_of_fmap. by exists (k', v').
Qed.

Lemma wf_flatten_NoDup cat : wf_catalog cat -> NoDup (flatten cat).*1.
Proof.
  unfold wf_catalog, keys.
  induction cat as [|[l b] cat IH]; simpl; [constructor|].
  rewrite NoDup_cons, Forall_cons. simpl. intros [[Hl Hc] [Hb Hf]].
  rewrite fmap_app. apply NoDup_app. split; [by apply tag_bucket_NoDup|].
  split; [|by apply IH].
  intros r Hr1 Hr2. apply tag_bucket_refs in Hr1. destruct Hr1 as [<- _].
  apply Hl. by apply (flatten_refs cat r).
Qed.

Lemma same_shape_keys cat cat' : same_shape cat cat' -> keys cat' = keys cat.
Proof.
  induction 1 as [|[l b] [l' b'] cat cat' [Hl _] _ IH]; [done|].
  unfold keys in *. simpl in *. f_equal; [by symmetry | exact IH].
Qed.

Lemma same_shape_wf cat cat' : same_shape cat cat' -> wf_catalog cat -> wf_catalog cat'.
Proof.
  intros Hs. pose proof (same_shape_keys _ _ Hs) as Hk.
  unfold wf_catalog. rewrite Hk. intros [Hn Hf]. split; [exact Hn|].
  clear Hk Hn.
  induction Hs as [|[l b] [l' b'] cat cat' [_ Hb] _ IH]; [constructor|].
  apply Forall_cons in Hf. destruct Hf as [Hb0 Hf].
  constructor; [|by apply IH]. simpl in *. by rewrite <- Hb.
Qed.

(** Under distinct keys a source of the flattened catalog is the one the
    lookup finds. *)
Lemma lookup_flatten cat l k v :
  wf_catalog cat -> ((l, k), v) ∈ flatten cat -> lookup_source cat l k = Some v.
Proof.
  unfold wf_catalog, lookup_source, keys.
  induction cat as [|[l0 b] cat IH]; simpl;
    [intros _ H; by apply elem_of_nil in H|].
  rewrite NoDup_cons, Forall_cons. simpl. intros [[Hl Hc] [Hb Hf]].
  rewrite elem_of_app. intros [H|H].
  - unfold tag_bucket in H. apply list_elem_of_fmap in H.
    destruct H as ([k' v'] & [= -> -> ->] & H).
    destruct (decide (l0 = l0)); [simpl|done].
    clear -Hb H. induction b as [|[k1 v1] b IHb]; [by apply elem_of_nil in H|].
    simpl in *. apply NoDup_cons in Hb. destruct Hb as [Hk Hb].
    apply elem_of_cons in H. destruct H as [[= -> ->]|H].
    + by destruct (decide (k1 = k1)).
    + destruct (decide (k' = k1)) as [->|_]; [|by apply IHb].
      exfalso. apply Hk. apply list_elem_of_fmap. by exists (k1, v').
  - destruct (decide (l = l0)) as [->|_]; [|by apply IH].
    exfalso. apply Hl.
    apply (flatten_refs cat (l0, k)). apply list_elem_of_fmap. by exists ((l0, k), v).
Qed.

(** ** One turn of the loop *)

Lemma resolve_and_append_cases self l k v st :
  Resolution self l k v st (resolve_and_append self l k v st).
Proof.
  unfold resolve_and_append, append_result, call.
  destruct (uri v) as [s|r|] eqn:Eu.
  - destruct (uri_truthy (UStr s)) eqn:Et.
    + apply resolution_literal; by rewrite Eu.
    + apply resolution_no_uri; by rewrite Eu.
  - destruct (net (world st) (clock (world st)) r) as [|u] eqn:En.
    + by apply resolution_raised with r.
    + simpl. destruct u as [s|]; simpl.
      * destruct (str_truthy s) eqn:Es.
        -- by apply resolution_found with r.
        -- apply (resolution_empty self l k v st r (Some s)); try done.
           unfold empty_return. simpl. by rewrite Es.
      * by apply (resolution_empty self l k v st r None).
  - apply resolution_no_uri; by rewrite Eu.
Qed.

Lemma score_source_cases self media score phrase langs dfs l k v st :
  let v0 := score_confidence self score phrase langs dfs l k v in
  let out := score_source self media score phrase langs dfs l k v st in
  (passes_filter self media v0 = false ∧ out = (v0, st)) ∨
  (passes_filter self media v0 = true ∧ Resolution self l k v0 st out).
Proof.
  unfold score_source, passes_filter. cbv zeta.
  destruct (_ || _).
  - right. split; [done|]. apply resolve_and_append_cases.
  - left. done.
Qed.

Lemma Resolution_grows self l k v st out :
  Resolution self l k v st out ->
  exists dr dl,
    results out.2 = results st ++ dr ∧ (dr = [] ∨ dr = [(l, k)]) ∧
    log out.2 = log st ++ dl ∧ net (world out.2) = net (world st) ∧
    (clock (world st) <= clock (world out.2))%nat.
Proof.
  destruct 1; simpl.
  - exists [], ["stream extraction failed for " +:+ k].
    rewrite app_nil_r. repeat split; auto.
  - exists [], []. rewrite !app_nil_r. repeat split; auto.
  - exists [(l, k)], []. rewrite !app_nil_r. repeat split; auto.
  - exists [(l, k)], []. rewrite !app_nil_r. repeat split; auto.
  - exists [], []. rewrite !app_nil_r. repeat split; auto.
Qed.

Lemma score_source_grows self media score phrase langs dfs :
  grows (score_source self media score phrase langs dfs).
Proof.
  intros l k v st.
  destruct (score_source_cases self media score phrase langs dfs l k v st)
    as [[_ ->]|[_ H]].
  - exists [], []. simpl. rewrite !app_nil_r. repeat split; auto.
  - by apply Resolution_grows in H.
Qed.

Lemma app_singleton_neq {A} (xs : list A) x : xs ≠ xs ++ [x].
Proof.
  intros H. apply (f_equal length) in H. rewrite length_app in H.
  simpl in H. lia.
Qed.

Lemma fill_defaults_playable self k v s :
  uri v = UStr s -> str_truthy s = true -> playable self (fill_defaults self k v).
Proof.
  intros Hu Hs. unfold playable, fill_defaults. simpl.
  split; [|by eauto].
  exists s. split; [exact Hu|]. intros ->. discriminate Hs.
Qed.

Lemma Resolution_appended self l k v st out :
  Resolution self l k v st out ->
  results out.2 = results st ++ [(l, k)] ->
  playable self out.1.
Proof.
  destruct 1 as [r Hu Hn|r u Hu Hn He|r s Hu Hn Hs|Hc Ht|Hc Ht]; simpl; intros Hr.
  - by apply app_singleton_neq in Hr.
  - by apply app_singleton_neq in Hr.
  - by apply fill_defaults_playable with s.
  - destruct (uri v) as [s| |] eqn:Eu; try discriminate.
    by apply fill_defaults_playable with s.
  - by apply app_singleton_neq in Hr.
Qed.

(** ** The loops, for a body that grows the state *)

Section GrowingLoop.
Variable body : string -> string -> Descriptor -> LoopState ->
                Descriptor * LoopState.
Hypothesis body_grows : grows body.

Lemma loop_flat_grows es st :
  exists dr dl,
    results (loop_flat body es st).2 = results st ++ dr ∧
    (forall x, x ∈ dr -> x ∈ es.*1) ∧
    log (loop_flat body es st).2 = log st ++ dl ∧
    net (world (loop_flat body es st).2) = net (world st) ∧
    (clock (world st) <= clock (world (loop_flat body es st).2))%nat.
Proof.
  revert st. induction es as [|[r v] es IH]; intros st.
  - exists [], []. simpl. rewrite !app_nil_r.
    repeat split; auto; intros x Hx; by apply elem_of_nil in Hx.
  - rewrite loop_flat_cons. simpl.
    destruct (body_grows r.1 r.2 v st) as (dr1 & dl1 & Hr1 & Hd1 & Hl1 & Hn1 & Hc1).
    destruct (IH (body r.1 r.2 v st).2) as (dr2 & dl2 & Hr2 & Hd2 & Hl2 & Hn2 & Hc2).
    exists (dr1 ++ dr2), (dl1 ++ dl2).
    rewrite Hr2, Hr1, Hl2, Hl1, Hn2, Hn1, !app_assoc.
    repeat split; [|lia].
    intros x. rewrite elem_of_app, elem_of_cons.
    intros [Hx|Hx]; [left|right; by apply Hd2].
    destruct Hd1 as [->| ->]; [by apply elem_of_nil in Hx|].
    apply list_elem_of_singleton in Hx. subst x. by destruct r.
Qed.

(** The source under [(l, k)]: the state in which the loops reach it,
    the descriptor they leave under its keys, and whether its reference
    is among the results. *)
Lemma loop_langs_at cat st0 l k v :
  wf_catalog cat ->
  lookup_source cat l k = Some v ->
  exists st,
    before_langs body l k cat st0 = Some st ∧
    net (world st) = net (world st0) ∧
    (clock (world st0) <= clock (world st))%nat ∧
    lookup_source (loop_langs body cat st0).1 l k = Some (body l k v st).1 ∧
    ((l, k) ∈ results st -> (l, k) ∈ results st0) ∧
    ((l, k) ∈ results (loop_langs body cat st0).2 <->
     (l, k) ∈ results (body l k v st).2) ∧
    (forall m, m ∈ log (body l k v st).2 ->
               m ∈ log (loop_langs body cat st0).2).
Proof.
  intros Hwf Hv.
  destruct (before_langs_split body l k cat st0 v Hv)
    as (pre & post & Hf & Hpre & Hb).
  exists (loop_flat body pre st0).2. split; [exact Hb|].
  pose proof (wf_flatten_NoDup cat Hwf) as Hnd.
  rewrite Hf, fmap_app, fmap_cons in Hnd. simpl in Hnd.
  apply NoDup_app in Hnd. destruct Hnd as (_ & _ & Hnd).
  apply NoDup_cons in Hnd. destruct Hnd as [Hpost _].
  destruct (loop_langs_flat body cat st0) as [Hc Hs].
  rewrite Hf in Hc, Hs.
  rewrite loop_flat_app, loop_flat_cons in Hc, Hs. simpl in Hc, Hs.
  set (st := (loop_flat body pre st0).2) in *.
  destruct (loop_flat_grows pre st0) as (dr1 & dl1 & Hr1 & Hd1 & Hl1 & Hn1 & Hc1).
  fold st in Hr1, Hl1, Hn1, Hc1.
  destruct (loop_flat_grows post (body l k v st).2)
    as (dr3 & dl3 & Hr3 & Hd3 & Hl3 & Hn3 & Hc3).
  split; [exact Hn1|]. split; [exact Hc1|]. split; [|split; [|split]].
  - apply lookup_flatten.
    + apply (same_shape_wf cat); [apply loop_langs_shape|exact Hwf].
    + rewrite Hc. rewrite elem_of_app, elem_of_cons. right. by left.
  - rewrite Hr1, elem_of_app. intros [H|H]; [exact H|].
    exfalso. apply Hpre. by apply Hd1.
  - rewrite Hs, Hr3, elem_of_app. split; [|by left].
    intros [H|H]; [exact H|]. exfalso. apply Hpost. by apply Hd3.
  - intros m Hm. rewrite Hs, Hl3, elem_of_app. by left.
Qed.

Lemma loop_langs_results cat st0 r :
  r ∈ results (loop_langs body cat st0).2 ->
  r ∈ results st0 ∨ r ∈ (flatten cat).*1.
Proof.
  destruct (loop_langs_flat body cat st0) as [_ ->].
  destruct (loop_flat_grows (flatten cat) st0) as (dr & dl & -> & Hd & _).
  rewrite elem_of_app. intros [H|H]; [by left|right; by apply Hd].
Qed.
End GrowingLoop.

Lemma flatten_lookup cat r :
  wf_catalog cat -> r ∈ (flatten cat).*1 ->
  exists v, lookup_source cat r.1 r.2 = Some v.
Proof.
  intros Hwf H. apply list_elem_of_fmap in H. destruct H as ([[l k] v] & -> & H).
  exists v. by apply lookup_flatten.
Qed.

(** ** search_news, source by source *)

Lemma news_body_grows self phrase media : grows (news_body self phrase media).
Proof. apply score_source_grows. Qed.

Lemma news_body_cases self phrase media l k v st :
  let v0 := scored self phrase media l k v in
  let out := news_body self phrase media l k v st in
  (passes_filter self media v0 = false ∧ out = (v0, st)) ∨
  (passes_filter self media v0 = true ∧ Resolution self l k v0 st out).
Proof. apply score_source_cases. Qed.

Lemma scored_uri self phrase media l k v :
  uri (scored self phrase media l k v) = uri v.
Proof.
  pose proof (score_confidence_frame self (base_score media)
    (clean_phrase self phrase) (effective_langs self (match_lang self phrase))
    (default_feeds_of self (clean_phrase self phrase) (match_lang self phrase))
    l k v) as H.
  cbv zeta in H. unfold scored. tauto.
Qed.

Lemma search_news_at self phrase media cat w l k v :
  wf_catalog cat ->
  lookup_source cat l k = Some v ->
  exists st,
    state_before self phrase media cat w l k = Some st ∧
    net (world st) = net w ∧
    (clock w <= clock (world st))%nat ∧
    lookup_source (search_news self phrase media cat w).1 l k =
      Some (news_body self phrase media l k v st).1 ∧
    ((l, k) ∈ results (search_news self phrase media cat w).2 <->
     results (news_body self phrase media l k v st).2 = results st ++ [(l, k)]) ∧
    (forall m, m ∈ log (news_body self phrase media l k v st).2 ->
               m ∈ log (search_news self phrase media cat w).2).
Proof.
  intros Hwf Hv.
  destruct (loop_langs_at (news_body self phrase media)
              (news_body_grows self phrase media) cat (mkLoopState [] [] w)
              l k v Hwf Hv)
    as (st & Hb & Hn & Hc & Hl & Hst & Hr & Hlog).
  exists st. split; [exact Hb|]. split; [exact Hn|]. split; [exact Hc|].
  split; [exact Hl|]. split; [|exact Hlog].
  change (search_news self phrase media cat w)
    with (loop_langs (news_body self phrase media) cat (mkLoopState [] [] w)).
  rewrite Hr.
  destruct (news_body_grows self phrase media l k v st)
    as (dr & dl & Hdr & Hd & _).
  rewrite Hdr. split.
  - rewrite elem_of_app. intros [H|H].
    + apply Hst in H. simpl in H. by apply elem_of_nil in H.
    + destruct Hd as [->| ->]; [by apply elem_of_nil in H|done].
  - intros H. apply app_inv_head in H. rewrite H, elem_of_app. right. by left.
Qed.

(** C4. A source whose clamped confidence is below
    [MatchConfidence.AVERAGE] in a request that is not for NEWS is left as
    scored: no extractor is called for it and it is not in the results. A
    source that is at or above the threshold, or any source when the
    request is for NEWS, goes through lines 694-704: its extractor, if it
    has one, is called, and it is in the results exactly when a non-empty
    uri is found. The test compares exact values, a float against the int
    of the threshold: a confidence between two ints passes when the lower
    one reaches the threshold and fails, in a request that is not for NEWS,
    when the upper one is below it. *)
Theorem search_news_inclusion_filter (self : NewsSkill) (phrase : string)
  (media : MediaType.t) (cat : Catalog) (w : World) (l k : string)
  (v : Descriptor) :
  wf_catalog cat ->
  lookup_source cat l k = Some v ->
  let out := search_news self phrase media cat w in
  let v0 := scored self phrase media l k v in
  exists st c,
    state_before self phrase media cat w l k = Some st ∧
    match_confidence v0 = Some c ∧
    (passes_filter self media v0 = true <->
     py_ge c (PyInt (AVERAGE self)) = true ∨ media = MediaType.NEWS) ∧
    (media = MediaType.NEWS -> passes_filter self media v0 = true) ∧
    (forall L U,
       num_between L U c ->
       ((AVERAGE self <= L)%Z -> passes_filter self media v0 = true) ∧
       ((U < AVERAGE self)%Z -> media ≠ MediaType.NEWS ->
        passes_filter self media v0 = false)) ∧
    (passes_filter self media v0 = false ->
     news_body self phrase media l k v st = (v0, st) ∧
     (l, k) ∉ results out.2) ∧
    (passes_filter self media v0 = true ->
     Resolution self l k v0 st (news_body self phrase media l k v st) ∧
     (forall r, uri v = UCallable r ->
                world (news_body self phrase media l k v st).2 = tick (world st)) ∧
     ((l, k) ∈ results out.2 <->
      exists s, uri (news_body self phrase media l k v st).1 = UStr s ∧ s ≠ "")).
Proof.
  intros Hwf Hv out v0.
  destruct (search_news_at self phrase media cat w l k v Hwf Hv)
    as (st & Hb & _ & _ & _ & Hr & _).
  pose proof (scored_value self phrase media l k v) as Hc.
  fold v0 in Hc.
  eexists st, _. split; [exact Hb|]. split; [exact Hc|].
  match goal with
  | |- (_ <-> py_ge ?c0 _ = true ∨ _) ∧ _ => set (c := c0) in *
  end.
  assert (Hpass : passes_filter self media v0 = true <->
                  py_ge c (PyInt (AVERAGE self)) = true ∨
                  media = MediaType.NEWS).
  { unfold passes_filter, confidence_ge. rewrite Hc.
    rewrite orb_true_iff, bool_decide_eq_true. done. }
  split; [exact Hpass|]. split; [intros ->; apply Hpass; by right|].
  split.
  { intros L U Hn. split.
    - intros HL. apply Hpass. left.
      apply (num_between_ge (AVERAGE self) U).
      apply (num_between_weaken L U); [exact HL|reflexivity|exact Hn].
    - intros HU Hm. destruct (passes_filter self media v0) eqn:E; [|done].
      destruct (proj1 Hpass eq_refl) as [E'|E']; [|done].
      rewrite (num_between_below L U _ c Hn HU) in E'. discriminate E'. }
  fold out in Hr.
  destruct (news_body_cases self phrase media l k v st) as [[Hp Ho]|[Hp Ho]];
    fold v0 in Hp, Ho; rewrite Hp.
  - split; [|discriminate]. intros _. split; [exact Ho|].
    rewrite Hr, Ho. simpl. apply app_singleton_neq.
  - split; [discriminate|]. intros _. split; [exact Ho|]. split.
    + intros r Hu. rewrite <- (scored_uri self phrase media l k v) in Hu.
      fold v0 in Hu.
      destruct Ho as [r' Hu' Hn|r' u Hu' Hn He|r' s Hu' Hn Hs|Hcl Ht|Hcl Ht];
        simpl; try reflexivity; by rewrite Hu in Hcl.
    + rewrite Hr. split.
      * intros Happ. by destruct (Resolution_appended _ _ _ _ _ _ Ho Happ) as [? _].
      * intros (s & Hu & Hs).
        destruct Ho as [r' Hu' Hn|r' u Hu' Hn He|r' s' Hu' Hn Hs'|Hcl Ht|Hcl Ht];
          simpl in *; try reflexivity.
        -- congruence.
        -- unfold empty_return in He. rewrite Hu in He. simpl in He.
           destruct s; [done|discriminate].
        -- rewrite Hu in Ht. destruct s; [done|discriminate].
Qed.

(** A vague request for "xyz": the German WDR scores -20 + 0 - 20 = -40
    and is dropped without a look at its uri; the same request for NEWS
    returns it. *)
Lemma search_news_inclusion_filter_witness :
  ("de", "WDR") ∉
    results (search_news ModelHost.skill "xyz" MediaType.GENERIC
               ModelHost.catalog (mkWorld 0 ModelHost.net_raising)).2.
Proof.
  assert (Hwf : wf_catalog ModelHost.catalog).
  { apply (bool_decide_unpack _). vm_compute. exact I. }
  destruct (search_news_inclusion_filter ModelHost.skill "xyz"
              MediaType.GENERIC ModelHost.catalog
              (mkWorld 0 ModelHost.net_raising) "de" "WDR"
              (source ["WDR"]
                 (UStr "https://www1.wdr.de/mediathek/audio/wdr-aktuell-news/wdr-aktuell-152.podcast")
                 MediaType.NEWS [MediaType.NEWS; MediaType.RADIO]
                 PlaybackType.AUDIO None "/skill/ui/images/WDR.png")
              Hwf eq_refl)
    as (st & c & _ & _ & _ & _ & _ & Hno & _).
  apply Hno. reflexivity.
Defined.

Lemma Resolution_appended_iff self l k v st out :
  Resolution self l k v st out ->
  results out.2 = results st ++ [(l, k)] <->
  (callable (uri v) = false ∧ uri_truthy (uri v) = true) ∨
  (exists r s, uri v = UCallable r ∧
     net (world st) (clock (world st)) r = Returned (Some s) ∧
     str_truthy s = true).
Proof.
  destruct 1 as [r Hu Hn|r u Hu Hn He|r s Hu Hn Hs|Hc Ht|Hc Ht]; simpl.
  - split; [intros H; by apply app_singleton_neq in H|].
    intros [[Hc _]|(r' & s & Hu' & Hn' & _)].
    + by rewrite Hu in Hc.
    + congruence.
  - split; [intros H; by apply app_singleton_neq in H|].
    intros [[Hc _]|(r' & s & Hu' & Hn' & Hs)].
    + by rewrite Hu in Hc.
    + assert (r' = r) as -> by congruence.
      assert (u = Some s) as -> by congruence.
      unfold empty_return in He. simpl in He. by rewrite Hs in He.
  - split; [|done]. intros _. right. eauto.
  - split; [|done]. intros _. by left.
  - split; [intros H; by apply app_singleton_neq in H|].
    intros [[_ Ht']|(r' & s & Hu' & _)].
    + congruence.
    + by rewrite Hu' in Hc.
Qed.

Lemma Resolution_uri self l k v st out :
  Resolution self l k v st out ->
  same_static v out.1 ∧ match_confidence out.1 = match_confidence v ∧
  (callable (uri v) = false -> uri out.1 = uri v) ∧
  (forall r, uri v = UCallable r ->
     uri out.1 = UCallable r ∨
     exists u, net (world st) (clock (world st)) r = Returned u ∧
               uri out.1 = uri_of_return u ∧ callable (uri out.1) = false).
Proof.
  destruct 1 as [r Hu Hn|r u Hu Hn He|r s Hu Hn Hs|Hc Ht|Hc Ht];
    unfold same_static; simpl.
  - repeat split; try done. intros r' ?. by left.
  - repeat split; try done.
    + by rewrite Hu.
    + intros r' Hu'. assert (r' = r) as -> by congruence. right.
      exists u. by destruct u.
  - repeat split; try done.
    + by rewrite Hu.
    + intros r' Hu'. assert (r' = r) as -> by congruence. right.
      by exists (Some s).
  - repeat split; try done. intros r Hu. by rewrite Hu in Hc.
  - repeat split; try done. intros r Hu. by rewrite Hu in Hc.
Qed.

(** ** What a call returns *)

(** C10. Every element of the returned list is a descriptor of the
    catalog that holds a non-empty string under "uri" and has "title",
    "bg_image" and "skill_logo" set. A source whose literal uri is empty,
    and a source whose extractor returns nothing, is not in the list,
    whatever its confidence. *)
Theorem search_news_returns_playable (self : NewsSkill) (phrase : string)
  (media : MediaType.t) (cat : Catalog) (w : World) :
  wf_catalog cat ->
  let out := search_news self phrase media cat w in
  Forall (fun o => exists v', o = Some v' ∧ playable self v') (returned out) ∧
  (forall l k v,
     lookup_source cat l k = Some v ->
     callable (uri v) = false -> uri_truthy (uri v) = false ->
     (l, k) ∉ results out.2) ∧
  (forall l k v r st u,
     lookup_source cat l k = Some v ->
     uri v = UCallable r ->
     state_before self phrase media cat w l k = Some st ->
     net w (clock (world st)) r = Returned u ->
     empty_return u = true ->
     (l, k) ∉ results out.2).
Proof.
  intros Hwf out. split; [|split].
  - unfold returned. apply Forall_fmap, Forall_forall. intros [l k] Hr. simpl.
    assert (Hin : (l, k) ∈ (flatten cat).*1).
    { apply (loop_langs_results _ (news_body_grows self phrase media)) in Hr.
      destruct Hr as [Hr|Hr]; [by apply elem_of_nil in Hr|exact Hr]. }
    destruct (flatten_lookup cat (l, k) Hwf Hin) as [v Hv]. simpl in Hv.
    destruct (search_news_at self phrase media cat w l k v Hwf Hv)
      as (st & _ & _ & _ & Hl & Hiff & _).
    fold out in Hl, Hiff. apply Hiff in Hr.
    exists (news_body self phrase media l k v st).1. split; [exact Hl|].
    destruct (news_body_cases self phrase media l k v st) as [[_ Ho]|[_ Ho]].
    + rewrite Ho in Hr. simpl in Hr. by apply app_singleton_neq in Hr.
    + by apply (Resolution_appended _ _ _ _ _ _ Ho).
  - intros l k v Hv Hc Ht.
    destruct (search_news_at self phrase media cat w l k v Hwf Hv)
      as (st & _ & _ & _ & _ & Hiff & _).
    fold out in Hiff. rewrite Hiff.
    destruct (news_body_cases self phrase media l k v st) as [[_ Ho]|[_ Ho]].
    + rewrite Ho. simpl. apply app_singleton_neq.
    + rewrite (Resolution_appended_iff _ _ _ _ _ _ Ho).
      rewrite !scored_uri.
      intros [[_ Ht']|(r & s & Hu & _)]; [congruence|by rewrite Hu in Hc].
  - intros l k v r st u Hv Hu Hst Hn He.
    destruct (search_news_at self phrase media cat w l k v Hwf Hv)
      as (st' & Hst' & Hnet & _ & _ & Hiff & _).
    assert (st' = st) as -> by congruence.
    fold out in Hiff. rewrite Hiff.
    destruct (news_body_cases self phrase media l k v st) as [[_ Ho]|[_ Ho]].
    + rewrite Ho. simpl. apply app_singleton_neq.
    + rewrite (Resolution_appended_iff _ _ _ _ _ _ Ho).
      rewrite !scored_uri, Hnet.
      intros [[Hc _]|(r' & s & Hu' & Hn' & Hs)]; [by rewrite Hu in Hc|].
      assert (r' = r) as -> by congruence.
      assert (u = Some s) as -> by congruence.
      unfold empty_return in He. simpl in He. by rewrite Hs in He.
Qed.

(** A NEWS request on a network where every extractor returns [None]:
    the thirty-two sources with a literal uri are returned, each with a uri
    and the display keys, and GPB, NPR, ABC and TSF are not. *)
Lemma search_news_returns_playable_witness :
  Forall (fun o => exists v', o = Some v' ∧ playable ModelHost.skill v')
    (returned (search_news ModelHost.skill "news" MediaType.NEWS
                 ModelHost.catalog (mkWorld 0 (ModelHost.net_returning None)))) ∧
  length (results (search_news ModelHost.skill "news" MediaType.NEWS
                     ModelHost.catalog
                     (mkWorld 0 (ModelHost.net_returning None))).2) = 32%nat ∧
  ("en-us", "NPR") ∉
    results (search_news ModelHost.skill "news" MediaType.NEWS
               ModelHost.catalog (mkWorld 0 (ModelHost.net_returning None))).2.
Proof.
  assert (Hwf : wf_catalog ModelHost.catalog).
  { apply (bool_decide_unpack _). vm_compute. exact I. }
  destruct (search_news_returns_playable ModelHost.skill "news" MediaType.NEWS
              ModelHost.catalog (mkWorld 0 (ModelHost.net_returning None)) Hwf)
    as (Hall & _ & Hres).
  split; [exact Hall|]. split; [reflexivity|].
  eapply (Hres "en-us" "NPR" _ npr _ None); try reflexivity.
Defined.

(** ** What a call leaves in the catalog *)

Lemma get_or_again x d : get_or (Some (get_or x d)) d = get_or x d.
Proof.
  unfold get_or. destruct x as [t|].
  - destruct (str_truthy t) eqn:E; [by rewrite E|by destruct (str_truthy d)].
  - by destruct (str_truthy d).
Qed.

Lemma fill_defaults_keys self k v :
  title (fill_defaults self k v) = Some (get_or (title v) k) ∧
  bg_image (fill_defaults self k v) =
    Some (get_or (bg_image v) (default_bg self)) ∧
  skill_logo (fill_defaults self k v) = Some (skill_icon self).
Proof. done. Qed.

Lemma search_news_frame self phrase media cat w l k v :
  wf_catalog cat ->
  lookup_source cat l k = Some v ->
  let out := search_news self phrase media cat w in
  exists v',
    lookup_source out.1 l k = Some v' ∧
    same_static v v' ∧
    match_confidence v' = match_confidence (scored self phrase media l k v) ∧
    (callable (uri v) = false -> uri v' = uri v) ∧
    (forall r, uri v = UCallable r ->
       uri v' = UCallable r ∨
       exists t u, net w t r = Returned u ∧ uri v' = uri_of_return u ∧
                   callable (uri v') = false) ∧
    ((l, k) ∈ results out.2 ->
     title v' = Some (get_or (title v) k) ∧
     bg_image v' = Some (get_or (bg_image v) (default_bg self)) ∧
     skill_logo v' = Some (skill_icon self)) ∧
    ((l, k) ∉ results out.2 ->
     title v' = title v ∧ bg_image v' = bg_image v ∧
     skill_logo v' = skill_logo v).
Proof.
  intros Hwf Hv out.
  destruct (search_news_at self phrase media cat w l k v Hwf Hv)
    as (st & _ & Hnet & _ & Hl & Hiff & _).
  fold out in Hl, Hiff.
  exists (news_body self phrase media l k v st).1. split; [exact Hl|].
  pose proof (score_confidence_frame self (base_score media)
    (clean_phrase self phrase) (effective_langs self (match_lang self phrase))
    (default_feeds_of self (clean_phrase self phrase) (match_lang self phrase))
    l k v) as Hf.
  cbv zeta in Hf. fold (scored self phrase media l k v) in Hf.
  destruct Hf as (Hs & Hu & Ht & Hb & Hg).
  set (v0 := scored self phrase media l k v) in *.
  rewrite Hiff.
  destruct (news_body_cases self phrase media l k v st) as [[_ Ho]|[_ Ho]];
    fold v0 in Ho.
  - rewrite Ho. cbn [fst snd]. split; [exact Hs|]. split; [reflexivity|].
    rewrite Hu. split; [done|]. split; [intros r ?; by left|].
    split; [intros H; by apply app_singleton_neq in H|done].
  - destruct (Resolution_uri _ _ _ _ _ _ Ho) as (Hs' & Hc' & Hlit & Hres).
    rewrite Hu in Hlit, Hres. rewrite Hnet in Hres.
    split; [unfold same_static in *; intuition congruence|].
    split; [exact Hc'|]. split; [exact Hlit|]. split.
    { intros r Hr. destruct (Hres r Hr) as [H|(u & Hn & H1 & H2)]; [by left|].
      right. by exists (clock (world st)), u. }
    destruct Ho as [r Hu' Hn|r u Hu' Hn He|r s Hu' Hn Hs1|Hc Hy|Hc Hy];
      cbn [fst snd results].
    + split; [intros H; by apply app_singleton_neq in H|done].
    + split; [intros H; by apply app_singleton_neq in H|done].
    + split; [|done]. intros _.
      destruct (fill_defaults_keys self k (set_uri (UStr s) v0))
        as (H1 & H2 & H3).
      rewrite H1, H2, H3. cbn [title bg_image set_uri]. by rewrite Ht, Hb.
    + split; [|done]. intros _.
      destruct (fill_defaults_keys self k v0) as (H1 & H2 & H3).
      rewrite H1, H2, H3. by rewrite Ht, Hb.
    + split; [intros H; by apply app_singleton_neq in H|done].
Qed.

Lemma results_in_catalog self phrase media cat w l k :
  wf_catalog cat ->
  (l, k) ∈ results (search_news self phrase media cat w).2 ->
  exists v, lookup_source cat l k = Some v.
Proof.
  intros Hwf Hr.
  apply (loop_langs_results _ (news_body_grows self phrase media)) in Hr.
  destruct Hr as [Hr|Hr]; [by apply elem_of_nil in Hr|].
  exact (flatten_lookup cat (l, k) Hwf Hr).
Qed.

(** C9, as the code has it. A call never changes the shape of the
    catalog: the languages, the source names and their order, and under
    every source the aliases, media type, match types, playback, secondary
    languages and image stay as they were; [langdefaults] is a constant.
    The annotations are written into the descriptors of the catalog
    itself and are still there after the call. Every descriptor holds the
    confidence this call computed for it. A uri that is not an extractor
    is never changed, and a uri that is an extractor is either still the
    extractor or has been replaced by what one call of the extractor
    returned. A returned source holds the title, background and logo of
    lines 701-703, and every other source has these keys as before. A later
    call finds all this in the catalog: it overwrites the confidence with
    its own, keeps a uri that is no extractor, and leaves the display keys
    of a source the earlier call returned as that call wrote them. *)
Theorem search_news_writes_in_place (self : NewsSkill) (phrase : string)
  (media : MediaType.t) (cat : Catalog) (w : World) :
  wf_catalog cat ->
  let out := search_news self phrase media cat w in
  same_shape cat out.1 ∧ wf_catalog out.1 ∧
  (forall l k v,
     lookup_source cat l k = Some v ->
     exists v',
       lookup_source out.1 l k = Some v' ∧ same_static v v' ∧
       match_confidence v' =
         Some (spec_confidence media
                 (match_one self (clean_phrase self phrase) (aliases v)).2
                 (effective_langs self (match_lang self phrase))
                 (default_feeds_of self (clean_phrase self phrase)
                    (match_lang self phrase)) l k v) ∧
       (callable (uri v) = false -> uri v' = uri v) ∧
       (forall r, uri v = UCallable r ->
          uri v' = UCallable r ∨
          exists t u, net w t r = Returned u ∧ uri v' = uri_of_return u ∧
                      callable (uri v') = false) ∧
       ((l, k) ∈ results out.2 ->
        title v' = Some (get_or (title v) k) ∧
        bg_image v' = Some (get_or (bg_image v) (default_bg self)) ∧
        skill_logo v' = Some (skill_icon self)) ∧
       ((l, k) ∉ results out.2 ->
        title v' = title v ∧ bg_image v' = bg_image v ∧
        skill_logo v' = skill_logo v)) ∧
  (forall phrase2 media2 w2 l k v',
     lookup_source out.1 l k = Some v' ->
     exists v'',
       lookup_source (search_news self phrase2 media2 out.1 w2).1 l k
         = Some v'' ∧
       match_confidence v'' =
         Some (spec_confidence media2
                 (match_one self (clean_phrase self phrase2) (aliases v')).2
                 (effective_langs self (match_lang self phrase2))
                 (default_feeds_of self (clean_phrase self phrase2)
                    (match_lang self phrase2)) l k v') ∧
       (callable (uri v') = false -> uri v'' = uri v') ∧
       ((l, k) ∈ results out.2 ->
        title v'' = title v' ∧ bg_image v'' = bg_image v' ∧
        skill_logo v'' = skill_logo v')).
Proof.
  intros Hwf out.
  assert (Hshape : same_shape cat out.1) by apply loop_langs_shape.
  assert (Hwf' : wf_catalog out.1) by by apply (same_shape_wf cat).
  split; [exact Hshape|]. split; [exact Hwf'|]. split.
  - intros l k v Hv.
    destruct (search_news_frame self phrase media cat w l k v Hwf Hv)
      as (v' & Hl & Hs & Hc & Hrest).
    exists v'. split; [exact Hl|]. split; [exact Hs|].
    split; [by rewrite Hc, scored_value|exact Hrest].
  - intros phrase2 media2 w2 l k v' Hv'.
    destruct (search_news_frame self phrase2 media2 out.1 w2 l k v' Hwf' Hv')
      as (v'' & Hl & _ & Hc & Hlit & _ & Hin2 & Hout2).
    exists v''. split; [exact Hl|].
    split; [by rewrite Hc, scored_value|]. split; [exact Hlit|].
    intros Hin.
    destruct (results_in_catalog self phrase media cat w l k Hwf Hin)
      as [v Hv].
    destruct (search_news_frame self phrase media cat w l k v Hwf Hv)
      as (v1 & Hl1 & _ & _ & _ & _ & Hin1 & _).
    fold out in Hl1, Hin1. assert (v1 = v') as -> by congruence.
    destruct (Hin1 Hin) as (Ht & Hb & Hg).
    destruct (decide ((l, k) ∈
                results (search_news self phrase2 media2 out.1 w2).2))
      as [H2|H2].
    + destruct (Hin2 H2) as (Ht2 & Hb2 & Hg2).
      rewrite Ht2, Hb2, Hg2, Ht, Hb, Hg, !get_or_again. done.
    + exact (Hout2 H2).
Qed.

(** After a NEWS request on a network where NPR's extractor returns a
    uri, a vague request for "xyz" on a network where every extractor
    raises finds NPR with the uri, title, background and logo of the first
    request, and leaves it at the confidence of the second,
    (-20 + 0.0 * 60) + 20 = 0.0, not at the 100 of the first. *)
Lemma search_news_writes_in_place_witness :
  let first :=
    search_news ModelHost.skill "NPR" MediaType.NEWS ModelHost.catalog
      (mkWorld 0 (ModelHost.net_returning (Some "http://npr/1.mp3"))) in
  let second :=
    search_news ModelHost.skill "xyz" MediaType.GENERIC first.1
      (mkWorld 0 ModelHost.net_raising) in
  (match_confidence <$> lookup_source first.1 "en-us" "NPR")
    = Some (Some (PyInt 100)) ∧
  exists v'',
    lookup_source second.1 "en-us" "NPR" = Some v'' ∧
    match_confidence v'' = Some (PyFloat (float_of_int 0)) ∧
    uri v'' = UStr "http://npr/1.mp3" ∧
    title v'' = Some "NPR" ∧
    bg_image v'' = Some "/skill/ui/bg.jpg" ∧
    skill_logo v'' = Some "/skill/ui/news.png".
Proof.
  intros first second. split; [vm_compute; reflexivity|].
  assert (Hwf : wf_catalog ModelHost.catalog).
  { apply (bool_decide_unpack _). vm_compute. exact I. }
  destruct (search_news_writes_in_place ModelHost.skill "NPR" MediaType.NEWS
              ModelHost.catalog
              (mkWorld 0 (ModelHost.net_returning (Some "http://npr/1.mp3")))
              Hwf)
    as (_ & _ & _ & Hnext).
  fold first in Hnext.
  assert (E : exists v',
             lookup_source first.1 "en-us" "NPR" = Some v' ∧
             uri v' = UStr "http://npr/1.mp3" ∧
             aliases v' = ["NPR News"; "NPR"; "National Public Radio";
                           "National Public Radio News"; "NPR News Now"] ∧
             secondary_langs v' = Some ["en"] ∧
             title v' = Some "NPR" ∧
             bg_image v' = Some "/skill/ui/bg.jpg" ∧
             skill_logo v' = Some "/skill/ui/news.png").
  { eexists. split; [vm_compute; reflexivity|].
    repeat split; vm_compute; reflexivity. }
  destruct E as (v' & E & Eu & Ea & Es & Et & Eb & Eg).
  destruct (Hnext "xyz" MediaType.GENERIC (mkWorld 0 ModelHost.net_raising)
              "en-us" "NPR" v' E) as (v'' & Hl & Hc & Hu & Hkeys).
  fold second in Hl.
  exists v''. split; [exact Hl|].
  split.
  { rewrite Hc. unfold spec_confidence, with_feed_bonus, with_lang_bonus,
      meets_secondary.
    rewrite Ea. vm_compute. reflexivity. }
  split; [rewrite Hu; [exact Eu|rewrite Eu; reflexivity]|].
  destruct Hkeys as (Ht & Hb & Hg).
  - apply (bool_decide_unpack _). vm_compute. exact I.
  - rewrite Ht, Hb, Hg. split; [exact Et|]. split; [exact Eb|exact Eg].
Defined.

(** C9 as the spec has it fails: after one request the descriptor of NPR
    in the catalog is not the one of skill load. It holds a confidence and
    the uri the extractor returned instead of the extractor, and the next
    request returns that uri without a call of any extractor, on a network
    where the extractor would now raise. *)
Lemma search_news_annotations_persist :
  let first :=
    search_news ModelHost.skill "NPR" MediaType.NEWS ModelHost.catalog
      (mkWorld 0 (ModelHost.net_returning (Some "http://npr/1.mp3"))) in
  let second :=
    search_news ModelHost.skill "BBC" MediaType.NEWS first.1
      (mkWorld 0 ModelHost.net_raising) in
  (uri <$> lookup_source ModelHost.catalog "en-us" "NPR") = Some (UCallable npr) ∧
  (uri <$> lookup_source first.1 "en-us" "NPR") = Some (UStr "http://npr/1.mp3") ∧
  (match_confidence <$> lookup_source ModelHost.catalog "en-us" "NPR")
    = Some None ∧
  (match_confidence <$> lookup_source first.1 "en-us" "NPR")
    = Some (Some (PyInt 100)) ∧
  first.1 ≠ ModelHost.catalog ∧
  ("en-us", "NPR") ∈ results second.2 ∧
  (uri <$> lookup_source second.1 "en-us" "NPR") = Some (UStr "http://npr/1.mp3") ∧
  clock (world second.2) = 0%nat ∧
  log second.2 = [].
Proof.
  cbv zeta. repeat split; try (vm_compute; reflexivity).
  - intros H.
    apply (f_equal (fun c => uri <$> lookup_source c "en-us" "NPR")) in H.
    vm_compute in H. discriminate H.
  - vm_compute. do 7 right. left.
Qed.

(** ** Two runs on networks that differ in one call *)

Lemma score_source_calls self media score phrase langs dfs l k v st r :
  uri v = UCallable r ->
  passes_filter self media (score_confidence self score phrase langs dfs l k v)
    = true ->
  clock (world (score_source self media score phrase langs dfs l k v st).2)
    = S (clock (world st)).
Proof.
  intros Hu Hp.
  destruct (score_source_cases self media score phrase langs dfs l k v st)
    as [[Hp' _]|[_ Ho]]; [congruence|].
  pose proof (score_confidence_frame self score phrase langs dfs l k v) as Hf.
  cbv zeta in Hf. destruct Hf as (_ & Hu0 & _). rewrite <- Hu0 in Hu.
  destruct Ho as [r' Hu' Hn|r' u Hu' Hn He|r' s Hu' Hn Hs|Hcl Ht|Hcl Ht];
    simpl; try reflexivity; by rewrite Hu in Hcl.
Qed.

(** A turn depends on the loop state only through the outcome of the call
    it makes, if it makes one. *)
Lemma score_source_agree self media score phrase langs dfs l k v st1 st2 :
  clock (world st1) = clock (world st2) ->
  (forall r,
     uri v = UCallable r ->
     passes_filter self media (score_confidence self score phrase langs dfs l k v)
       = true ->
     net (world st1) (clock (world st1)) r =
     net (world st2) (clock (world st2)) r) ->
  let o1 := score_source self media score phrase langs dfs l k v st1 in
  let o2 := score_source self media score phrase langs dfs l k v st2 in
  o1.1 = o2.1 ∧ clock (world o1.2) = clock (world o2.2) ∧
  exists dr dl,
    results o1.2 = results st1 ++ dr ∧ results o2.2 = results st2 ++ dr ∧
    log o1.2 = log st1 ++ dl ∧ log o2.2 = log st2 ++ dl.
Proof.
  intros Hclock Hnet. cbv zeta.
  pose proof (score_confidence_frame self score phrase langs dfs l k v) as Hf.
  cbv zeta in Hf. destruct Hf as (_ & Hu0 & _).
  unfold score_source. cbv zeta. fold (passes_filter self media
    (score_confidence self score phrase langs dfs l k v)) in *.
  destruct (passes_filter self media _) eqn:Hp.
  - unfold resolve_and_append, append_result, call.
    destruct (uri (score_confidence self score phrase langs dfs l k v))
      as [s|r|] eqn:Eu.
    + destruct (uri_truthy (UStr s)); simpl.
      * split; [done|]. split; [exact Hclock|]. exists [(l, k)], []. by rewrite ?app_nil_r.
      * split; [done|]. split; [exact Hclock|]. exists [], [].
        by rewrite !app_nil_r.
    + rewrite <- (Hnet r) by congruence.
      destruct (net (world st1) (clock (world st1)) r) as [|u]; simpl.
      * split; [done|]. split; [by rewrite Hclock|].
        exists [], ["stream extraction failed for " +:+ k]. by rewrite !app_nil_r.
      * destruct (uri_truthy (uri_of_return u)); simpl.
        -- split; [done|]. split; [by rewrite Hclock|]. exists [(l, k)], []. by rewrite ?app_nil_r.
        -- split; [done|]. split; [by rewrite Hclock|]. exists [], [].
           by rewrite !app_nil_r.
    + simpl. split; [done|]. split; [exact Hclock|]. exists [], [].
      by rewrite !app_nil_r.
  - simpl. split; [done|]. split; [exact Hclock|]. exists [], [].
    by rewrite !app_nil_r.
Qed.

Section TwoRuns.
Variables (self : NewsSkill) (phrase : string) (media : MediaType.t).

Let body := news_body self phrase media.

Lemma loop_flat_agree es st1 st2 :
  clock (world st1) = clock (world st2) ->
  (forall t r,
     (clock (world st1) <= t)%nat ->
     (t < clock (world (loop_flat body es st1).2))%nat ->
     net (world st1) t r = net (world st2) t r) ->
  (loop_flat body es st1).1 = (loop_flat body es st2).1 ∧
  clock (world (loop_flat body es st1).2) =
    clock (world (loop_flat body es st2).2) ∧
  exists dr dl,
    results (loop_flat body es st1).2 = results st1 ++ dr ∧
    results (loop_flat body es st2).2 = results st2 ++ dr ∧
    log (loop_flat body es st1).2 = log st1 ++ dl ∧
    log (loop_flat body es st2).2 = log st2 ++ dl.
Proof.
  revert st1 st2. induction es as [|[[l k] v] es IH]; intros st1 st2 Hclock Hnet.
  - simpl. split; [done|]. split; [exact Hclock|]. exists [], [].
    by rewrite !app_nil_r.
  - rewrite !loop_flat_cons in *. cbn [fst snd] in *.
    pose proof (news_body_grows self phrase media l k v st1)
      as (dr1 & dl1 & _ & _ & _ & Hn1 & Hc1).
    pose proof (news_body_grows self phrase media l k v st2)
      as (dr2 & dl2 & _ & _ & _ & Hn2 & _).
    pose proof (loop_flat_grows body (news_body_grows self phrase media) es
                  (body l k v st1).2) as (_ & _ & _ & _ & _ & _ & Hmono).
    fold body in Hn1, Hc1, Hn2.
    destruct (score_source_agree self media (base_score media)
                (clean_phrase self phrase)
                (effective_langs self (match_lang self phrase))
                (default_feeds_of self (clean_phrase self phrase)
                   (match_lang self phrase)) l k v st1 st2 Hclock)
      as (Hv & Hck & dr & dl & Hr1 & Hr2 & Hl1 & Hl2).
    { intros r Hu Hp. rewrite <- Hclock. apply Hnet; [lia|].
      pose proof (score_source_calls self media (base_score media)
                    (clean_phrase self phrase)
                    (effective_langs self (match_lang self phrase))
                    (default_feeds_of self (clean_phrase self phrase)
                       (match_lang self phrase)) l k v st1 r Hu Hp) as Hs.
      fold (news_body self phrase media) in Hs. fold body in Hs. lia. }
    fold (news_body self phrase media) in Hv, Hck, Hr1, Hr2, Hl1, Hl2.
    fold body in Hv, Hck, Hr1, Hr2, Hl1, Hl2.
    destruct (IH (body l k v st1).2 (body l k v st2).2 Hck)
      as (He & Hck' & dr' & dl' & Hr1' & Hr2' & Hl1' & Hl2').
    { intros t r Ht1 Ht2. rewrite Hn1, Hn2. apply Hnet; [lia|exact Ht2]. }
    split; [by rewrite Hv, He|]. split; [exact Hck'|].
    exists (dr ++ dr'), (dl ++ dl').
    rewrite Hr1', Hr2', Hl1', Hl2', Hr1, Hr2, Hl1, Hl2, !app_assoc. done.
Qed.
End TwoRuns.

Lemma lookup_flatten_iff cat l k v :
  wf_catalog cat ->
  lookup_source cat l k = Some v <-> ((l, k), v) ∈ flatten cat.
Proof.
  intros Hwf. split; [|by apply lookup_flatten].
  intros Hv.
  destruct (before_langs_split (fun _ _ v st => (v, st)) l k cat
              (mkLoopState [] [] (mkWorld 0 (fun _ _ => Raised))) v Hv)
    as (pre & post & -> & _).
  rewrite elem_of_app, elem_of_cons. right. by left.
Qed.

Lemma Resolution_results self l k v st out :
  Resolution self l k v st out ->
  results out.2 = results st ∨ results out.2 = results st ++ [(l, k)].
Proof. destruct 1; simpl; auto. Qed.

Lemma net_with_other n t o t' r : t' ≠ t -> net_with n t o t' r = n t' r.
Proof. intros H. unfold net_with. by destruct (decide (t' = t)). Qed.

Lemma net_with_same n t o r : net_with n t o t r = o.
Proof. unfold net_with. by destruct (decide (t = t)). Qed.

(** C5. Take a source that passed the test and whose extractor fails when
    the loops reach it: it raises, or it returns [None] or the empty
    string. The call of [search_news] returns all the same, without this
    source; when the extractor raised, the log has the line for this
    source and the descriptor still holds the extractor. The other sources
    are not affected: on the network that differs only in that this one
    call returns a uri, [search_news] returns the same list with this one
    source added in its place, and leaves the same descriptor under every
    other source. *)
Theorem search_news_resolver_failure (self : NewsSkill) (phrase : string)
  (media : MediaType.t) (cat : Catalog) (w : World) (l k : string)
  (v : Descriptor) (r : Resolver) (st : LoopState) (u : string) :
  wf_catalog cat ->
  lookup_source cat l k = Some v ->
  uri v = UCallable r ->
  state_before self phrase media cat w l k = Some st ->
  passes_filter self media (scored self phrase media l k v) = true ->
  (net w (clock (world st)) r = Raised ∨
   exists u0, net w (clock (world st)) r = Returned u0 ∧ empty_return u0 = true) ->
  str_truthy u = true ->
  let out := search_news self phrase media cat w in
  let out' :=
    search_news self phrase media cat
      (mkWorld (clock w)
         (net_with (net w) (clock (world st)) (Returned (Some u)))) in
  ((l, k) ∉ results out.2) ∧
  (net w (clock (world st)) r = Raised ->
   ("stream extraction failed for " +:+ k) ∈ log out.2 ∧
   (uri <$> lookup_source out.1 l k) = Some (UCallable r)) ∧
  (exists ra rb, results out.2 = ra ++ rb ∧ results out'.2 = ra ++ (l, k) :: rb) ∧
  (forall l2 k2, (l2, k2) ≠ (l, k) ->
     lookup_source out.1 l2 k2 = lookup_source out'.1 l2 k2).
Proof.
  intros Hwf Hv Hu Hst Hp Hfail Hs out out'.
  set (body := news_body self phrase media).
  set (v0 := scored self phrase media l k v) in *.
  set (t0 := clock (world st)) in *.
  set (w' := mkWorld (clock w) (net_with (net w) t0 (Returned (Some u)))) in *.
  assert (Hu0 : uri v0 = UCallable r) by (unfold v0; by rewrite scored_uri).
  destruct (search_news_at self phrase media cat w l k v Hwf Hv)
    as (st1 & Hst1 & Hnet & _ & Hl & Hiff & Hlog).
  assert (st1 = st) as -> by congruence. clear Hst1.
  fold out body in Hl, Hiff, Hlog.
  destruct (news_body_cases self phrase media l k v st) as [[Hp' _]|[_ Ho]];
    [unfold v0 in Hp; congruence|].
  fold v0 body in Ho.
  assert (Hno : results (body l k v st).2 = results st).
  { destruct (Resolution_results _ _ _ _ _ _ Ho) as [H|H]; [exact H|].
    apply (Resolution_appended_iff _ _ _ _ _ _ Ho) in H.
    destruct H as [[Hc _]|(r' & s & Hu' & Hn' & Hs')].
    - by rewrite Hu0 in Hc.
    - assert (r' = r) as -> by congruence. rewrite Hnet in Hn'. fold t0 in Hn'.
      destruct Hfail as [Hf|(u0 & Hf & He)]; [congruence|].
      assert (u0 = Some s) as -> by congruence.
      unfold empty_return in He. simpl in He. by rewrite Hs' in He. }
  split; [|split; [|split]].
  - rewrite Hiff, Hno. apply app_singleton_neq.
  - intros Hr.
    assert (Hout : body l k v st =
              (v0, mkLoopState (results st)
                     (log st ++ ["stream extraction failed for " +:+ k])
                     (tick (world st)))).
    { destruct Ho as [r' Hu' Hn|r' u' Hu' Hn He|r' s Hu' Hn Hs'|Hcl Ht|Hcl Ht];
        try reflexivity.
      - assert (r' = r) as -> by congruence. rewrite Hnet in Hn.
        fold t0 in Hn. congruence.
      - assert (r' = r) as -> by congruence. rewrite Hnet in Hn.
        fold t0 in Hn. congruence.
      - by rewrite Hu0 in Hcl.
      - by rewrite Hu0 in Hcl. }
    split.
    + apply Hlog. rewrite Hout. simpl. rewrite elem_of_app. right. by left.
    + rewrite Hl, Hout. change (Some (uri v0) = Some (UCallable r)).
      by rewrite Hu0.
  - (* the two runs, part by part *)
    destruct (before_langs_split body l k cat (mkLoopState [] [] w) v Hv)
      as (pre & post & Hf & _ & Hb).
    unfold state_before in Hst. fold body in Hst. rewrite Hb in Hst.
    injection Hst as Hst.
    destruct (loop_langs_flat body cat (mkLoopState [] [] w)) as [_ Hs1].
    destruct (loop_langs_flat body cat (mkLoopState [] [] w')) as [_ Hs2].
    change (loop_langs body cat (mkLoopState [] [] w)) with out in Hs1.
    change (loop_langs body cat (mkLoopState [] [] w')) with out' in Hs2.
    rewrite Hf, loop_flat_app, loop_flat_cons in Hs1, Hs2.
    cbn [fst snd] in Hs1, Hs2. rewrite Hst in Hs1.
    set (st' := (loop_flat body pre (mkLoopState [] [] w')).2) in *.
    destruct (loop_flat_agree self phrase media pre (mkLoopState [] [] w)
                (mkLoopState [] [] w') eq_refl)
      as (_ & Hck & dr & dl & Hr1 & Hr2 & _).
    { intros t r' _ Hlt. fold body in Hlt. rewrite Hst in Hlt. simpl.
      rewrite net_with_other; [done|]. unfold t0. lia. }
    fold body in Hck, Hr1, Hr2. rewrite Hst in Hck, Hr1. fold st' in Hck, Hr2.
    simpl in Hr1, Hr2.
    destruct (loop_flat_grows body (news_body_grows self phrase media) pre
                (mkLoopState [] [] w')) as (_ & _ & _ & _ & _ & Hn' & _).
    fold st' in Hn'. simpl in Hn'.
    destruct (news_body_cases self phrase media l k v st') as [[Hp' _]|[_ Ho']];
      [unfold v0 in Hp; congruence|].
    fold v0 body in Ho'.
    assert (Hyes : results (body l k v st').2 = results st' ++ [(l, k)]).
    { apply (Resolution_appended_iff _ _ _ _ _ _ Ho'). right.
      exists r, u. split; [exact Hu0|]. split; [|exact Hs].
      rewrite Hn', <- Hck. fold t0. apply net_with_same. }
    destruct (news_body_grows self phrase media l k v st)
      as (_ & _ & _ & _ & _ & Hn1 & _).
    destruct (news_body_grows self phrase media l k v st')
      as (_ & _ & _ & _ & _ & Hn2 & _).
    fold body in Hn1, Hn2.
    pose proof (score_source_calls self media (base_score media)
                  (clean_phrase self phrase)
                  (effective_langs self (match_lang self phrase))
                  (default_feeds_of self (clean_phrase self phrase)
                     (match_lang self phrase)) l k v st r Hu Hp) as Hc1.
    pose proof (score_source_calls self media (base_score media)
                  (clean_phrase self phrase)
                  (effective_langs self (match_lang self phrase))
                  (default_feeds_of self (clean_phrase self phrase)
                     (match_lang self phrase)) l k v st' r Hu Hp) as Hc2.
    fold (news_body self phrase media) in Hc1, Hc2. fold body in Hc1, Hc2.
    destruct (loop_flat_agree self phrase media post (body l k v st).2
                (body l k v st').2)
      as (_ & _ & dr' & dl' & Hr1' & Hr2' & _).
    { rewrite Hc1, Hc2. by rewrite Hck. }
    { intros t r' Hle _. rewrite Hn1, Hn2, Hnet, Hn'.
      rewrite net_with_other; [done|]. rewrite Hc1 in Hle. unfold t0. lia. }
    fold body in Hr1', Hr2'.
    exists (results st), dr'. split.
    + by rewrite Hs1, Hr1', Hno.
    + rewrite Hs2, Hr2', Hyes, Hr2, <- Hr1, <- app_assoc. done.
  - intros l2 k2 Hne.
    destruct (before_langs_split body l k cat (mkLoopState [] [] w) v Hv)
      as (pre & post & Hf & _ & Hb).
    unfold state_before in Hst. fold body in Hst. rewrite Hb in Hst.
    injection Hst as Hst.
    destruct (loop_langs_flat body cat (mkLoopState [] [] w)) as [Hc1 _].
    destruct (loop_langs_flat body cat (mkLoopState [] [] w')) as [Hc2 _].
    change (loop_langs body cat (mkLoopState [] [] w)) with out in Hc1.
    change (loop_langs body cat (mkLoopState [] [] w')) with out' in Hc2.
    rewrite Hf, loop_flat_app, loop_flat_cons in Hc1, Hc2.
    cbn [fst snd] in Hc1, Hc2. rewrite Hst in Hc1.
    set (st' := (loop_flat body pre (mkLoopState [] [] w')).2) in *.
    destruct (loop_flat_agree self phrase media pre (mkLoopState [] [] w)
                (mkLoopState [] [] w') eq_refl)
      as (Hpre & Hck & _).
    { intros t r' _ Hlt. fold body in Hlt. rewrite Hst in Hlt. simpl.
      rewrite net_with_other; [done|]. unfold t0. lia. }
    fold body in Hpre, Hck. rewrite Hst in Hck. fold st' in Hck.
    destruct (loop_flat_grows body (news_body_grows self phrase media) pre
                (mkLoopState [] [] w')) as (_ & _ & _ & _ & _ & Hn' & _).
    fold st' in Hn'. simpl in Hn'.
    destruct (news_body_grows self phrase media l k v st)
      as (_ & _ & _ & _ & _ & Hn1 & _).
    destruct (news_body_grows self phrase media l k v st')
      as (_ & _ & _ & _ & _ & Hn2 & _).
    fold body in Hn1, Hn2.
    pose proof (score_source_calls self media (base_score media)
                  (clean_phrase self phrase)
                  (effective_langs self (match_lang self phrase))
                  (default_feeds_of self (clean_phrase self phrase)
                     (match_lang self phrase)) l k v st r Hu Hp) as Hk1.
    pose proof (score_source_calls self media (base_score media)
                  (clean_phrase self phrase)
                  (effective_langs self (match_lang self phrase))
                  (default_feeds_of self (clean_phrase self phrase)
                     (match_lang self phrase)) l k v st' r Hu Hp) as Hk2.
    fold (news_body self phrase media) in Hk1, Hk2. fold body in Hk1, Hk2.
    destruct (loop_flat_agree self phrase media post (body l k v st).2
                (body l k v st').2)
      as (Hpost & _).
    { rewrite Hk1, Hk2. by rewrite Hck. }
    { intros t r' Hle _. rewrite Hn1, Hn2, Hnet, Hn'.
      rewrite net_with_other; [done|]. rewrite Hk1 in Hle. unfold t0. lia. }
    fold body in Hpost.
    assert (Hwf1 : wf_catalog out.1)
      by (apply (same_shape_wf cat); [apply loop_langs_shape|exact Hwf]).
    assert (Hwf2 : wf_catalog out'.1)
      by (apply (same_shape_wf cat); [apply loop_langs_shape|exact Hwf]).
    apply option_eq. intros v2.
    rewrite (lookup_flatten_iff _ _ _ _ Hwf1), (lookup_flatten_iff _ _ _ _ Hwf2).
    rewrite Hc1, Hc2, <- Hpre, <- Hpost.
    rewrite !elem_of_app, !elem_of_cons.
    split; (intros [H|[H|H]]; [by left| |by right; right]);
      injection H as -> ->; by destruct Hne.
Qed.

(** The extractor of GPB raises: GPB is not returned and the failure is
    logged; AP, FOX, NPR and PBS are returned. *)
Lemma search_news_resolver_failure_witness :
  let out :=
    search_news ModelHost.skill "news" MediaType.NEWS ModelHost.catalog
      (mkWorld 0 (ModelHost.net_failing gpb "http://stream/1.mp3")) in
  (("en-us", "GPB") ∉ results out.2) ∧
  "stream extraction failed for GPB" ∈ log out.2 ∧
  ("en-us", "AP") ∈ results out.2 ∧ ("en-us", "FOX") ∈ results out.2 ∧
  ("en-us", "NPR") ∈ results out.2 ∧ ("en-us", "PBS") ∈ results out.2.
Proof.
  assert (Hwf : wf_catalog ModelHost.catalog).
  { apply (bool_decide_unpack _). vm_compute. exact I. }
  cbv zeta.
  edestruct (search_news_resolver_failure ModelHost.skill "news"
               MediaType.NEWS ModelHost.catalog
               (mkWorld 0 (ModelHost.net_failing gpb "http://stream/1.mp3"))
               "en-us" "GPB") with (u := "http://gpb/1.mp3")
    as (Hno & Hlog & _); [exact Hwf| | | | | |reflexivity|].
  - reflexivity.
  - reflexivity.
  - vm_compute. reflexivity.
  - reflexivity.
  - left. reflexivity.
  - split; [exact Hno|]. split; [apply Hlog; reflexivity|].
    repeat split; apply (bool_decide_unpack _); vm_compute; exact I.
Defined.

(** * More of the code *)

(** ** Strings, continued *)

Lemma sapp_nil_l (s : string) : EmptyString +:+ s = s.
Proof. reflexivity. Qed.

Lemma sapp_cons c (a b : string) : String c a +:+ b = String c (a +:+ b).
Proof. reflexivity. Qed.

Lemma sapp_nil_r (s : string) : s +:+ EmptyString = s.
Proof. induction s as [|c s IH]; [done|]. by rewrite sapp_cons, IH. Qed.

Lemma sapp_assoc (a b c : string) : (a +:+ b) +:+ c = a +:+ (b +:+ c).
Proof. induction a as [|x a IH]; [done|]. by rewrite !sapp_cons, IH. Qed.

Lemma strip_prefix_iff p s r : strip_prefix p s = Some r <-> s = p +:+ r.
Proof.
  revert s. induction p as [|a p IH]; intros s; simpl.
  - rewrite sapp_nil_l. split; congruence.
  - destruct s as [|b s]; [split; [done|by rewrite sapp_cons]|].
    rewrite sapp_cons. destruct (Ascii.eqb a b) eqn:E.
    + apply Ascii.eqb_eq in E. subst b. rewrite IH. split; congruence.
    + apply Ascii.eqb_neq in E. split; [done|congruence].
Qed.

Lemma prefix_iff p s : String.prefix p s = true <-> exists r, s = p +:+ r.
Proof.
  revert s. induction p as [|a p IH]; intros s; simpl.
  - split; [intros _; by exists s|]. by destruct s.
  - destruct s as [|b s]; simpl.
    + split; [done|]. intros [r Hr]. by rewrite sapp_cons in Hr.
    + destruct (ascii_dec a b) as [E|Hne].
      * subst b. rewrite IH. split; intros [r Hr]; exists r.
        -- by rewrite sapp_cons, Hr.
        -- rewrite sapp_cons in Hr. congruence.
      * split; [done|]. intros [r Hr]. rewrite sapp_cons in Hr. congruence.
Qed.

Lemma holds_char_cons c x s :
  holds_char c (String x s) <-> x = c ∨ holds_char c s.
Proof.
  unfold holds_char. split.
  - intros (a & b & H). destruct a as [|y a].
    + rewrite sapp_nil_l in H. left. congruence.
    + rewrite sapp_cons in H. right. exists a, b. congruence.
  - intros [->|(a & b & ->)].
    + by exists EmptyString, s.
    + exists (String x a), b. by rewrite sapp_cons.
Qed.

Lemma holds_char_nil c : ~ holds_char c EmptyString.
Proof. intros ([|y a] & b & H); discriminate H. Qed.

Lemma holds_char_app c a b :
  holds_char c (a +:+ b) <-> holds_char c a ∨ holds_char c b.
Proof.
  induction a as [|x a IH].
  - rewrite sapp_nil_l. pose proof (holds_char_nil c). tauto.
  - rewrite sapp_cons, !holds_char_cons, IH. tauto.
Qed.

Lemma split_head_no_sep sep s : ~ holds_char sep (split_head sep s).
Proof.
  induction s as [|c s IH]; simpl; [apply holds_char_nil|].
  destruct (Ascii.eqb c sep) eqn:E; [apply holds_char_nil|].
  apply Ascii.eqb_neq in E. rewrite holds_char_cons. tauto.
Qed.

Lemma split_head_decomp sep s :
  s = split_head sep s ∨ exists rest, s = split_head sep s +:+ String sep rest.
Proof.
  induction s as [|c s IH]; simpl; [by left|].
  destruct (Ascii.eqb c sep) eqn:E.
  - apply Ascii.eqb_eq in E. subst c. right. by exists s.
  - destruct IH as [IH|[rest IH]].
    + left. by rewrite <- IH.
    + right. exists rest. by rewrite sapp_cons, <- IH.
Qed.

Lemma split_head_app sep a b :
  ~ holds_char sep a -> split_head sep (a +:+ b) = a +:+ split_head sep b.
Proof.
  induction a as [|c a IH]; intros H; [done|].
  rewrite !sapp_cons. simpl. rewrite holds_char_cons in H.
  destruct (Ascii.eqb c sep) eqn:E.
  - apply Ascii.eqb_eq in E. tauto.
  - rewrite IH; [done|tauto].
Qed.

Lemma split_head_id sep s : ~ holds_char sep s -> split_head sep s = s.
Proof.
  intros H. rewrite <- (sapp_nil_r s) at 1.
  rewrite split_head_app by done. apply sapp_nil_r.
Qed.

Lemma contains_nil sub : contains sub EmptyString = String.prefix sub EmptyString.
Proof. unfold contains. apply orb_false_r. Qed.

Lemma contains_cons sub c s :
  contains sub (String c s) = String.prefix sub (String c s) || contains sub s.
Proof. reflexivity. Qed.

Lemma contains_true_iff sub s :
  contains sub s = true <-> exists a b, s = a +:+ sub +:+ b.
Proof.
  induction s as [|c s IH].
  - rewrite contains_nil, prefix_iff. split.
    + intros [r E]. by exists EmptyString, r.
    + intros ([|x a] & b & E); [by exists b|by rewrite sapp_cons in E].
  - rewrite contains_cons, orb_true_iff, IH, prefix_iff. split.
    + intros [[r E]|(a & b & E)].
      * by exists EmptyString, r.
      * exists (String c a), b. by rewrite sapp_cons, E.
    + intros ([|x a] & b & E).
      * left. by exists b.
      * right. rewrite sapp_cons in E. injection E as _ E. by exists a, b.
Qed.

Lemma contains_false_iff sub s :
  contains sub s = false <-> forall a b, s ≠ a +:+ sub +:+ b.
Proof.
  rewrite <- not_true_iff_false, contains_true_iff. split.
  - intros H a b E. apply H. by exists a, b.
  - intros H (a & b & E). by apply (H a b).
Qed.

(** ** The link pattern of gpb *)

Lemma mp3_backtrack_cons c line :
  mp3_backtrack (String c line) =
  match mp3_backtrack line with
  | Some x => Some (String c x)
  | None =>
      if String.prefix mp3_close (String c line) then Some EmptyString else None
  end.
Proof. reflexivity. Qed.

Lemma mp3_backtrack_None line :
  mp3_backtrack line = None <-> contains mp3_close line = false.
Proof.
  induction line as [|c line IH].
  - split; reflexivity.
  - rewrite mp3_backtrack_cons, contains_cons, orb_false_iff, <- IH.
    destruct (mp3_backtrack line) as [x|].
    + split; [done|]. intros [_ H]. discriminate H.
    + destruct (String.prefix mp3_close (String c line)).
      * split; [done|]. intros [H _]. discriminate H.
      * done.
Qed.

Lemma mp3_backtrack_Some line x :
  mp3_backtrack line = Some x ->
  exists post,
    line = x +:+ mp3_close +:+ post ∧
    contains mp3_close ("mp3" +:+ String dquote post) = false.
Proof.
  revert x. induction line as [|c line IH]; intros x; [done|].
  rewrite mp3_backtrack_cons.
  destruct (mp3_backtrack line) as [x'|] eqn:E.
  - intros [= <-]. destruct (IH x' eq_refl) as (post & -> & Hg).
    exists post. by rewrite sapp_cons.
  - destruct (String.prefix mp3_close (String c line)) eqn:Ep; [|done].
    intros [= <-]. apply prefix_iff in Ep. destruct Ep as [r Er].
    exists r. rewrite sapp_nil_l. split; [exact Er|].
    apply mp3_backtrack_None in E.
    change (mp3_close +:+ r) with (String "." ("mp3" +:+ String dquote r)) in Er.
    injection Er as _ <-. exact E.
Qed.

Lemma contains_false_app sub a b :
  contains sub (a +:+ b) = false -> contains sub b = false.
Proof.
  rewrite !contains_false_iff. intros H a' b' ->.
  apply (H (a +:+ a') b'). by rewrite sapp_assoc.
Qed.

Lemma mp3_group_Some rest g :
  mp3_group rest = Some g ->
  exists x post,
    rest = g +:+ String dquote post ∧ g = x +:+ ".mp3" ∧ x ≠ "" ∧
    ~ holds_char newline g ∧
    contains mp3_close (split_head newline post) = false.
Proof.
  unfold mp3_group.
  pose proof (split_head_no_sep newline rest) as Hno.
  pose proof (split_head_decomp newline rest) as Hdec.
  destruct (split_head newline rest) as [|c line] eqn:El; [done|].
  destruct (mp3_backtrack line) as [x0|] eqn:Eb; [|done].
  intros [= <-].
  destruct (mp3_backtrack_Some line x0 Eb) as (pl & -> & Hg).
  assert (Hline : String c (x0 +:+ mp3_close +:+ pl) =
                  (String c x0 +:+ ".mp3") +:+ String dquote pl).
  { rewrite !sapp_cons. f_equal. rewrite sapp_assoc. f_equal. }
  rewrite Hline in Hno, Hdec.
  rewrite holds_char_app, holds_char_cons in Hno.
  assert (Hpl : ~ holds_char newline pl) by tauto.
  apply contains_false_app in Hg.
  change (String dquote pl) with (String dquote EmptyString +:+ pl) in Hg.
  apply contains_false_app in Hg.
  exists (String c x0).
  destruct Hdec as [Hd|[r Hd]].
  - exists pl. split; [exact Hd|]. split; [done|]. split; [done|].
    split; [tauto|]. by rewrite split_head_id.
  - exists (pl +:+ String newline r). split.
    + rewrite Hd. rewrite sapp_assoc. by rewrite sapp_cons.
    + split; [done|]. split; [done|]. split; [tauto|].
      rewrite split_head_app by done. simpl. by rewrite sapp_nil_r.
Qed.

Lemma re_search_mp3_cons c content :
  re_search_mp3 (String c content) =
  match strip_prefix href_open (String c content) ≫= mp3_group with
  | Some g => Some g
  | None => re_search_mp3 content
  end.
Proof. reflexivity. Qed.

Lemma re_search_mp3_sound (content g : string) :
  re_search_mp3 content = Some g ->
  exists pre x post,
    content = pre +:+ href_open +:+ g +:+ String dquote post ∧
    g = x +:+ ".mp3" ∧ x ≠ "" ∧
    ~ holds_char newline g ∧
    contains mp3_close (split_head newline post) = false.
Proof.
  induction content as [|c content IH]; [done|].
  rewrite re_search_mp3_cons.
  destruct (strip_prefix href_open (String c content)) as [rest|] eqn:Es.
  - simpl. destruct (mp3_group rest) as [g'|] eqn:Eg.
    + intros [= <-]. apply strip_prefix_iff in Es.
      destruct (mp3_group_Some rest g' Eg) as (x & post & -> & Hx).
      exists EmptyString, x, post. rewrite sapp_nil_l. by split.
    + intros H. destruct (IH H) as (pre & x & post & -> & Hx).
      exists (String c pre), x, post. by rewrite sapp_cons.
  - simpl. intros H. destruct (IH H) as (pre & x & post & -> & Hx).
    exists (String c pre), x, post. by rewrite sapp_cons.
Qed.

(** X1. What [gpb] takes for the link: the page holds [href_open], the
    returned text and a closing quote; the text ends in [.mp3] after at
    least one other byte and stays on one line; and it runs up to the last
    [mp3_close] of that line, not to the first. *)
Theorem re_search_mp3_link (content g : string) :
  re_search_mp3 content = Some g ->
  exists pre x post,
    content = pre +:+ href_open +:+ g +:+ String dquote post ∧
    g = x +:+ ".mp3" ∧ x ≠ "" ∧
    ~ holds_char newline g ∧
    contains mp3_close (split_head newline post) = false.
Proof. apply re_search_mp3_sound. Qed.

Lemma re_search_mp3_link_witness :
  exists pre x post,
    ModelWeb.page =
      pre +:+ href_open +:+
      ("a.mp3" +:+ String dquote EmptyString +:+ ">1</a><a href=" +:+
       String dquote EmptyString +:+ "b.mp3") +:+ String dquote post ∧
    ("a.mp3" +:+ String dquote EmptyString +:+ ">1</a><a href=" +:+
     String dquote EmptyString +:+ "b.mp3") = x +:+ ".mp3".
Proof.
  destruct (re_search_mp3_link ModelWeb.page
              ("a.mp3" +:+ String dquote EmptyString +:+ ">1</a><a href=" +:+
               String dquote EmptyString +:+ "b.mp3") eq_refl)
    as (pre & x & post & H1 & H2 & _).
  by exists pre, x, post.
Defined.

Lemma mp3_close_no_newline : ~ holds_char newline mp3_close.
Proof.
  unfold mp3_close. rewrite holds_char_app, !holds_char_cons.
  pose proof (holds_char_nil newline). intuition discriminate.
Qed.

Lemma re_search_mp3_finds pre x post :
  x ≠ "" -> ~ holds_char newline x ->
  is_Some (re_search_mp3 (pre +:+ href_open +:+ x +:+ mp3_close +:+ post)).
Proof.
  intros Hx Hnl. induction pre as [|c pre IH].
  - rewrite sapp_nil_l.
    change (href_open +:+ x +:+ mp3_close +:+ post)
      with (String "h" ("ref=" +:+ String dquote EmptyString +:+
                        x +:+ mp3_close +:+ post)).
    rewrite re_search_mp3_cons.
    assert (Hs : strip_prefix href_open
              (String "h" ("ref=" +:+ String dquote EmptyString +:+
                           x +:+ mp3_close +:+ post))
            = Some (x +:+ mp3_close +:+ post)) by (by apply strip_prefix_iff).
    rewrite Hs. simpl. unfold mp3_group.
    rewrite split_head_app by done.
    rewrite split_head_app by apply mp3_close_no_newline.
    destruct x as [|c x]; [done|]. rewrite sapp_cons.
    destruct (mp3_backtrack (x +:+ mp3_close +:+ split_head newline post))
      eqn:E; [done|].
    apply mp3_backtrack_None in E. rewrite contains_false_iff in E.
    by destruct (E x (split_head newline post)).
  - rewrite sapp_cons, re_search_mp3_cons.
    by destruct (strip_prefix href_open _ ≫= mp3_group).
Qed.

(** ** gpb *)

Lemma gpb_next_link_cons e entries :
  Fetch.gpb_next_link (e :: entries) =
  match entry_title e with
  | None => Err
  | Some t =>
      if contains "GPB" t && contains "Headlines" t then
        match entry_links e with
        | Some (Some href :: _) => Ok (Some href)
        | _ => Err
        end
      else Fetch.gpb_next_link entries
  end.
Proof. reflexivity. Qed.

Lemma gpb_next_link_spec (entries : list FeedEntry) :
  (forall href,
     Fetch.gpb_next_link entries = Ok (Some href) <->
     exists pre e post links,
       entries = pre ++ e :: post ∧ Forall other_entry pre ∧
       is_headline e = true ∧ entry_links e = Some (Some href :: links)) ∧
  (Fetch.gpb_next_link entries = Ok None <-> Forall other_entry entries).
Proof.
  induction entries as [|e entries [IH1 IH2]].
  - split.
    + intros href. split; [done|].
      intros ([|? ?] & e & post & links & H & _); discriminate H.
    + split; [constructor|done].
  - rewrite gpb_next_link_cons. unfold other_entry, is_headline in *.
    destruct (entry_title e) as [t|] eqn:Et.
    + destruct (contains "GPB" t && contains "Headlines" t) eqn:Eh.
      * split.
        -- intros href. split.
           ++ intros H. destruct (entry_links e) as [[|[h|] links]|] eqn:El;
                try discriminate H. injection H as ->.
              exists [], e, entries, links. rewrite Et, Eh. by repeat split.
           ++ intros (pre & e' & post & links & H & Hpre & He & Hl).
              destruct pre as [|e0 pre]; simplify_eq/=.
              ** by rewrite Hl.
              ** apply Forall_cons in Hpre. destruct Hpre as [[_ Hn] _].
                 rewrite Et in Hn. congruence.
        -- split.
           ++ intros H. by destruct (entry_links e) as [[|[h|] links]|].
           ++ intros H. apply Forall_cons in H. destruct H as [[_ Hn] _].
              rewrite Et in Hn. congruence.
      * split.
        -- intros href. rewrite IH1. split.
           ++ intros (pre & e' & post & links & -> & Hpre & He & Hl).
              exists (e :: pre), e', post, links. split; [done|].
              split; [|done]. constructor; [|done]. rewrite Et. by split.
           ++ intros (pre & e' & post & links & H & Hpre & He & Hl).
              destruct pre as [|e0 pre]; simplify_eq/=.
              ** rewrite Et in He. congruence.
              ** apply Forall_cons in Hpre. destruct Hpre as [_ Hpre].
                 by exists pre, e', post, links.
        -- rewrite IH2, Forall_cons, Et. split; [|tauto].
           intros H. by repeat split.
    + split.
      * intros href. split; [done|].
        intros (pre & e' & post & links & H & Hpre & He & Hl).
        destruct pre as [|e0 pre]; simplify_eq/=.
        -- by rewrite Et in He.
        -- apply Forall_cons in Hpre. destruct Hpre as [[Hn _] _].
           rewrite Et in Hn. by destruct Hn.
      * split; [done|]. intros H. apply Forall_cons in H.
        destruct H as [[Hn _] _]. rewrite Et in Hn. by destruct Hn.
Qed.

(** X2. The link [gpb] follows is the first link of the first entry whose
    title holds both GPB and Headlines, when every entry before it has a
    title; and there is no link to follow exactly when every entry has a
    title and none holds both words. *)
Theorem gpb_next_link_first (entries : list FeedEntry) :
  (forall href,
     Fetch.gpb_next_link entries = Ok (Some href) <->
     exists pre e post links,
       entries = pre ++ e :: post ∧ Forall other_entry pre ∧
       is_headline e = true ∧ entry_links e = Some (Some href :: links)) ∧
  (Fetch.gpb_next_link entries = Ok None <-> Forall other_entry entries).
Proof. apply gpb_next_link_spec. Qed.

(** X3. [gpb] has no case for a feed without a headlines entry: it
    passes [None] to [requests.get], and raises when that call raises. *)
Theorem gpb_without_headline (web : Web) (entries : list FeedEntry) :
  feedparser_parse web Fetch.gpb_feed = Ok entries ->
  Forall other_entry entries ->
  requests_get web None = Err ->
  Fetch.gpb web = Raised.
Proof.
  intros Hp Hall Hr. unfold Fetch.gpb. rewrite Hp.
  destruct (gpb_next_link_spec entries) as [_ H]. apply H in Hall.
  by rewrite Hall, Hr.
Qed.

Lemma gpb_without_headline_witness :
  Fetch.gpb ModelWeb.web_without_headline = Raised.
Proof.
  apply (gpb_without_headline ModelWeb.web_without_headline
           [mkFeedEntry (Some "Political Rewind")
              (Some [Some "http://gpb/rewind"])]).
  - reflexivity.
  - repeat constructor. simpl. by eexists.
  - reflexivity.
Defined.

(** X4. [gpb] returns [None] exactly when the feed was parsed, the link
    was found without an exception, the page was fetched, whatever its
    status code, and no line of the page holds [href_open], at least one
    byte and [mp3_close] in a row. *)
Theorem gpb_returns_none (web : Web) :
  Fetch.gpb web = Returned None <->
  exists entries next status content,
    feedparser_parse web Fetch.gpb_feed = Ok entries ∧
    Fetch.gpb_next_link entries = Ok next ∧
    requests_get web next = Ok (status, content) ∧
    forall pre x post,
      x ≠ "" -> ~ holds_char newline x ->
      content ≠ pre +:+ href_open +:+ x +:+ mp3_close +:+ post.
Proof.
  unfold Fetch.gpb. split.
  - destruct (feedparser_parse web Fetch.gpb_feed) as [entries|] eqn:E1;
      [|done].
    destruct (Fetch.gpb_next_link entries) as [next|] eqn:E2; [|done].
    destruct (requests_get web next) as [[status content]|] eqn:E3; [|done].
    destruct (re_search_mp3 content) as [g|] eqn:Es.
    + by destruct (decode_utf8 web g).
    + intros _. exists entries, next, status, content.
      split; [done|]. split; [done|]. split; [done|].
      intros pre x post Hx Hnl ->.
      pose proof (re_search_mp3_finds pre x post Hx Hnl) as [g Hg]. congruence.
  - intros (entries & next & status & content & -> & -> & -> & Hno).
    destruct (re_search_mp3 content) as [g|] eqn:Es; [|done].
    destruct (re_search_mp3_sound content g Es)
      as (pre & x & post & Hc & -> & Hx & Hnl & _).
    exfalso. apply (Hno pre x post Hx).
    + rewrite holds_char_app in Hnl. tauto.
    + rewrite Hc. do 2 f_equal. rewrite !sapp_assoc. f_equal.
Qed.

(** ** npr *)

(** X5. What [npr] returns is the feed's stream up to its first question
    mark, so it holds no question mark, and it can be the empty string;
    [npr] returns [None] exactly when the feed has no stream or an empty
    one. *)
Theorem npr_strips_query (web : Web) :
  (forall u,
     Fetch.npr web = Returned (Some u) ->
     exists f,
       get_rss_first_stream web Fetch.npr_url = Ok (Some f) ∧ f ≠ "" ∧
       ~ holds_char "?"%char u ∧
       (f = u ∨ exists q, f = u +:+ String "?"%char q)) ∧
  (Fetch.npr web = Returned None <->
   get_rss_first_stream web Fetch.npr_url = Ok None ∨
   get_rss_first_stream web Fetch.npr_url = Ok (Some "")).
Proof.
  unfold Fetch.npr.
  destruct (get_rss_first_stream web Fetch.npr_url) as [[f|]|]; split.
  - intros u. destruct f as [|c f]; [done|].
    change (str_truthy (String c f)) with true. cbv iota. intros [= <-].
    exists (String c f). split; [done|]. split; [done|].
    split; [exact (split_head_no_sep "?"%char (String c f))|
            exact (split_head_decomp "?"%char (String c f))].
  - destruct f as [|c f]; simpl.
    + split; [by right|done].
    + split; [done|]. intros [H|H]; discriminate H.
  - done.
  - split; [by left|done].
  - done.
  - split; [done|]. intros [H|H]; discriminate H.
Qed.

Lemma npr_strips_query_witness :
  exists f,
    get_rss_first_stream ModelWeb.web Fetch.npr_url = Ok (Some f) ∧
    f = "https://npr/newscast.mp3" +:+ String "?"%char "orgId=1&d=300".
Proof.
  destruct (npr_strips_query ModelWeb.web) as [H _].
  destruct (H "https://npr/newscast.mp3" eq_refl) as (f & Hf & _ & _ & Hq).
  exists f. split; [exact Hf|].
  vm_compute in Hf. by injection Hf as <-.
Defined.

(** ** tsf *)




Lemma tsf_inv_refused web status uri sent :
  tsf_inv web status uri sent -> status ≠ 200%nat -> Forall (refused web) sent.
Proof.
  unfold tsf_inv. destruct uri as [u|].
  - intros (pre & content & -> & Hr & Hpre) Hs.
    apply Forall_app. split; [exact Hpre|].
    constructor; [|constructor]. by exists status, content.
  - intros [-> _] _. constructor.
Qed.

Lemma tsf_while_inv web n status date uri sent status' uri' sent' :
  tsf_inv web status uri sent ->
  Fetch.tsf_while web n status date uri sent = (Ok (status', uri'), sent') ->
  tsf_inv web status' uri' sent' ∧
  (status' ≠ 200%nat -> length sent' = (length sent + n)%nat).
Proof.
  revert status date uri sent.
  induction n as [|n IH]; intros status date uri sent Hinv; simpl.
  - intros [= <- <- <-]. split; [exact Hinv|]. intros _. lia.
  - destruct (decide (status = 200%nat)) as [Hs|Hs].
    + intros [= <- <- <-]. split; [exact Hinv|]. by intros H.
    + destruct (requests_get web (Some (Fetch.tsf_feed date)))
        as [[st content]|] eqn:Er; [|done].
      destruct (minus_hour date) as [date'|]; [|done].
      intros H. apply IH in H.
      * destruct H as [H1 H2]. split; [exact H1|].
        intros Hne. rewrite (H2 Hne), length_app. simpl. lia.
      * exists sent, content. split; [done|]. split; [exact Er|].
        by apply (tsf_inv_refused web status uri).
Qed.

(** X7. When [tsf] returns a uri, that uri is the last one it asked for,
    the site answered 200 for it and another code for every uri asked
    before; when [tsf] returns [None], it has asked for six uris and the
    site answered each with a code other than 200. *)
Theorem tsf_returns_first_found (web : Web) :
  (forall u,
     (Fetch.tsf web).1 = Returned (Some u) ->
     exists pre content,
       (Fetch.tsf web).2 = pre ++ [u] ∧
       requests_get web (Some u) = Ok (200%nat, content) ∧
       Forall (refused web) pre) ∧
  ((Fetch.tsf web).1 = Returned None ->
   length (Fetch.tsf web).2 = 6%nat ∧ Forall (refused web) (Fetch.tsf web).2).
Proof.
  unfold Fetch.tsf.
  destruct (Fetch.tsf_while web 6 404 (now_local web) None [])
    as [[[status uri]|] sent] eqn:E; simpl; [|split; [intros u H|intros H]; done].
  apply tsf_while_inv in E; [|split; [done|lia]].
  destruct E as [Hinv Hlen].
  destruct (decide (status = 200%nat)) as [->|Hs]; split.
  - intros u [= ->]. exact Hinv.
  - intros [= ->]. destruct Hinv as [_ H]. done.
  - intros u H. discriminate H.
  - intros _. split; [by rewrite (Hlen Hs)|].
    by apply (tsf_inv_refused web status uri).
Qed.

Lemma tsf_returns_first_found_witness :
  exists pre content,
    (Fetch.tsf ModelWeb.web).2 =
      pre ++ ["https://www.tsf.pt/stream/audio/2023/12/noticias/31/not23.mp3"] ∧
    requests_get ModelWeb.web
      (Some "https://www.tsf.pt/stream/audio/2023/12/noticias/31/not23.mp3")
    = Ok (200%nat, content) ∧
    length pre = 3%nat.
Proof.
  destruct (tsf_returns_first_found ModelWeb.web) as [H _].
  destruct (H "https://www.tsf.pt/stream/audio/2023/12/noticias/31/not23.mp3"
              eq_refl) as (pre & content & Hs & Hr & _).
  exists pre, content. split; [exact Hs|]. split; [exact Hr|].
  apply (f_equal length) in Hs. rewrite length_app in Hs.
  assert (Hl : length (Fetch.tsf ModelWeb.web).2 = 4%nat) by reflexivity.
  rewrite Hl in Hs. simpl in Hs. lia.
Defined.

Lemma minus_hour_safe k d :
  (k <= 23)%nat ->
  (2 <= year d)%nat ∨ ((1 <= year d)%nat ∧ (S k <= hour d)%nat) ->
  exists d',
    minus_hour d = Ok d' ∧
    ((2 <= year d')%nat ∨ ((1 <= year d')%nat ∧ (k <= hour d')%nat)).
Proof.
  intros Hk H. unfold minus_hour.
  destruct (hour d) as [|h] eqn:Eh.
  - destruct H as [H|[_ H]]; [|lia].
    destruct (day d) as [|[|d']]; [| |eexists; split; [done|]; simpl; by left].
    + destruct (month d) as [|[|m']];
        [| |eexists; split; [done|]; simpl; by left].
      * destruct (year d) as [|[|y']]; [lia|lia|].
        eexists. split; [done|]. simpl. right. lia.
      * destruct (year d) as [|[|y']]; [lia|lia|].
        eexists. split; [done|]. simpl. right. lia.
    + destruct (month d) as [|[|m']];
        [| |eexists; split; [done|]; simpl; by left].
      * destruct (year d) as [|[|y']]; [lia|lia|].
        eexists. split; [done|]. simpl. right. lia.
      * destruct (year d) as [|[|y']]; [lia|lia|].
        eexists. split; [done|]. simpl. right. lia.
  - eexists. split; [done|]. simpl. destruct H as [H|[H1 H2]]; [by left|].
    right. lia.
Qed.

Lemma tsf_while_done web n date uri sent :
  Fetch.tsf_while web n 200 date uri sent = (Ok (200%nat, uri), sent).
Proof. by destruct n. Qed.

Lemma tsf_while_complete web n status date uri sent :
  (n <= 24)%nat ->
  (2 <= year date)%nat ∨ ((1 <= year date)%nat ∧ (n <= hour date)%nat) ->
  status ≠ 200%nat ->
  (forall d, d ∈ probe_dates n date ->
             requests_get web (Some (Fetch.tsf_feed d)) ≠ Err) ->
  exists status' uri' sent',
    Fetch.tsf_while web n status date uri sent = (Ok (status', uri'), sent') ∧
    match list_find (fun d => status_of web d = 200%nat) (probe_dates n date) with
    | Some (_, d) => status' = 200%nat ∧ uri' = Some (Fetch.tsf_feed d)
    | None => status' ≠ 200%nat
    end.
Proof.
  revert status date uri sent.
  induction n as [|n IH]; intros status date uri sent Hn Hsafe Hs Hreq.
  - exists status, uri, sent. by split.
  - destruct (minus_hour_safe n date) as (date' & Hm & Hsafe'); [lia|exact Hsafe|].
    cbn [Fetch.tsf_while probe_dates]. rewrite Hm.
    destruct (decide (status = 200%nat)) as [|_]; [done|].
    assert (Hd : requests_get web (Some (Fetch.tsf_feed date)) ≠ Err).
    { apply Hreq. simpl. left. }
    destruct (requests_get web (Some (Fetch.tsf_feed date)))
      as [[st content]|] eqn:Er; [|done].
    assert (Hst_of : status_of web date = st)
      by (unfold status_of; by rewrite Er).
    cbn [list_find].
    destruct (decide (status_of web date = 200%nat)) as [Hst|Hst];
      rewrite Hst_of in Hst.
    + rewrite Hst. rewrite tsf_while_done. eexists _, _, _. split; [done|]. by split.
    + destruct (IH st date' (Some (Fetch.tsf_feed date))
                  (sent ++ [Fetch.tsf_feed date]))
        as (st' & uri' & sent' & Hw & Hf); [lia|exact Hsafe'|exact Hst| |].
      * intros d Hin. apply Hreq. simpl. rewrite Hm. by right.
      * exists st', uri', sent'. split; [exact Hw|].
        destruct (list_find _ (probe_dates n date')) as [[i d]|]; exact Hf.
Qed.

(** X8. With the clock past year 1 and no request that raises, [tsf]
    returns the file of the latest of the last six hours for which the
    site answers 200, and [None] when there is none. *)
Theorem tsf_finds_latest (web : Web) :
  (2 <= year (now_local web))%nat ->
  (forall d, d ∈ probe_dates 6 (now_local web) ->
             requests_get web (Some (Fetch.tsf_feed d)) ≠ Err) ->
  (Fetch.tsf web).1 =
  match list_find (fun d => status_of web d = 200%nat)
          (probe_dates 6 (now_local web)) with
  | Some (_, d) => Returned (Some (Fetch.tsf_feed d))
  | None => Returned None
  end.
Proof.
  intros Hy Hreq. unfold Fetch.tsf.
  destruct (tsf_while_complete web 6 404 (now_local web) None [])
    as (st & uri & sent & -> & Hf); [lia|by left|lia|exact Hreq|].
  cbn [fst].
  destruct (list_find _ (probe_dates 6 (now_local web))) as [[i d]|].
  - destruct Hf as [-> ->]. by destruct (decide (200%nat = 200%nat)).
  - by destruct (decide (st = 200%nat)).
Qed.

Lemma tsf_finds_latest_witness :
  (Fetch.tsf ModelWeb.web).1 =
  Returned (Some "https://www.tsf.pt/stream/audio/2023/12/noticias/31/not23.mp3").
Proof.
  rewrite (tsf_finds_latest ModelWeb.web).
  - vm_compute. reflexivity.
  - vm_compute. lia.
  - intros d _. unfold ModelWeb.web. cbn [requests_get].
    destruct (decide _); [done|]. by destruct (decide _).
Defined.

(** ** search_news: order, calls and bounds *)

Lemma loop_flat_sublist body es st :
  grows body ->
  exists dr,
    results (loop_flat body es st).2 = results st ++ dr ∧
    dr `sublist_of` es.*1.
Proof.
  intros Hg. revert st. induction es as [|[r v] es IH]; intros st.
  - exists []. simpl. by rewrite app_nil_r.
  - rewrite loop_flat_cons. simpl.
    destruct (Hg r.1 r.2 v st) as (dr1 & dl1 & Hr1 & Hd1 & _).
    destruct (IH (body r.1 r.2 v st).2) as (dr2 & Hr2 & Hs2).
    exists (dr1 ++ dr2). rewrite Hr2, Hr1, app_assoc. split; [done|].
    destruct Hd1 as [->| ->]; simpl.
    + by apply sublist_cons.
    + destruct r. by apply sublist_skip.
Qed.

(** X9. [search_news] returns the sources in the order of the catalog,
    without sorting them by confidence, and a source at most once. *)
Theorem search_news_catalog_order (self : NewsSkill) (phrase : string)
  (media : MediaType.t) (cat : Catalog) (w : World) :
  results (search_news self phrase media cat w).2
    `sublist_of` (flatten cat).*1 ∧
  (wf_catalog cat -> NoDup (results (search_news self phrase media cat w).2)).
Proof.
  assert (H : results (search_news self phrase media cat w).2
                `sublist_of` (flatten cat).*1).
  { change (search_news self phrase media cat w)
      with (loop_langs (news_body self phrase media) cat (mkLoopState [] [] w)).
    destruct (loop_langs_flat (news_body self phrase media) cat
                (mkLoopState [] [] w)) as [_ ->].
    destruct (loop_flat_sublist (news_body self phrase media) (flatten cat)
                (mkLoopState [] [] w) (news_body_grows self phrase media))
      as (dr & -> & Hs).
    exact Hs. }
  split; [exact H|].
  intros Hwf. eapply sublist_NoDup; [|exact H]. by apply wf_flatten_NoDup.
Qed.

Lemma search_news_catalog_order_witness :
  NoDup (results (search_news ModelHost.skill "news" MediaType.NEWS
                    ModelHost.catalog
                    (mkWorld 0 (ModelHost.net_returning (Some "http://a")))).2).
Proof.
  apply (search_news_catalog_order ModelHost.skill "news" MediaType.NEWS
           ModelHost.catalog
           (mkWorld 0 (ModelHost.net_returning (Some "http://a")))).
  apply (bool_decide_unpack _). vm_compute. exact I.
Defined.

Lemma news_body_step self phrase media l k v st :
  let n := if calls_extractor self phrase media ((l, k), v) then 1%nat else 0%nat in
  clock (world (news_body self phrase media l k v st).2) =
    (clock (world st) + n)%nat ∧
  (length (log (news_body self phrase media l k v st).2) <=
     length (log st) + n)%nat ∧
  (length (log st) <= length (log (news_body self phrase media l k v st).2))%nat.
Proof.
  unfold calls_extractor. cbn [fst snd].
  rewrite <- (scored_uri self phrase media l k v).
  destruct (news_body_cases self phrase media l k v st) as [[Hp ->]|[Hp Ho]];
    rewrite Hp; cbn [andb fst snd].
  - lia.
  - destruct Ho as [r Hu Hn|r u Hu Hn He|r s Hu Hn Hs|Hc Ht|Hc Ht];
      cbn [fst snd world log clock tick];
      rewrite ?Hu, ?Hc; cbn [callable]; rewrite ?length_app; simpl; lia.
Qed.

Lemma loop_flat_calls self phrase media es st :
  let n := length (List.filter (calls_extractor self phrase media) es) in
  clock (world (loop_flat (news_body self phrase media) es st).2) =
    (clock (world st) + n)%nat ∧
  (length (log (loop_flat (news_body self phrase media) es st).2) <=
     length (log st) + n)%nat.
Proof.
  revert st. induction es as [|[[l k] v] es IH]; intros st.
  - simpl. lia.
  - rewrite loop_flat_cons. cbn [fst snd List.filter].
    pose proof (news_body_step self phrase media l k v st) as (H1 & H2 & _).
    destruct (IH (news_body self phrase media l k v st).2) as [H3 H4].
    cbv zeta in *.
    destruct (calls_extractor self phrase media (l, k, v)) eqn:E;
      match goal with
      | |- context [if ?b then _ :: _ else _] =>
          replace b with (calls_extractor self phrase media (l, k, v))
            by reflexivity
      end;
      rewrite E; cbn [length]; lia.
Qed.

(** X10. One request calls the extractor of every source that passes the
    test and holds one, once each, and makes no other call; it logs at most
    one line for each of these calls. *)
Theorem search_news_calls (self : NewsSkill) (phrase : string)
  (media : MediaType.t) (cat : Catalog) (w : World) :
  let n :=
    length (List.filter (calls_extractor self phrase media) (flatten cat)) in
  clock (world (search_news self phrase media cat w).2) = (clock w + n)%nat ∧
  (length (log (search_news self phrase media cat w).2) <= n)%nat ∧
  (n <= length (List.filter (fun e : Entry => callable (uri e.2))
                  (flatten cat)))%nat.
Proof.
  cbv zeta.
  change (search_news self phrase media cat w)
    with (loop_langs (news_body self phrase media) cat (mkLoopState [] [] w)).
  destruct (loop_langs_flat (news_body self phrase media) cat
              (mkLoopState [] [] w)) as [_ ->].
  destruct (loop_flat_calls self phrase media (flatten cat)
              (mkLoopState [] [] w)) as [H1 H2].
  split; [exact H1|]. split; [exact H2|].
  clear. induction (flatten cat) as [|e es IH]; [done|].
  simpl. unfold calls_extractor at 1.
  destruct (callable (uri e.2)); rewrite ?andb_false_r; simpl.
  - destruct (passes_filter _ _ _); simpl; lia.
  - exact IH.
Qed.

Lemma py_ge_not_lt x y : py_ge x y = true -> py_lt x y = false.
Proof.
  unfold py_ge, py_lt. by destruct (py_compare x y) as [[| |]|].
Qed.

(** X11. For an alias score that Python finds between 0 and 1 the
    confidence of a source, computed in floats, is between 30 and 100 in a
    request for NEWS, and between -40 and 90 in any other request: it can
    be negative, and only a request for NEWS can reach 100. *)
Theorem search_news_confidence_range (self : NewsSkill) (phrase : string)
  (media : MediaType.t) (cat : Catalog) (w : World) (l k : string)
  (v : Descriptor) :
  lookup_source cat l k = Some v ->
  let a := PyFloat (match_one self (clean_phrase self phrase) (aliases v)).2 in
  py_ge a (PyInt 0) = true -> py_ge (PyInt 1) a = true ->
  exists v' c,
    lookup_source (search_news self phrase media cat w).1 l k = Some v' ∧
    match_confidence v' = Some c ∧
    (media = MediaType.NEWS ->
     py_ge c (PyInt 30) = true ∧ py_ge (PyInt 100) c = true) ∧
    (media ≠ MediaType.NEWS ->
     py_ge c (PyInt (-40)) = true ∧ py_ge (PyInt 90) c = true).
Proof.
  intros Hv a H0 H1.
  destruct (search_news_confidence self phrase media cat w l k v Hv)
    as (v' & Hl & _ & Hc).
  eexists v', _. split; [exact Hl|]. split; [exact Hc|].
  pose proof (spec_confidence_range media
                (match_one self (clean_phrase self phrase) (aliases v)).2
                (effective_langs self (match_lang self phrase))
                (default_feeds_of self (clean_phrase self phrase)
                   (match_lang self phrase)) l k v
                (float_between_unit _ H0 H1)) as Hr.
  split; intros Hm.
  - rewrite bool_decide_eq_true_2 in Hr by exact Hm.
    by apply num_between_ge in Hr.
  - rewrite bool_decide_eq_false_2 in Hr by exact Hm.
    by apply num_between_ge in Hr.
Qed.

Lemma search_news_confidence_range_witness :
  exists v' c,
    lookup_source
      (search_news ModelHost.skill "NPR" MediaType.GENERIC ModelHost.catalog
         (mkWorld 0 ModelHost.net_raising)).1 "en-us" "NPR" = Some v' ∧
    match_confidence v' = Some c ∧
    py_ge c (PyInt (-40)) = true ∧ py_ge (PyInt 90) c = true.
Proof.
  destruct (search_news_confidence_range ModelHost.skill "NPR"
              MediaType.GENERIC ModelHost.catalog
              (mkWorld 0 ModelHost.net_raising) "en-us" "NPR"
              (source ["NPR News"; "NPR"; "National Public Radio";
                       "National Public Radio News"; "NPR News Now"]
                 (UCallable npr) MediaType.NEWS
                 [MediaType.NEWS; MediaType.RADIO] PlaybackType.AUDIO
                 (Some ["en"]) "/skill/ui/images/NPR.png")
              eq_refl)
    as (v' & c & Hl & Hc & _ & Hr).
  - vm_compute. reflexivity.
  - vm_compute. reflexivity.
  - exists v', c. split; [exact Hl|]. split; [exact Hc|].
    apply Hr. discriminate.
Defined.

(** X12. A request that is not for NEWS never returns a source whose
    alias part, the float [alias_score * 60], is at most an int [p] with
    [p + 30] below [MatchConfidence.AVERAGE]: the language and
    default-feed bonuses together add no more than 30 to the alias part.
    The bound is on the product as Python rounds it, which can be above the
    exact one. *)
Theorem search_news_vague_needs_alias (self : NewsSkill) (phrase : string)
  (media : MediaType.t) (cat : Catalog) (w : World) (l k : string)
  (v : Descriptor) (p : Z) :
  wf_catalog cat ->
  lookup_source cat l k = Some v ->
  media ≠ MediaType.NEWS ->
  let a := PyFloat (match_one self (clean_phrase self phrase) (aliases v)).2 in
  py_ge a (PyInt 0) = true -> py_ge (PyInt 1) a = true ->
  py_ge (PyInt p) (py_mul a (PyInt 60)) = true ->
  (p + 30 < AVERAGE self)%Z ->
  (l, k) ∉ results (search_news self phrase media cat w).2.
Proof.
  intros Hwf Hv Hm a H0 H1 Hp HT.
  destruct (search_news_at self phrase media cat w l k v Hwf Hv)
    as (st & _ & _ & _ & _ & Hiff & _).
  rewrite Hiff.
  destruct (news_body_cases self phrase media l k v st) as [[_ ->]|[Hpass _]].
  - simpl. apply app_singleton_neq.
  - exfalso. unfold passes_filter, confidence_ge in Hpass.
    rewrite scored_value in Hpass.
    rewrite (bool_decide_eq_false_2 _ Hm), orb_false_r in Hpass.
    unfold spec_confidence, spec_before in Hpass.
    rewrite (bool_decide_eq_false_2 _ Hm) in Hpass. fold a in Hpass.
    assert (Hr : num_between 0 (Z.min (1 * 60) p) (py_mul a (PyInt 60))).
    { pose proof (num_between_lt p 0 (1 * 60) (py_mul a (PyInt 60))) as H.
      rewrite (py_ge_not_lt _ _ Hp) in H. apply H.
      apply py_mul_between;
        [exact (float_between_unit _ H0 H1)|simpl; lia|reflexivity
        |reflexivity]. }
    assert (Hq : (Z.min (1 * 60) p <= 60)%Z) by lia.
    assert (Hq' : (Z.min (1 * 60) p <= p)%Z) by lia.
    set (q := Z.min (1 * 60) p) in *. clearbody q.
    assert (Hb : num_between (-20 + 0) (-20 + q)
                   (py_add (PyInt (-20)) (py_mul a (PyInt 60)))).
    { apply py_add_between; [simpl; lia|exact Hr|reflexivity|reflexivity
                            |reflexivity|].
      assert ((2 ^ 52 = 4503599627370496)%Z) by reflexivity. lia. }
    assert (E52 : (2 ^ 52 = 4503599627370496)%Z) by reflexivity.
    apply (with_lang_bonus_between
             (effective_langs self (match_lang self phrase)) l v) in Hb;
      [|reflexivity|lia].
    apply (with_feed_bonus_between
             (default_feeds_of self (clean_phrase self phrase)
                (match_lang self phrase)) k) in Hb; [|reflexivity|lia].
    apply py_min2_between in Hb; [|lia].
    apply (num_between_below _ _ (AVERAGE self)) in Hb; [|lia].
    rewrite Hb in Hpass. discriminate Hpass.
Qed.

Lemma search_news_vague_needs_alias_witness :
  ("en-us", "AP") ∉
    results (search_news ModelHost.skill "xyz" MediaType.GENERIC
               ModelHost.catalog (mkWorld 0 ModelHost.net_raising)).2.
Proof.
  apply (search_news_vague_needs_alias ModelHost.skill "xyz" MediaType.GENERIC
           ModelHost.catalog (mkWorld 0 ModelHost.net_raising) "en-us" "AP"
           (source ["AP Hourly Radio News"; "Associated Press";
                    "Associated Press News"; "Associated Press Radio News";
                    "Associated Press Hourly Radio News"]
              (UStr "rss//https://www.spreaker.com/show/1401466/episodes/feed")
              MediaType.NEWS [MediaType.NEWS; MediaType.RADIO]
              PlaybackType.AUDIO (Some ["en"]) "/skill/ui/images/AP.png") 0).
  - apply (bool_decide_unpack _). vm_compute. exact I.
  - reflexivity.
  - discriminate.
  - vm_compute. reflexivity.
  - vm_compute. reflexivity.
  - vm_compute. reflexivity.
  - vm_compute. reflexivity.
Defined.

(** X13. A returned source has its keys for display filled in: the title
    it had, or else its name in the catalog; the background it had, or else
    the background of the skill; and the icon of the skill. *)
Theorem search_news_display_defaults (self : NewsSkill) (phrase : string)
  (media : MediaType.t) (cat : Catalog) (w : World) (l k : string)
  (v : Descriptor) :
  wf_catalog cat ->
  lookup_source cat l k = Some v ->
  (l, k) ∈ results (search_news self phrase media cat w).2 ->
  exists v',
    lookup_source (search_news self phrase media cat w).1 l k = Some v' ∧
    title v' = Some (match title v with
                     | Some t => if str_truthy t then t else k
                     | None => k
                     end) ∧
    bg_image v' = Some (match bg_image v with
                        | Some b => if str_truthy b then b else default_bg self
                        | None => default_bg self
                        end) ∧
    skill_logo v' = Some (skill_icon self).
Proof.
  intros Hwf Hv Hin.
  destruct (search_news_at self phrase media cat w l k v Hwf Hv)
    as (st & _ & _ & _ & Hl & Hiff & _).
  apply Hiff in Hin.
  exists (news_body self phrase media l k v st).1. split; [exact Hl|].
  pose proof (score_confidence_frame self (base_score media)
    (clean_phrase self phrase) (effective_langs self (match_lang self phrase))
    (default_feeds_of self (clean_phrase self phrase) (match_lang self phrase))
    l k v) as Hf.
  cbv zeta in Hf. fold (scored self phrase media l k v) in Hf.
  destruct Hf as (_ & _ & Ht & Hb & _).
  destruct (news_body_cases self phrase media l k v st) as [[_ Ho]|[_ Ho]].
  - rewrite Ho in Hin. simpl in Hin. by apply app_singleton_neq in Hin.
  - destruct Ho as [r Hu Hn|r u Hu Hn He|r s Hu Hn Hs|Hc Hy|Hc Hy];
      cbn [fst snd results] in *;
      try (by apply app_singleton_neq in Hin).
    + unfold fill_defaults.
      cbn [title bg_image skill_logo set_title set_bg_image set_skill_logo
           set_uri].
      by rewrite Ht, Hb.
    + unfold fill_defaults.
      cbn [title bg_image skill_logo set_title set_bg_image set_skill_logo].
      by rewrite Ht, Hb.
Qed.

Lemma search_news_display_defaults_witness :
  exists v',
    lookup_source
      (search_news ModelHost.skill "BBC" MediaType.NEWS ModelHost.catalog
         (mkWorld 0 ModelHost.net_raising)).1 "en-gb" "BBC" = Some v' ∧
    title v' = Some "BBC" ∧ bg_image v' = Some "/skill/ui/bg.jpg".
Proof.
  destruct (search_news_display_defaults ModelHost.skill "BBC" MediaType.NEWS
              ModelHost.catalog (mkWorld 0 ModelHost.net_raising)
              "en-gb" "BBC"
              (source ["British Broadcasting Corporation"; "BBC"; "BBC News"]
                 (UStr "rss//https://podcasts.files.bbci.co.uk/p02nq0gn.rss")
                 MediaType.NEWS [MediaType.NEWS; MediaType.RADIO]
                 PlaybackType.AUDIO (Some ["en"]) "/skill/ui/images/BBC.png"))
    as (v' & Hl & Ht & Hb & _).
  - apply (bool_decide_unpack _). vm_compute. exact I.
  - reflexivity.
  - apply (bool_decide_unpack _). vm_compute. exact I.
  - exists v'. split; [exact Hl|]. split; [exact Ht|exact Hb].
Defined.

(** ** match_lang and clean_phrase, continued *)

(** X14. The base tags [match_lang] adds: "en" is returned exactly when
    the vocabulary of en or of one of en-au, en-us, en-gb, en-ca matches,
    and "pt", which is no language of the catalog, exactly when the
    vocabulary of pt-pt matches. *)
Theorem match_lang_base_tags (self : NewsSkill) (phrase : string) :
  ("en" ∈ match_lang self phrase <->
   voc_match self phrase "en-au" = true ∨ voc_match self phrase "en-us" = true ∨
   voc_match self phrase "en-gb" = true ∨ voc_match self phrase "en-ca" = true ∨
   voc_match self phrase "en" = true) ∧
  ("pt" ∈ match_lang self phrase <-> voc_match self phrase "pt-pt" = true) ∧
  (forall dirname, "pt" ∉ keys (lang2news dirname)).
Proof.
  rewrite !match_lang_detected, !elem_of_app, !list_elem_of_fmap.
  split; [|split].
  - split.
    + intros [H|(y & Hy & H)].
      * apply elem_of_detected in H. cbv zeta in H.
        repeat (destruct H as [[Hm H']|H];
                [first [discriminate H' | tauto]|]).
        destruct H as [_ H']. discriminate H'.
      * apply elem_of_detected in H. cbv zeta in H.
        repeat (destruct H as [[Hm ->]|H];
                [first [discriminate Hy | tauto]|]).
        destruct H as [_ ->]. discriminate Hy.
    + intros H. right.
      destruct H as [H|[H|[H|[H|H]]]].
      * exists "en-au". split; [done|]. apply elem_of_detected. cbv zeta. tauto.
      * exists "en-us". split; [done|]. apply elem_of_detected. cbv zeta. tauto.
      * exists "en-gb". split; [done|]. apply elem_of_detected. cbv zeta. tauto.
      * exists "en-ca". split; [done|]. apply elem_of_detected. cbv zeta. tauto.
      * exists "en". split; [done|]. apply elem_of_detected. cbv zeta. tauto.
  - split.
    + intros [H|(y & Hy & H)].
      * apply elem_of_detected in H. cbv zeta in H.
        repeat (destruct H as [[Hm H']|H]; [discriminate H'|]).
        destruct H as [_ H']. discriminate H'.
      * apply elem_of_detected in H. cbv zeta in H.
        repeat (destruct H as [[Hm ->]|H];
                [first [discriminate Hy | tauto]|]).
        destruct H as [_ ->]. discriminate Hy.
    + intros H. right. exists "pt-pt". split; [done|].
      apply elem_of_detected. cbv zeta. tauto.
  - intros dirname. apply (bool_decide_unpack _). vm_compute. exact I.
Qed.

(** X15. [match_lang] returns the empty list, so that the system language
    is used, exactly when none of the thirteen plain vocabularies matches,
    "fr" matches only together with "fr24", and "ru" only together with
    "rt". *)
Theorem match_lang_nothing_detected (self : NewsSkill) (phrase : string) :
  match_lang self phrase = [] <->
  (forall tag, tag ∈ plain_tags -> voc_match self phrase tag = false) ∧
  (voc_match self phrase "fr" = true -> voc_match self phrase "fr24" = true) ∧
  (voc_match self phrase "ru" = true -> voc_match self phrase "rt" = true).
Proof.
  rewrite match_lang_detected. split.
  - intros H. apply app_eq_nil in H. destruct H as [H _].
    assert (Hno : forall x, x ∉ detected self phrase)
      by (intros x; rewrite H; apply not_elem_of_nil).
    clear H. split; [|split].
    + intros tag Htag.
      destruct (voc_match self phrase tag) eqn:E; [|done].
      exfalso. apply (Hno tag). apply elem_of_detected. cbv zeta.
      unfold plain_tags in Htag.
      repeat (apply elem_of_cons in Htag; destruct Htag as [->|Htag];
              [tauto|]).
      by apply elem_of_nil in Htag.
    + intros Hfr. destruct (voc_match self phrase "fr24") eqn:E; [done|].
      exfalso. apply (Hno "fr"). apply elem_of_detected. cbv zeta. tauto.
    + intros Hru. destruct (voc_match self phrase "rt") eqn:E; [done|].
      exfalso. apply (Hno "ru"). apply elem_of_detected. cbv zeta. tauto.
  - intros (Hplain & Hfr & Hru).
    assert (H : detected self phrase = []); [|by rewrite H].
    apply elem_of_nil_inv. intros x Hx.
    apply elem_of_detected in Hx. cbv zeta in Hx.
    assert (Hp : forall tag, tag ∈ plain_tags ->
                             voc_match self phrase tag = true -> False).
    { intros tag Ht Hm. rewrite (Hplain tag Ht) in Hm. discriminate Hm. }
    unfold plain_tags in Hp.
    repeat (destruct Hx as [[Hm _]|Hx];
            [match type of Hm with
             | voc_match _ _ ?t = true =>
                 apply (Hp t); [rewrite !elem_of_cons; tauto|exact Hm]
             end|]).
    destruct Hx as [[[Hm Hn] _]|[[Hm Hn] _]].
    + rewrite (Hfr Hm) in Hn. discriminate Hn.
    + rewrite (Hru Hm) in Hn. discriminate Hn.
Qed.








(** ** The catalog of the skill *)

(** X17. The catalog the skill ships, wherever it is installed: its
    language keys are distinct and so are the names within a language;
    every source has an alias, the media type NEWS, NEWS among its match
    types and a uri, and no title yet; and every default feed of
    [langdefaults] names a source of its own language. *)
Theorem lang2news_well_formed (dirname : string) :
  wf_catalog (lang2news dirname) ∧
  Forall (fun e : Entry =>
            aliases e.2 ≠ [] ∧ media_type e.2 = MediaType.NEWS ∧
            MediaType.NEWS ∈ match_types e.2 ∧ uri_truthy (uri e.2) = true ∧
            title e.2 = None ∧ match_confidence e.2 = None)
    (flatten (lang2news dirname)) ∧
  (forall lang feed,
     langdefaults !! lang = Some feed ->
     is_Some (lookup_source (lang2news dirname) lang feed)).
Proof.
  split; [|split].
  - apply (bool_decide_unpack _). vm_compute. exact I.
  - repeat constructor; simpl; try discriminate;
      rewrite ?elem_of_cons; tauto.
  - intros lang feed H. unfold langdefaults in H.
    apply elem_of_list_to_map_2 in H.
    repeat (apply elem_of_cons in H;
            destruct H as [[= -> ->]|H]; [vm_compute; by eexists|]).
    by apply elem_of_nil in H.
Qed.

Lemma lang2news_well_formed_witness :
  is_Some (lookup_source (lang2news "/skill") "de" "Deutsche Welle").
Proof.
  destruct (lang2news_well_formed "/skill") as (_ & _ & H).
  apply H. reflexivity.
Defined.

(** ** search_news on the extractors *)

Lemma search_news_on_web_aux self phrase media cat web o l k v r :
  wf_catalog cat ->
  lookup_source cat l k = Some v ->
  uri v = UCallable r ->
  passes_filter self media (scored self phrase media l k v) = true ->
  let out := search_news self phrase media cat (web_world web o) in
  ((l, k) ∈ results out.2 <->
   exists s, run_extractor web o r = Returned (Some s) ∧ s ≠ "") ∧
  (forall s,
     run_extractor web o r = Returned (Some s) -> s ≠ "" ->
     uri <$> lookup_source out.1 l k = Some (UStr s)).
Proof.
  intros Hwf Hv Hu Hp out.
  destruct (search_news_at self phrase media cat (web_world web o) l k v Hwf Hv)
    as (st & _ & Hnet & _ & Hl & Hiff & _).
  fold out in Hl, Hiff.
  assert (Hu0 : uri (scored self phrase media l k v) = UCallable r)
    by (by rewrite scored_uri).
  destruct (news_body_cases self phrase media l k v st) as [[Hp' _]|[_ Ho]];
    [congruence|].
  assert (Hrun : forall r', net (world st) (clock (world st)) r' =
                            run_extractor web o r') by (by rewrite Hnet).
  split.
  - rewrite Hiff, (Resolution_appended_iff _ _ _ _ _ _ Ho). split.
    + intros [[Hc _]|(r' & s & Hu' & Hn & Hs)]; [by rewrite Hu0 in Hc|].
      assert (r' = r) as -> by congruence.
      exists s. rewrite <- Hrun. split; [exact Hn|]. intros ->. discriminate Hs.
    + intros (s & Hr & Hs). right. exists r, s. rewrite Hrun.
      split; [exact Hu0|]. split; [exact Hr|]. by destruct s.
  - intros s Hr Hs. rewrite Hl.
    destruct Ho as [r' Hu' Hn|r' u Hu' Hn He|r' s' Hu' Hn Hs'|Hc Ht|Hc Ht];
      try (by rewrite Hu0 in Hc);
      assert (r' = r) as -> by congruence;
      rewrite Hrun, Hr in Hn.
    + discriminate Hn.
    + injection Hn as <-. unfold empty_return in He. simpl in He.
      destruct s; [done|discriminate He].
    + injection Hn as <-. reflexivity.
Qed.

(** X18. On a web that does not change during the request, a source that
    holds an extractor and passes the test is returned exactly when the
    extractor returns a string that is not empty, and that string is then
    its uri. *)
Theorem search_news_on_web (self : NewsSkill) (phrase : string)
  (media : MediaType.t) (cat : Catalog) (web : Web) (o : Outcome)
  (l k : string) (v : Descriptor) (r : Resolver) :
  wf_catalog cat ->
  lookup_source cat l k = Some v ->
  uri v = UCallable r ->
  passes_filter self media (scored self phrase media l k v) = true ->
  let out := search_news self phrase media cat (web_world web o) in
  ((l, k) ∈ results out.2 <->
   exists s, run_extractor web o r = Returned (Some s) ∧ s ≠ "") ∧
  (forall s,
     run_extractor web o r = Returned (Some s) -> s ≠ "" ->
     uri <$> lookup_source out.1 l k = Some (UStr s)).
Proof. apply search_news_on_web_aux. Qed.

Lemma search_news_on_web_witness :
  uri <$> lookup_source
            (search_news ModelHost.skill "news" MediaType.NEWS
               ModelHost.catalog (web_world ModelWeb.web Raised)).1
            "pt-pt" "TSF"
  = Some (UStr "https://www.tsf.pt/stream/audio/2023/12/noticias/31/not23.mp3").
Proof.
  destruct (search_news_on_web ModelHost.skill "news" MediaType.NEWS
              ModelHost.catalog ModelWeb.web Raised "pt-pt" "TSF"
              (source ["TSF"; "TSF Rádio Notícias"; "TSF Notícias"]
                 (UCallable tsf) MediaType.NEWS
                 [MediaType.NEWS; MediaType.RADIO] PlaybackType.AUDIO
                 (Some ["pt"]) "/skill/ui/images/tsf.png") tsf)
    as [_ H].
  - apply (bool_decide_unpack _). vm_compute. exact I.
  - reflexivity.
  - reflexivity.
  - reflexivity.
  - apply H; [reflexivity|discriminate].
Defined.

(** X19. In a request for NEWS, NPR is returned exactly when the feed has
    a stream with something before its first question mark, and its uri is
    then that part of the stream: a stream that starts with a question
    mark, like no stream at all, leaves NPR out. *)
Theorem search_news_npr_stream (self : NewsSkill) (phrase : string)
  (cat : Catalog) (web : Web) (o : Outcome) (l k : string) (v : Descriptor) :
  wf_catalog cat ->
  lookup_source cat l k = Some v ->
  uri v = UCallable npr ->
  let out := search_news self phrase MediaType.NEWS cat (web_world web o) in
  ((l, k) ∈ results out.2 <->
   exists f, get_rss_first_stream web Fetch.npr_url = Ok (Some f) ∧
             split_head "?"%char f ≠ "") ∧
  (forall f,
     get_rss_first_stream web Fetch.npr_url = Ok (Some f) ->
     split_head "?"%char f ≠ "" ->
     uri <$> lookup_source out.1 l k = Some (UStr (split_head "?"%char f))).
Proof.
  intros Hwf Hv Hu out.
  assert (Hp : passes_filter self MediaType.NEWS
                 (scored self phrase MediaType.NEWS l k v) = true).
  { unfold passes_filter. apply orb_true_iff. right. done. }
  destruct (search_news_on_web_aux self phrase MediaType.NEWS cat web o l k v
              npr Hwf Hv Hu Hp) as [Hiff Huri].
  fold out in Hiff, Huri.
  assert (Hnpr : forall f, get_rss_first_stream web Fetch.npr_url = Ok (Some f) ->
                           split_head "?"%char f ≠ "" ->
                           run_extractor web o npr =
                           Returned (Some (split_head "?"%char f))).
  { intros f Hf Hne. simpl. unfold Fetch.npr. rewrite Hf.
    destruct f; [done|reflexivity]. }
  split.
  - rewrite Hiff. split.
    + intros (s & Hr & Hs). simpl in Hr. unfold Fetch.npr in Hr.
      destruct (get_rss_first_stream web Fetch.npr_url) as [[f|]|];
        try discriminate Hr.
      destruct (str_truthy f); [|discriminate Hr].
      injection Hr as <-. by exists f.
    + intros (f & Hf & Hne). exists (split_head "?"%char f).
      split; [by apply Hnpr|exact Hne].
  - intros f Hf Hne. apply Huri; [by apply Hnpr|exact Hne].
Qed.

Lemma search_news_npr_stream_witness :
  uri <$> lookup_source
            (search_news ModelHost.skill "news" MediaType.NEWS
               ModelHost.catalog (web_world ModelWeb.web Raised)).1
            "en-us" "NPR"
  = Some (UStr "https://npr/newscast.mp3").
Proof.
  destruct (search_news_npr_stream ModelHost.skill "news" ModelHost.catalog
              ModelWeb.web Raised "en-us" "NPR"
              (source ["NPR News"; "NPR"; "National Public Radio";
                       "National Public Radio News"; "NPR News Now"]
                 (UCallable npr) MediaType.NEWS
                 [MediaType.NEWS; MediaType.RADIO] PlaybackType.AUDIO
                 (Some ["en"]) "/skill/ui/images/NPR.png"))
    as [_ H].
  - apply (bool_decide_unpack _). vm_compute. exact I.
  - reflexivity.
  - reflexivity.
  - apply (H "https://npr/newscast.mp3?orgId=1&d=300"); [reflexivity|].
    discriminate.
Defined.

(** ** Asking again *)

Lemma score_confidence_again self score phrase langs dfs l k v v1 :
  aliases v1 = aliases v ->
  secondary_langs v1 = secondary_langs v ->
  match_confidence v1 =
    match_confidence (score_confidence self score phrase langs dfs l k v) ->
  score_confidence self score phrase langs dfs l k v1 = v1.
Proof.
  destruct v, v1. simpl. intros -> -> ->.
  unfold score_confidence, get_secondary_langs. cbv zeta.
  destruct (bool_decide (l ∈ langs)); [|destruct (existsb _ langs)];
    destruct (bool_decide (k ∈ dfs)); reflexivity.
Qed.

Lemma fill_defaults_again self k v :
  fill_defaults self k (fill_defaults self k v) = fill_defaults self k v.
Proof.
  destruct v as [? ? ? ? ? ? ? ? t b ?].
  unfold fill_defaults, set_title, set_bg_image, set_skill_logo. simpl.
  f_equal.
  - destruct t as [t|]; [destruct (str_truthy t) eqn:E|]; simpl;
      rewrite ?E; try reflexivity; by destruct (str_truthy k).
  - destruct b as [b|]; [destruct (str_truthy b) eqn:E|]; simpl;
      rewrite ?E; try reflexivity; by destruct (str_truthy (default_bg self)).
Qed.

Lemma loop_state_app_nil st :
  mkLoopState (results st ++ []) (log st) (world st) = st.
Proof. destruct st. simpl. by rewrite app_nil_r. Qed.

Lemma score_source_settled self media score phrase langs dfs l k v st :
  score_confidence self score phrase langs dfs l k v = v ->
  callable (uri v) = false ->
  score_source self media score phrase langs dfs l k v st =
    if (confidence_ge v (AVERAGE self) ||
        bool_decide (media = MediaType.NEWS)) && uri_truthy (uri v)
    then (fill_defaults self k v,
          mkLoopState (results st ++ [(l, k)]) (log st) (world st))
    else (v, st).
Proof.
  intros H Hc. unfold score_source. cbv zeta. rewrite H.
  destruct (confidence_ge v (AVERAGE self) ||
            bool_decide (media = MediaType.NEWS)); [|reflexivity].
  unfold resolve_and_append, append_result. rewrite andb_true_l.
  destruct (uri v); [reflexivity|discriminate Hc|reflexivity].
Qed.

Lemma score_source_again self media score phrase langs dfs l k v st st' :
  callable (uri v) = false ->
  let o := score_source self media score phrase langs dfs l k v st in
  exists dr,
    results o.2 = results st ++ dr ∧ log o.2 = log st ∧
    world o.2 = world st ∧ callable (uri o.1) = false ∧
    score_source self media score phrase langs dfs l k o.1 st' =
      (o.1, mkLoopState (results st' ++ dr) (log st') (world st')).
Proof.
  intros Hc o.
  destruct (score_confidence_frame self score phrase langs dfs l k v)
    as ((Ha & _ & _ & _ & Hs & _) & Hu & _).
  set (v0 := score_confidence self score phrase langs dfs l k v) in *.
  assert (Hc0 : callable (uri v0) = false) by (by rewrite Hu).
  assert (H0 : score_confidence self score phrase langs dfs l k v0 = v0).
  { apply (score_confidence_again _ _ _ _ _ _ _ v);
      [exact Ha|exact Hs|reflexivity]. }
  assert (H1 : score_confidence self score phrase langs dfs l k
                 (fill_defaults self k v0) = fill_defaults self k v0).
  { apply (score_confidence_again _ _ _ _ _ _ _ v);
      [exact Ha|exact Hs|reflexivity]. }
  assert (Ho : o =
    if (confidence_ge v0 (AVERAGE self) ||
        bool_decide (media = MediaType.NEWS)) && uri_truthy (uri v0)
    then (fill_defaults self k v0,
          mkLoopState (results st ++ [(l, k)]) (log st) (world st))
    else (v0, st)).
  { unfold o, score_source. cbv zeta. fold v0.
    destruct (confidence_ge v0 (AVERAGE self) ||
              bool_decide (media = MediaType.NEWS)); [|reflexivity].
    unfold resolve_and_append, append_result. rewrite andb_true_l.
    destruct (uri v0); [reflexivity|discriminate Hc0|reflexivity]. }
  rewrite Ho.
  destruct ((confidence_ge v0 (AVERAGE self) ||
             bool_decide (media = MediaType.NEWS)) && uri_truthy (uri v0))
    eqn:Hp.
  - exists [(l, k)]. cbn [fst snd results log world].
    split; [reflexivity|]. split; [reflexivity|]. split; [reflexivity|].
    split; [exact Hc0|].
    rewrite score_source_settled; [|exact H1|exact Hc0].
    change ((confidence_ge v0 (AVERAGE self) ||
             bool_decide (media = MediaType.NEWS)) && uri_truthy (uri v0)
            = true) in Hp.
    change (confidence_ge (fill_defaults self k v0) (AVERAGE self))
      with (confidence_ge v0 (AVERAGE self)).
    change (uri (fill_defaults self k v0)) with (uri v0).
    rewrite Hp, fill_defaults_again. reflexivity.
  - exists []. cbn [fst snd]. rewrite app_nil_r.
    split; [reflexivity|]. split; [reflexivity|]. split; [reflexivity|].
    split; [exact Hc0|].
    rewrite score_source_settled; [|exact H0|exact Hc0].
    rewrite Hp, loop_state_app_nil. reflexivity.
Qed.

Section Again.
Variable body : string -> string -> Descriptor -> LoopState ->
                Descriptor * LoopState.
Hypothesis body_again : forall l k v st st',
  callable (uri v) = false ->
  exists dr,
    results (body l k v st).2 = results st ++ dr ∧
    log (body l k v st).2 = log st ∧
    world (body l k v st).2 = world st ∧
    callable (uri (body l k v st).1) = false ∧
    body l k (body l k v st).1 st' =
      ((body l k v st).1,
       mkLoopState (results st' ++ dr) (log st') (world st')).

Lemma loop_items_again l b st st' :
  Forall (fun kv : string * Descriptor => callable (uri kv.2) = false) b ->
  exists dr,
    results (loop_items body l b st).2 = results st ++ dr ∧
    log (loop_items body l b st).2 = log st ∧
    world (loop_items body l b st).2 = world st ∧
    Forall (fun kv : string * Descriptor => callable (uri kv.2) = false)
      (loop_items body l b st).1 ∧
    loop_items body l (loop_items body l b st).1 st' =
      ((loop_items body l b st).1,
       mkLoopState (results st' ++ dr) (log st') (world st')).
Proof.
  revert st st'. induction b as [|[k v] b IH]; intros st st' Hb.
  - exists []. simpl. rewrite app_nil_r, loop_state_app_nil. done.
  - apply Forall_cons in Hb as [Hv Hb]. simpl in Hv.
    destruct (body_again l k v st st' Hv) as (d1 & R1 & L1 & W1 & C1 & B1).
    cbn [loop_items].
    destruct (body l k v st) as [v1 st1] eqn:E1. cbn [fst snd] in *.
    destruct (IH st1 (mkLoopState (results st' ++ d1) (log st') (world st')) Hb)
      as (d2 & R2 & L2 & W2 & C2 & B2).
    destruct (loop_items body l b st1) as [b1 st2] eqn:E2. cbn [fst snd] in *.
    exists (d1 ++ d2). cbn [fst snd loop_items].
    rewrite B1, B2. cbn [results log world].
    rewrite R2, R1, L2, L1, W2, W1, <- !app_assoc.
    split; [reflexivity|]. split; [reflexivity|]. split; [reflexivity|].
    split; [by apply Forall_cons|reflexivity].
Qed.

Lemma loop_langs_again cat st st' :
  Forall (fun e : Entry => callable (uri e.2) = false) (flatten cat) ->
  exists dr,
    results (loop_langs body cat st).2 = results st ++ dr ∧
    log (loop_langs body cat st).2 = log st ∧
    world (loop_langs body cat st).2 = world st ∧
    loop_langs body (loop_langs body cat st).1 st' =
      ((loop_langs body cat st).1,
       mkLoopState (results st' ++ dr) (log st') (world st')).
Proof.
  revert st st'. induction cat as [|[l b] cat IH]; intros st st' Hc.
  - exists []. simpl. rewrite app_nil_r, loop_state_app_nil. done.
  - change (flatten ((l, b) :: cat)) with (tag_bucket l b ++ flatten cat) in Hc.
    apply Forall_app in Hc as [Hb Hc].
    assert (Hb' : Forall (fun kv : string * Descriptor =>
                            callable (uri kv.2) = false) b).
    { unfold tag_bucket in Hb. apply Forall_fmap in Hb.
      eapply Forall_impl; [exact Hb|]. by intros [? ?]. }
    destruct (loop_items_again l b st st' Hb')
      as (d1 & R1 & L1 & W1 & _ & B1).
    cbn [loop_langs].
    destruct (loop_items body l b st) as [b1 st1] eqn:E1. cbn [fst snd] in *.
    destruct (IH st1 (mkLoopState (results st' ++ d1) (log st') (world st')) Hc)
      as (d2 & R2 & L2 & W2 & B2).
    destruct (loop_langs body cat st1) as [c1 st2] eqn:E2. cbn [fst snd] in *.
    exists (d1 ++ d2). cbn [fst snd loop_langs].
    rewrite B1, B2. cbn [results log world].
    rewrite R2, R1, L2, L1, W2, W1, <- !app_assoc.
    split; [reflexivity|]. split; [reflexivity|]. split; reflexivity.
Qed.
End Again.

(** X20. On a catalog in which no source holds an extractor, a request
    makes no call and logs nothing, and the same request asked again, in
    any world, returns the same sources and leaves the catalog as the
    first one left it: title, images and confidence are written once. *)
Theorem search_news_again (self : NewsSkill) (phrase : string)
  (media : MediaType.t) (cat : Catalog) (w w' : World) :
  Forall (fun e : Entry => callable (uri e.2) = false) (flatten cat) ->
  let out := search_news self phrase media cat w in
  log out.2 = [] ∧ world out.2 = w ∧
  search_news self phrase media out.1 w' =
    (out.1, mkLoopState (results out.2) [] w').
Proof.
  intros Hc out. unfold out, search_news. cbv zeta.
  edestruct (loop_langs_again
               (score_source self media (base_score media)
                  (clean_phrase self phrase)
                  (effective_langs self (match_lang self phrase))
                  (default_feeds_of self (clean_phrase self phrase)
                     (match_lang self phrase))))
    as (dr & R & L & W & B); [|exact Hc|].
  - intros l k v st st' Hv. apply score_source_again. exact Hv.
  - rewrite L, W, B, R. done.
Qed.

Lemma search_news_again_witness :
  let cat := [("de", [("DW", source ["DW"] (UStr "http://dw/feed.mp3")
                               MediaType.NEWS [MediaType.NEWS]
                               PlaybackType.AUDIO None "/dw.png")])] in
  let out := search_news ModelHost.skill "news" MediaType.NEWS cat
               (mkWorld 0 ModelHost.net_raising) in
  search_news ModelHost.skill "news" MediaType.NEWS out.1
    (mkWorld 7 ModelHost.net_raising) =
  (out.1, mkLoopState (results out.2) [] (mkWorld 7 ModelHost.net_raising)).
Proof.
  intros cat out.
  apply (search_news_again ModelHost.skill "news" MediaType.NEWS cat
           (mkWorld 0 ModelHost.net_raising)
           (mkWorld 7 ModelHost.net_raising)).
  repeat constructor.
Defined.
